(** * MCP business agent: workflow engine and remote tool invoker

    A shallow embedding of [mcp_business_agent/models.py],
    [mcp_business_agent/mcp_client.py] and
    [mcp_business_agent/workflow_manager.py].

    Python objects become records, dictionaries become [gmap]s, Python sets
    become [gset]s together with an explicit iteration order, exceptions
    become the [Raise] branch of [result].  Everything the program obtains
    from outside (HTTP replies, the order in which concurrent tasks finish,
    the iteration order of a set of strings, generated identifiers) is a
    field of an environment record, so the functions below are executable.

    Wall-clock fields ([started_at], [completed_at], [response_time_ms],
    the rate limiter clock) and the floating point fields
    ([progress_percentage], [avg_response_time_ms]) are left out: nothing
    in the control flow reads them. *)

From Stdlib Require Import ZArith Lia.
From stdpp Require Import gmap strings list fin_maps fin_sets pretty relations.

Open Scope string_scope.
Open Scope list_scope.
Open Scope Z_scope.

(** ** Exceptions *)

(** The exception classes of the two modules and the built-in ones that
    matter, each carrying the text that [str(e)] yields.  [Exception]
    stands for any class not listed. *)
Inductive exn :=
  | Exception (msg : string)
  | KeyError (msg : string)
  | RecursionError (msg : string)
  | AsyncioTimeoutError (msg : string)
  | ValidationError (msg : string)
  | HttpxTimeoutException (msg : string)
  | HttpxConnectError (msg : string)
  | MCPError (msg : string)
  | MCPAuthError (msg : string)
  | MCPTimeoutError (msg : string)
  | MCPToolError (msg : string)
  | MCPRateLimitError (msg : string)
  | MCPServerError (msg : string)
  | WorkflowError (msg : string)
  | WorkflowTimeoutError (msg : string)
  | WorkflowStepError (msg : string)
  | WorkflowDependencyError (msg : string).

Definition str (e : exn) : string :=
  match e with
  | Exception m | KeyError m | RecursionError m
  | AsyncioTimeoutError m | ValidationError m
  | HttpxTimeoutException m | HttpxConnectError m
  | MCPError m | MCPAuthError m | MCPTimeoutError m | MCPToolError m
  | MCPRateLimitError m | MCPServerError m
  | WorkflowError m | WorkflowTimeoutError m | WorkflowStepError m
  | WorkflowDependencyError m => m
  end.

(** [isinstance(e, MCPError)]: the base class and its five subclasses. *)
Definition is_MCPError (e : exn) : bool :=
  match e with
  | MCPError _ | MCPAuthError _ | MCPTimeoutError _ | MCPToolError _
  | MCPRateLimitError _ | MCPServerError _ => true
  | _ => false
  end.

(** [isinstance(e, WorkflowError)]: the base class and its three subclasses. *)
Definition is_WorkflowError (e : exn) : bool :=
  match e with
  | WorkflowError _ | WorkflowTimeoutError _ | WorkflowStepError _
  | WorkflowDependencyError _ => true
  | _ => false
  end.

Inductive result (A : Type) :=
  | Ok (a : A)
  | Raise (e : exn).
Arguments Ok {A} a.
Arguments Raise {A} e.

(** Opaque payloads ([Any] in the source): the text of a JSON value. *)
Definition json := string.

(** Values of a tool argument mapping ([Dict[str, Any]]). *)
Inductive pyval :=
  | PyStr (s : string)
  | PyInt (z : Z)
  | PyBool (b : bool)
  | PyNone.

(** ** models.py *)

Module WorkflowStatus.
Inductive t :=
  | PENDING | IN_PROGRESS | COMPLETED | FAILED | PARTIALLY_COMPLETED
  | CANCELLED.

(** The four values from which the state machine has no outgoing edge. *)
Definition terminal (s : t) : bool :=
  match s with
  | COMPLETED | FAILED | PARTIALLY_COMPLETED | CANCELLED => true
  | PENDING | IN_PROGRESS => false
  end.
End WorkflowStatus.

Module ToolExecutionStatus.
Inductive t := PENDING | RUNNING | COMPLETED | FAILED | SKIPPED.
End ToolExecutionStatus.

Record WorkflowStep := {
  step_id : string;
  name : string;
  tool_name : string;
  parameters : gmap string pyval;
  depends_on : list string;
  status : ToolExecutionStatus.t;
  result_ : option json;
  error : option string;
  retry_count : Z;
  max_retries : Z
}.

Record WorkflowDefinition := {
  wd_workflow_id : string;
  wd_name : string;
  wd_description : string;
  steps : list WorkflowStep;
  timeout_minutes : Z;
  parallel_execution : bool
}.

Record WorkflowExecution := {
  execution_id : string;
  workflow_id : string;
  ex_status : WorkflowStatus.t;
  current_step : option string;
  completed_steps : list string;
  failed_steps : list string;
  results : gmap string (option json);
  errors : gmap string string
}.

(** [WorkflowStep(step_id=..., name=..., tool_name=..., parameters=...,
    depends_on=..., max_retries=...)]: the other fields take their
    defaults. *)
Definition mk_step (sid nm tool : string) (params : gmap string pyval)
    (deps : list string) (retries : Z) : WorkflowStep :=
  {| step_id := sid; name := nm; tool_name := tool; parameters := params;
     depends_on := deps; status := ToolExecutionStatus.PENDING;
     result_ := None; error := None; retry_count := 0;
     max_retries := retries |}.

(** [WorkflowDefinition(...)]: pydantic enforces [ge=1, le=480] on
    [timeout_minutes] when the object is built. *)
Definition mk_definition (wid nm descr : string) (sts : list WorkflowStep)
    (timeout : Z) (par : bool) : result WorkflowDefinition :=
  if bool_decide (1 ≤ timeout ≤ 480) then
    Ok {| wd_workflow_id := wid; wd_name := nm; wd_description := descr;
          steps := sts; timeout_minutes := timeout;
          parallel_execution := par |}
  else Raise (ValidationError "timeout_minutes").

(** [WORKFLOW_TEMPLATES["quarterly_analysis"]["steps"]], as
    [_load_predefined_workflows] builds them ([max_retries] defaults to 3). *)
Definition quarterly_analysis_steps : list WorkflowStep :=
  [ mk_step "fetch_sales_data" "Fetch Sales Data" "query_database"
      {[ "sql" := PyStr "SELECT * FROM sales WHERE quarter = ?" ]} [] 3;
    mk_step "analyze_trends" "Analyze Trends" "start_thinking"
      {[ "problem" := PyStr "Analyze quarterly sales trends" ]}
      ["fetch_sales_data"] 3;
    mk_step "generate_report" "Generate Report" "finish_thinking"
      ∅ ["analyze_trends"] 3;
    mk_step "email_report" "Email Report" "send_email"
      (<[ "to" := PyStr "executives@company.com" ]>
       (<[ "subject" := PyStr "Quarterly Analysis Report" ]>
        {[ "body" := PyStr "Please find the quarterly analysis attached." ]}))
      ["generate_report"] 3 ].

Definition competitive_research_steps : list WorkflowStep :=
  [ mk_step "search_competitors" "Search Competitors" "search_web"
      (<[ "query" := PyStr "competitor pricing 2024" ]>
       {[ "max_results" := PyInt 20 ]}) [] 3;
    mk_step "scrape_pricing" "Scrape Pricing Pages" "scrape_page"
      {[ "url" := PyStr "https://competitor.com/pricing" ]}
      ["search_competitors"] 3;
    mk_step "analyze_competition" "Analyze Competition" "start_thinking"
      {[ "problem" := PyStr "Competitive pricing strategy analysis" ]}
      ["scrape_pricing"] 3;
    mk_step "update_database" "Update Database" "execute_database"
      {[ "sql" := PyStr "INSERT INTO competitive_analysis ..." ]}
      ["analyze_competition"] 3 ].

(** The catalogue as (template id, name, description, steps). *)
Definition WORKFLOW_TEMPLATES
    : list (string * (string * string * list WorkflowStep)) :=
  [ ("quarterly_analysis",
     ("Quarterly Business Analysis",
      "Comprehensive quarterly business performance analysis",
      quarterly_analysis_steps));
    ("competitive_research",
     ("Competitive Market Research",
      "Research competitors and market trends",
      competitive_research_steps)) ].

(** ** mcp_client.py *)

Module MCPRequestStatus.
Inductive t :=
  | SUCCESS | FAILED | TIMEOUT | RATE_LIMITED | AUTH_ERROR | SERVER_ERROR.
End MCPRequestStatus.

Record MCPResponse := {
  success : bool;
  data : option json;
  resp_error : option string;
  resp_tool_name : option string;
  resp_status : MCPRequestStatus.t;
  resp_retry_count : Z
}.

Record MCPRequestMetrics := {
  total_requests : Z;
  successful_requests : Z;
  failed_requests : Z;
  timeout_requests : Z;
  retry_requests : Z;
  rate_limit_hits : Z
}.

Module MCPClient.

(** What one [await self._client.post("", json=...)] hands back, as far
    as [call_tool] looks at it.  For a 200 reply whose body is a JSON
    object, [rpc_error] is the ["error"] member when there is one and
    it is an object (its optional ["code"] and ["message"]) and
    [rpc_result] is [data.get("result")].  For any other status,
    [error_entry] is [_safe_json_parse(response).get("error")] when
    present.  A 200 reply whose body is no object, or whose ["error"]
    member is [null] or anything else without a [get] method, makes
    the code raise [AttributeError] inside the [try] block before it
    touches the metrics: such a reply is not a value of this type but
    an exception of the request (see [server] below). *)
Record HttpResponse := {
  status_code : Z;
  rpc_error : option (option Z * option string);
  rpc_result : option json;
  error_entry : option string
}.

(** The client object: whether [_client] is set (the context manager
    was entered), the configured retry budget, the metrics, and a log
    of the arguments of [asyncio.sleep] made by [call_tool]'s backoff
    together with the number of requests sent. *)
Record t := {
  initialized : bool;
  retry_count : Z;
  metrics : MCPRequestMetrics;
  sleeps : list Z;
  posts : nat
}.

Definition new (retries : Z) : t :=
  {| initialized := false; retry_count := retries;
     metrics := {| total_requests := 0; successful_requests := 0;
                   failed_requests := 0; timeout_requests := 0;
                   retry_requests := 0; rate_limit_hits := 0 |};
     sleeps := []; posts := 0 |}.

(** [__aenter__] *)
Definition aenter (c : t) : t :=
  {| initialized := true; retry_count := retry_count c;
     metrics := metrics c; sleeps := sleeps c; posts := posts c |}.

Definition with_metrics (f : MCPRequestMetrics → MCPRequestMetrics) (c : t) : t :=
  {| initialized := initialized c; retry_count := retry_count c;
     metrics := f (metrics c); sleeps := sleeps c; posts := posts c |}.

Definition incr_total (m : MCPRequestMetrics) : MCPRequestMetrics :=
  {| total_requests := total_requests m + 1;
     successful_requests := successful_requests m;
     failed_requests := failed_requests m;
     timeout_requests := timeout_requests m;
     retry_requests := retry_requests m;
     rate_limit_hits := rate_limit_hits m |}.

Definition incr_successful (m : MCPRequestMetrics) : MCPRequestMetrics :=
  {| total_requests := total_requests m;
     successful_requests := successful_requests m + 1;
     failed_requests := failed_requests m;
     timeout_requests := timeout_requests m;
     retry_requests := retry_requests m;
     rate_limit_hits := rate_limit_hits m |}.

Definition incr_failed (m : MCPRequestMetrics) : MCPRequestMetrics :=
  {| total_requests := total_requests m;
     successful_requests := successful_requests m;
     failed_requests := failed_requests m + 1;
     timeout_requests := timeout_requests m;
     retry_requests := retry_requests m;
     rate_limit_hits := rate_limit_hits m |}.

Definition incr_timeout (m : MCPRequestMetrics) : MCPRequestMetrics :=
  {| total_requests := total_requests m;
     successful_requests := successful_requests m;
     failed_requests := failed_requests m;
     timeout_requests := timeout_requests m + 1;
     retry_requests := retry_requests m;
     rate_limit_hits := rate_limit_hits m |}.

Definition incr_rate_limit_hits (m : MCPRequestMetrics) : MCPRequestMetrics :=
  {| total_requests := total_requests m;
     successful_requests := successful_requests m;
     failed_requests := failed_requests m;
     timeout_requests := timeout_requests m;
     retry_requests := retry_requests m;
     rate_limit_hits := rate_limit_hits m + 1 |}.

(** [await asyncio.sleep(wait_time)] *)
Definition sleep (w : Z) (c : t) : t :=
  {| initialized := initialized c; retry_count := retry_count c;
     metrics := metrics c; sleeps := sleeps c ++ [w]; posts := posts c |}.

Definition sent (c : t) : t :=
  {| initialized := initialized c; retry_count := retry_count c;
     metrics := metrics c; sleeps := sleeps c; posts := S (posts c) |}.

(** How one pass through the body of the [for attempt] loop ends. *)
Inductive flow :=
  | Return (r : MCPResponse)
  | Continue
  | Throw (e : exn).

Definition failure (tool : string) (msg : string) (attempt : Z) : MCPResponse :=
  {| success := false; data := None; resp_error := Some msg;
     resp_tool_name := Some tool; resp_status := MCPRequestStatus.FAILED;
     resp_retry_count := attempt |}.

Section call_tool.
(** [server k] is the outcome of the [k]-th request of this call:
    a reply, or the exception that [post], decoding its body or
    reading a malformed body raises. *)
Variable server : nat → result HttpResponse.
Variable tool : string.
Variable retry_attempts : Z.

(** The [if]/[elif] chain on [response.status_code], inside [try]. *)
Definition on_response (attempt : Z) (r : HttpResponse) (c : t) : flow * t :=
  if bool_decide (status_code r = 200) then
    match rpc_error r with
    | Some (code, message) =>
        let error_code := default (-32000) code in
        let error_message := default "Unknown error" message in
        if bool_decide (error_code = -32601) then
          (Return (failure tool ("Tool '" +:+ tool +:+ "' not found") attempt),
           with_metrics incr_failed c)
        else
          (Return (failure tool error_message attempt),
           with_metrics incr_failed c)
    | None =>
        (Return {| success := true; data := rpc_result r;
                   resp_error := None; resp_tool_name := Some tool;
                   resp_status := MCPRequestStatus.SUCCESS;
                   resp_retry_count := attempt |},
         with_metrics incr_successful c)
    end
  else if bool_decide (status_code r = 401) then
    (Throw (MCPAuthError
              ("Authentication failed: Invalid GitHub OAuth token for tool "
               +:+ tool)),
     with_metrics incr_failed c)
  else if bool_decide (status_code r = 429) then
    let c := with_metrics incr_rate_limit_hits c in
    if bool_decide (attempt < retry_attempts) then
      (Continue, sleep (Z.min (2 ^ attempt) 60) c)
    else
      (Throw (MCPRateLimitError ("Rate limit exceeded for tool " +:+ tool)), c)
  else if bool_decide (500 ≤ status_code r) then
    let error_msg :=
      default ("Server error: " +:+ pretty (status_code r)) (error_entry r) in
    if bool_decide (attempt < retry_attempts) then
      (Continue, sleep (Z.min (2 ^ attempt) 30) c)
    else
      (Throw (MCPServerError
                ("Server error calling " +:+ tool +:+ ": " +:+ error_msg)), c)
  else
    let error_msg :=
      default ("Client error: " +:+ pretty (status_code r)) (error_entry r) in
    (Return (failure tool error_msg attempt), with_metrics incr_failed c).

(** The three [except] clauses, tried in order on an exception that
    left the [try] block: [httpx.TimeoutException],
    [httpx.ConnectError], then [Exception], which matches every
    other class, the client's own [MCPError]s included. *)
Definition on_exception (attempt : Z) (e : exn) (c : t) : flow * t :=
  match e with
  | HttpxTimeoutException _ =>
      let c := with_metrics incr_timeout c in
      if bool_decide (attempt < retry_attempts) then
        (Continue, sleep (Z.min (2 ^ attempt) 30) c)
      else
        (Throw (MCPTimeoutError
                  ("Timeout calling " +:+ tool +:+ " after "
                   +:+ pretty retry_attempts +:+ " retries")), c)
  | HttpxConnectError _ =>
      if bool_decide (attempt < retry_attempts) then
        (Continue, sleep (Z.min (2 ^ attempt) 30) c)
      else
        (Throw (MCPError
                  ("Connection failed to MCP server for tool " +:+ tool
                   +:+ ": " +:+ str e)), c)
  | _ =>
      if bool_decide (attempt < retry_attempts) then
        (Continue, sleep (Z.min (2 ^ attempt) 30) c)
      else
        (Throw (MCPToolError
                  ("Unexpected error calling " +:+ tool +:+ ": " +:+ str e)), c)
  end.

(** One iteration: the [try] block, then the handlers.  [last] is
    [last_exception].  [_rate_limit_check] only waits.  The lines that
    follow the handlers inside the loop ([if attempt > 0:
    self.metrics.retry_requests += 1]) are never reached, since every
    branch of the [try] block returns, continues or raises. *)
Definition attempt_body (k : nat) (attempt : Z) (last : option exn) (c : t)
    : flow * option exn * t :=
  match server k with
  | Ok r =>
      match on_response attempt r (sent c) with
      | (Throw e, c') =>
          let '(f, c'') := on_exception attempt e c' in (f, Some e, c'')
      | (f, c') => (f, last, c')
      end
  | Raise e =>
      let '(f, c') := on_exception attempt e (sent c) in (f, Some e, c')
  end.

(** [for attempt in range(retry_attempts + 1)], with [n] iterations
    left, followed by the code after the loop. *)
Fixpoint attempts (n : nat) (k : nat) (last : option exn) (c : t)
    : result MCPResponse * t :=
  match n with
  | O =>
      let c := with_metrics incr_failed c in
      match last with
      | Some e =>
          (Raise (MCPToolError ("All retry attempts failed for " +:+ tool
                                +:+ ": " +:+ str e)), c)
      | None =>
          (Raise (MCPToolError ("All retry attempts failed for " +:+ tool)), c)
      end
  | S n' =>
      match attempt_body k (Z.of_nat k) last c with
      | (Return r, _, c') => (Ok r, c')
      | (Throw e, _, c') => (Raise e, c')
      | (Continue, last', c') => attempts n' (S k) last' c'
      end
  end.
End call_tool.

(** [call_tool(tool_name, params, retry_count=None)].  The argument
    mapping only travels inside the request, so it is not a parameter
    here. *)
Definition call_tool (server : nat → result HttpResponse) (c : t)
    (tool : string) (retries : option Z) : result MCPResponse * t :=
  if negb (initialized c) then
    (Raise (MCPError "MCP client not initialized. Use async context manager."), c)
  else
    let retry_attempts :=
      match retries with
      | Some r => if bool_decide (r = 0) then retry_count c else r
      | None => retry_count c
      end in
    attempts server tool retry_attempts (Z.to_nat (retry_attempts + 1)) 0 None
      (with_metrics incr_total c).

(** [health_check()]: the call of the tool "health", with every
    exception turned into a response whose [success] is false. *)
Definition health_check (server : nat → result HttpResponse) (c : t)
    : MCPResponse * t :=
  match call_tool server c "health" None with
  | (Ok r, c') => (r, c')
  | (Raise e, c') =>
      (failure "health" ("Health check failed: " +:+ str e) 0, c')
  end.

(** [list_available_tools()], the same around the tool "list_tools". *)
Definition list_available_tools (server : nat → result HttpResponse) (c : t)
    : MCPResponse * t :=
  match call_tool server c "list_tools" None with
  | (Ok r, c') => (r, c')
  | (Raise e, c') =>
      (failure "list_tools" ("Failed to list tools: " +:+ str e) 0, c')
  end.

End MCPClient.

(** ** workflow_manager.py *)

Module WorkflowManager.

(** *** The manager object and the record updates the methods perform *)

Record t := {
  active_workflows : gmap string WorkflowExecution;
  workflow_definitions : gmap string WorkflowDefinition
}.

Definition set_status (s : WorkflowStatus.t) (e : WorkflowExecution)
    : WorkflowExecution :=
  {| execution_id := execution_id e; workflow_id := workflow_id e;
     ex_status := s; current_step := current_step e;
     completed_steps := completed_steps e; failed_steps := failed_steps e;
     results := results e; errors := errors e |}.

Definition set_current_step (sid : string) (e : WorkflowExecution)
    : WorkflowExecution :=
  {| execution_id := execution_id e; workflow_id := workflow_id e;
     ex_status := ex_status e; current_step := Some sid;
     completed_steps := completed_steps e; failed_steps := failed_steps e;
     results := results e; errors := errors e |}.

(** [execution.completed_steps.append(sid); execution.results[sid] = d] *)
Definition record_completed (sid : string) (d : option json)
    (e : WorkflowExecution) : WorkflowExecution :=
  {| execution_id := execution_id e; workflow_id := workflow_id e;
     ex_status := ex_status e; current_step := current_step e;
     completed_steps := completed_steps e ++ [sid];
     failed_steps := failed_steps e;
     results := <[sid := d]> (results e); errors := errors e |}.

(** [execution.failed_steps.append(sid); execution.errors[sid] = msg] *)
Definition record_failed (sid msg : string) (e : WorkflowExecution)
    : WorkflowExecution :=
  {| execution_id := execution_id e; workflow_id := workflow_id e;
     ex_status := ex_status e; current_step := current_step e;
     completed_steps := completed_steps e;
     failed_steps := failed_steps e ++ [sid];
     results := results e; errors := <[sid := msg]> (errors e) |}.

(** [execution.failed_steps.append(sid)] alone, as the cascade does. *)
Definition append_failed (sid : string) (e : WorkflowExecution)
    : WorkflowExecution :=
  {| execution_id := execution_id e; workflow_id := workflow_id e;
     ex_status := ex_status e; current_step := current_step e;
     completed_steps := completed_steps e;
     failed_steps := failed_steps e ++ [sid];
     results := results e; errors := errors e |}.

Definition step_running (s : WorkflowStep) : WorkflowStep :=
  {| step_id := step_id s; name := name s; tool_name := tool_name s;
     parameters := parameters s; depends_on := depends_on s;
     status := ToolExecutionStatus.RUNNING; result_ := result_ s;
     error := error s; retry_count := retry_count s;
     max_retries := max_retries s |}.

Definition step_completed (d : option json) (s : WorkflowStep) : WorkflowStep :=
  {| step_id := step_id s; name := name s; tool_name := tool_name s;
     parameters := parameters s; depends_on := depends_on s;
     status := ToolExecutionStatus.COMPLETED; result_ := d;
     error := error s; retry_count := retry_count s;
     max_retries := max_retries s |}.

(** [step.retry_count = attempt; step.error = str(e)] *)
Definition step_errored (attempt : Z) (msg : string) (s : WorkflowStep)
    : WorkflowStep :=
  {| step_id := step_id s; name := name s; tool_name := tool_name s;
     parameters := parameters s; depends_on := depends_on s;
     status := status s; result_ := result_ s;
     error := Some msg; retry_count := attempt;
     max_retries := max_retries s |}.

Definition step_failed (s : WorkflowStep) : WorkflowStep :=
  {| step_id := step_id s; name := name s; tool_name := tool_name s;
     parameters := parameters s; depends_on := depends_on s;
     status := ToolExecutionStatus.FAILED; result_ := result_ s;
     error := error s; retry_count := retry_count s;
     max_retries := max_retries s |}.

(** [{step.step_id: step for step in steps}]: a later step with the
    same id replaces an earlier one. *)
Definition step_map_of (sts : list WorkflowStep) : gmap string WorkflowStep :=
  foldl (λ m s, <[step_id s := s]> m) ∅ sts.

(** [{step.step_id for step in steps}] *)
Definition step_ids_of (sts : list WorkflowStep) : gset string :=
  list_to_set (step_id <$> sts).

(** [_load_predefined_workflows]: templates are stored as they are,
    with the default timeout and sequential mode. *)
Definition _load_predefined_workflows (wm : t) : t :=
  foldl (λ wm '(template_id, (nm, descr, sts)),
           {| active_workflows := active_workflows wm;
              workflow_definitions :=
                <[template_id :=
                    {| wd_workflow_id := template_id; wd_name := nm;
                       wd_description := descr; steps := sts;
                       timeout_minutes := 30;
                       parallel_execution := false |}]>
                  (workflow_definitions wm) |})
        wm WORKFLOW_TEMPLATES.

(** [WorkflowManager(mcp_client)] *)
Definition new : t :=
  _load_predefined_workflows
    {| active_workflows := ∅; workflow_definitions := ∅ |}.

(** *** Definition validation *)

(** The [for dep in step.depends_on] loop inside
    [has_circular_dependency], given the recursive call [visit]; the
    last line removes [sid] from the path and answers [False]. *)
Fixpoint each_dependency
    (visit : string → gset string → gset string
             → option (bool * gset string * gset string))
    (sid : string) (deps : list string) (visited path : gset string)
    : option (bool * gset string * gset string) :=
  match deps with
  | [] => Some (false, visited, path ∖ {[sid]})
  | dep :: deps' =>
      match visit dep visited path with
      | None => None
      | Some (true, visited', path') => Some (true, visited', path')
      | Some (false, visited', path') =>
          each_dependency visit sid deps' visited' path'
      end
  end.

(** [has_circular_dependency], the closure inside
    [_check_circular_dependencies].  The two sets are mutated in place
    in the source, so they are returned next to the answer.  The
    closure calls itself once per dependency edge that it follows, and
    the interpreter allows only so many nested calls: [fuel] is the
    number of nested activations of the closure that the recursion
    limit still leaves room for, and [None] means that a call would
    exceed it, where Python raises [RecursionError]. *)
Fixpoint has_circular_dependency (fuel : nat)
    (step_map : gmap string WorkflowStep) (sid : string)
    (visited path : gset string)
    : option (bool * gset string * gset string) :=
  match fuel with
  | O => None
  | S fuel' =>
      if bool_decide (sid ∈ path) then Some (true, visited, path)
      else if bool_decide (sid ∈ visited) then Some (false, visited, path)
      else
        let visited := {[sid]} ∪ visited in
        let path := {[sid]} ∪ path in
        match step_map !! sid with
        | Some step =>
            each_dependency (has_circular_dependency fuel' step_map) sid
                            (depends_on step) visited path
        | None => Some (false, visited, path ∖ {[sid]})
        end
  end.

(** The [for step in steps] loop of [_check_circular_dependencies]. *)
Fixpoint check_roots (fuel : nat) (step_map : gmap string WorkflowStep)
    (roots : list WorkflowStep) (visited : gset string)
    : option (result unit) :=
  match roots with
  | [] => Some (Ok tt)
  | step :: roots' =>
      if bool_decide (step_id step ∈ visited) then
        check_roots fuel step_map roots' visited
      else
        match has_circular_dependency fuel step_map (step_id step) visited ∅ with
        | None => None
        | Some (true, _, _) =>
            Some (Raise (WorkflowDependencyError
                           "Circular dependency detected in workflow"))
        | Some (false, visited', _) =>
            check_roots fuel step_map roots' visited'
        end
  end.

(** [_check_circular_dependencies], run when the interpreter has room
    for [frames] nested activations of the closure
    ([sys.getrecursionlimit()], 1000 unless changed, less the depth of
    the stack at that moment).  Nothing on the way up catches the
    [RecursionError]; its text depends on where the limit is hit. *)
Definition _check_circular_dependencies (frames : nat)
    (sts : list WorkflowStep) : result unit :=
  match check_roots frames (step_map_of sts) sts ∅ with
  | Some r => r
  | None => Raise (RecursionError "maximum recursion depth exceeded")
  end.

(** The first [dep] of one step with [dep not in step_ids]. *)
Fixpoint first_missing (step_ids : gset string) (deps : list string)
    : option string :=
  match deps with
  | [] => None
  | dep :: deps' =>
      if bool_decide (dep ∉ step_ids) then Some dep
      else first_missing step_ids deps'
  end.

(** The first [(step, dep)] that the two nested [for] loops reject. *)
Fixpoint first_dangling (step_ids : gset string) (sts : list WorkflowStep)
    : option (string * string) :=
  match sts with
  | [] => None
  | step :: sts' =>
      match first_missing step_ids (depends_on step) with
      | Some dep => Some (step_id step, dep)
      | None => first_dangling step_ids sts'
      end
  end.

Definition _validate_workflow_definition (frames : nat)
    (sts : list WorkflowStep) : result unit :=
  let step_ids := step_ids_of sts in
  if bool_decide (size step_ids ≠ length sts) then
    Raise (WorkflowError "Duplicate step IDs found in workflow")
  else
    match first_dangling step_ids sts with
    | Some (sid, dep) =>
        Raise (WorkflowDependencyError
                 ("Step " +:+ sid +:+ " depends on non-existent step "
                  +:+ dep))
    | None => _check_circular_dependencies frames sts
    end.

(** One entry of the [steps] argument of [create_workflow]: a
    dictionary with three required and three optional keys. *)
Record StepData := {
  sd_step_id : string;
  sd_name : string;
  sd_tool_name : string;
  sd_parameters : option (gmap string pyval);
  sd_depends_on : option (list string);
  sd_max_retries : option Z
}.

Definition step_of_data (d : StepData) : WorkflowStep :=
  mk_step (sd_step_id d) (sd_name d) (sd_tool_name d)
          (default ∅ (sd_parameters d)) (default [] (sd_depends_on d))
          (default 3 (sd_max_retries d)).

(** [create_workflow], with [frames] as in
    [_check_circular_dependencies]. *)
Definition create_workflow (frames : nat) (wm : t)
    (workflow_id name description : string)
    (steps : list StepData) (timeout_minutes : Z) (parallel_execution : bool)
    : result WorkflowDefinition * t :=
  let workflow_steps := step_of_data <$> steps in
  match _validate_workflow_definition frames workflow_steps with
  | Raise e => (Raise e, wm)
  | Ok _ =>
      match mk_definition workflow_id name description workflow_steps
                          timeout_minutes parallel_execution with
      | Raise e => (Raise e, wm)
      | Ok workflow =>
          (Ok workflow,
           {| active_workflows := active_workflows wm;
              workflow_definitions :=
                <[workflow_id := workflow]> (workflow_definitions wm) |})
      end
  end.

(** *** Running one step *)

(** What an execution leaves behind for an observer: a step's
    coroutine was entered, the remote tool was called on behalf of a
    step (with the attempt number), [asyncio.sleep] was awaited. *)
Inductive event :=
  | Started (sid : string)
  | Call (sid tool : string) (attempt : nat)
  | Sleep (seconds : Z).

(** Everything an execution takes from its surroundings.
    - [set_iter s]: the order in which [for x in s] visits a set of
      strings;
    - [invoke sid attempt tool params]: what
      [mcp_client.call_tool(tool, params)] does when it is called for
      the [attempt]-th time on behalf of step [sid];
    - [cancel_during sid attempt]: whether another coroutine calls
      [cancel_workflow] on this execution while that call is awaited;
    - [schedule k ids]: the tasks, among the unfinished ones [ids],
      that have finished when the [k]-th [asyncio.wait] returns, in
      the order in which they finished;
    - [uuid4]: the text of [uuid.uuid4()]. *)
Record Env := {
  set_iter : gset string → list string;
  invoke : string → nat → string → gmap string pyval → result MCPResponse;
  cancel_during : string → nat → bool;
  schedule : nat → list string → list string;
  uuid4 : string
}.

(** The effect of [cancel_workflow] on the execution object. *)
Definition cancel_execution (e : WorkflowExecution) : WorkflowExecution :=
  set_status WorkflowStatus.CANCELLED e.

Definition cancel_workflow (wm : t) (eid : string) : bool * t :=
  match active_workflows wm !! eid with
  | Some execution =>
      (true,
       {| active_workflows :=
            <[eid := cancel_execution execution]> (active_workflows wm);
          workflow_definitions := workflow_definitions wm |})
  | None => (false, wm)
  end.

Definition get_workflow_status (wm : t) (eid : string)
    : option WorkflowExecution :=
  active_workflows wm !! eid.

Section engine.
Variable env : Env.

Definition _call_mcp_tool (sid : string) (attempt : nat) (tool : string)
    (params : gmap string pyval) : result MCPResponse :=
  match invoke env sid attempt tool params with
  | Ok r => Ok r
  | Raise e =>
      if is_MCPError e then
        Raise (WorkflowStepError
                 ("MCP tool " +:+ tool +:+ " failed: " +:+ str e))
      else Raise e
  end.

(** [for attempt in range(step.max_retries + 1)] with [n] iterations
    left.  Falling out of the loop returns normally. *)
Fixpoint attempts (n attempt : nat) (execution : WorkflowExecution)
    (step : WorkflowStep) (tr : list event)
    : result unit * WorkflowExecution * WorkflowStep * list event :=
  match n with
  | O => (Ok tt, execution, step, tr)
  | S n' =>
      let sid := step_id step in
      let tr := tr ++ [Call sid (tool_name step) attempt] in
      let execution :=
        if cancel_during env sid attempt then cancel_execution execution
        else execution in
      match _call_mcp_tool sid attempt (tool_name step) (parameters step) with
      | Ok r =>
          (Ok tt, record_completed sid (data r) execution,
           step_completed (data r) step, tr)
      | Raise e =>
          let step := step_errored (Z.of_nat attempt) (str e) step in
          if bool_decide (Z.of_nat attempt < max_retries step) then
            attempts n' (S attempt) execution step
                     (tr ++ [Sleep (2 ^ Z.of_nat attempt)])
          else
            (Raise (WorkflowStepError
                      ("Step " +:+ sid +:+ " failed: " +:+ str e)),
             record_failed sid (str e) execution, step_failed step, tr)
      end
  end.

(** The lines of [_execute_step] before its loop. *)
Definition enter_step (execution : WorkflowExecution) (step : WorkflowStep)
    (tr : list event) : WorkflowExecution * WorkflowStep * list event :=
  (set_current_step (step_id step) execution, step_running step,
   tr ++ [Started (step_id step)]).

Definition run_attempts (execution : WorkflowExecution) (step : WorkflowStep)
    (tr : list event)
    : result unit * WorkflowExecution * WorkflowStep * list event :=
  attempts (Z.to_nat (max_retries step + 1)) 0 execution step tr.

Definition _execute_step (execution : WorkflowExecution) (step : WorkflowStep)
    (tr : list event)
    : result unit * WorkflowExecution * WorkflowStep * list event :=
  let '(execution, step, tr) := enter_step execution step tr in
  run_attempts execution step tr.

(** *** The two scheduling loops *)

(** A task created by [asyncio.create_task(self._execute_step(...))]:
    still to finish, for the step it was created with, or done. *)
Inductive task :=
  | Pending (step : WorkflowStep)
  | Done.

(** The local variables of [_execute_sequential_workflow] and
    [_execute_parallel_workflow], the execution they mutate and the
    events so far.  [running_tasks] stays empty in sequential mode;
    [waits] counts the calls of [asyncio.wait]. *)
Record loop_state := {
  execution : WorkflowExecution;
  step_map : gmap string WorkflowStep;
  remaining_steps : gset string;
  running_tasks : gmap string task;
  waits : nat;
  trace : list event
}.

Definition initial_state (e : WorkflowExecution) (sts : list WorkflowStep)
    (tr : list event) : loop_state :=
  {| execution := e; step_map := step_map_of sts;
     remaining_steps := step_ids_of sts; running_tasks := ∅;
     waits := 0; trace := tr |}.

(** [str(KeyError(k))] *)
Definition key_error (k : string) : exn := KeyError ("'" +:+ k +:+ "'").

(** [all(dep in execution.completed_steps for dep in step.depends_on)] *)
Definition is_ready (e : WorkflowExecution) (step : WorkflowStep) : bool :=
  forallb (λ dep, bool_decide (dep ∈ completed_steps e)) (depends_on step).

(** The loop that fills [ready_steps], over the ids in iteration
    order; [step_map[step_id]] raises on a missing key. *)
Fixpoint ready_steps (e : WorkflowExecution)
    (smap : gmap string WorkflowStep) (ids : list string)
    : result (list WorkflowStep) :=
  match ids with
  | [] => Ok []
  | sid :: ids' =>
      match smap !! sid with
      | None => Raise (key_error sid)
      | Some step =>
          match ready_steps e smap ids' with
          | Raise err => Raise err
          | Ok l => Ok (if is_ready e step then step :: l else l)
          end
      end
  end.

(** The loop that fills [failed_deps]. *)
Fixpoint failed_deps (e : WorkflowExecution)
    (smap : gmap string WorkflowStep) (ids : list string)
    : result (gset string) :=
  match ids with
  | [] => Ok ∅
  | sid :: ids' =>
      match smap !! sid with
      | None => Raise (key_error sid)
      | Some step =>
          match failed_deps e smap ids' with
          | Raise err => Raise err
          | Ok fd =>
              Ok (if existsb (λ dep, bool_decide (dep ∈ failed_steps e))
                             (depends_on step)
                  then {[sid]} ∪ fd else fd)
          end
      end
  end.

(** [remaining_steps.remove(sid)] *)
Definition remove_remaining (sid : string) (st : loop_state)
    : result unit * loop_state :=
  if bool_decide (sid ∈ remaining_steps st) then
    (Ok tt,
     {| execution := execution st; step_map := step_map st;
        remaining_steps := remaining_steps st ∖ {[sid]};
        running_tasks := running_tasks st; waits := waits st;
        trace := trace st |})
  else (Raise (key_error sid), st).

(** [for step_id in failed_deps: execution.failed_steps.append(step_id);
    remaining_steps.remove(step_id)] *)
Fixpoint skip_failed (ids : list string) (st : loop_state)
    : result unit * loop_state :=
  match ids with
  | [] => (Ok tt, st)
  | sid :: ids' =>
      let st :=
        {| execution := append_failed sid (execution st);
           step_map := step_map st; remaining_steps := remaining_steps st;
           running_tasks := running_tasks st; waits := waits st;
           trace := trace st |} in
      match remove_remaining sid st with
      | (Ok _, st') => skip_failed ids' st'
      | (Raise err, st') => (Raise err, st')
      end
  end.

(** The state after [_execute_step] or a finished task has mutated
    the execution and its step object. *)
Definition after_step (e : WorkflowExecution) (step : WorkflowStep)
    (tr : list event) (st : loop_state) : loop_state :=
  {| execution := e; step_map := <[step_id step := step]> (step_map st);
     remaining_steps := remaining_steps st;
     running_tasks := running_tasks st; waits := waits st; trace := tr |}.

(** The body of the [while remaining_steps] loop.  An exception
    leaving [_execute_step] is not handled here. *)
Definition seq_body (st : loop_state) : result unit * loop_state :=
  match ready_steps (execution st) (step_map st)
                    (set_iter env (remaining_steps st)) with
  | Raise err => (Raise err, st)
  | Ok [] =>
      match failed_deps (execution st) (step_map st)
                        (set_iter env (remaining_steps st)) with
      | Raise err => (Raise err, st)
      | Ok fd =>
          if bool_decide (fd = ∅) then
            (Raise (WorkflowError
                      "No ready steps found - possible circular dependency"),
             st)
          else skip_failed (set_iter env fd) st
      end
  | Ok (step :: _) =>
      let '(r, e, step', tr) := _execute_step (execution st) step (trace st) in
      let st' := after_step e step' tr st in
      match r with
      | Raise err => (Raise err, st')
      | Ok _ => remove_remaining (step_id step) st'
      end
  end.

(** How far a loop has got: it is still going after [fuel]
    iterations, or it ended, normally or with an exception. *)
Inductive progress :=
  | Running
  | Finished (r : result unit).

Fixpoint sequential_loop (fuel : nat) (st : loop_state)
    : progress * loop_state :=
  if bool_decide (remaining_steps st = ∅) then (Finished (Ok tt), st)
  else
    match fuel with
    | O => (Running, st)
    | S fuel' =>
        match seq_body st with
        | (Ok _, st') => sequential_loop fuel' st'
        | (Raise err, st') => (Finished (Raise err), st')
        end
    end.

Definition _execute_sequential_workflow (fuel : nat)
    (e : WorkflowExecution) (sts : list WorkflowStep) (tr : list event)
    : progress * loop_state :=
  sequential_loop fuel (initial_state e sts tr).

(** [for step in ready_steps: task = create_task(...);
    running_tasks[step.step_id] = task;
    remaining_steps.remove(step.step_id)].  A new task runs the lines
    of [_execute_step] before its loop as soon as the caller awaits,
    in creation order and before anything reads what they write, so
    they are applied here.  In the source each new task goes on into
    its first call before the next new task starts, whereas here the
    calls of a task are logged when the task finishes ([finish_task]):
    the events of one task are in their order, the events of
    different tasks are not interleaved as in real time. *)
Fixpoint start_tasks (ready : list WorkflowStep) (st : loop_state)
    : result unit * loop_state :=
  match ready with
  | [] => (Ok tt, st)
  | step :: ready' =>
      let '(e, step', tr) := enter_step (execution st) step (trace st) in
      let st :=
        {| execution := e; step_map := <[step_id step := step']> (step_map st);
           remaining_steps := remaining_steps st;
           running_tasks := <[step_id step := Pending step']> (running_tasks st);
           waits := waits st; trace := tr |} in
      match remove_remaining (step_id step) st with
      | (Ok _, st') => start_tasks ready' st'
      | (Raise err, st') => (Raise err, st')
      end
  end.

Definition unfinished (tasks : gmap string task) : list string :=
  (map_to_list tasks) ≫= λ '(sid, t),
    match t with Pending _ => [sid] | Done => [] end.

Definition is_done (t : task) : bool :=
  match t with Done => true | Pending _ => false end.

Definition has_done (tasks : gmap string task) : bool :=
  existsb (λ p : string * task, is_done p.2) (map_to_list tasks).

(** [await asyncio.wait(running_tasks.values(), FIRST_COMPLETED)]:
    the tasks that finish during this wait, in the order in which
    they finish.  At least one unfinished task finishes, unless the
    dictionary already holds a finished one, in which case the wait
    may return with no new one. *)
Definition wait (st : loop_state) : list string :=
  let ids := unfinished (running_tasks st) in
  match remove_dups (filter (λ sid, sid ∈ ids) (schedule env (waits st) ids)) with
  | [] => if has_done (running_tasks st) then [] else take 1 ids
  | chosen => chosen
  end.

(** A task runs the loop of [_execute_step] to its end.  Its result
    or exception stays in the task object. *)
Definition finish_task (st : loop_state) (sid : string) : loop_state :=
  match running_tasks st !! sid with
  | Some (Pending step) =>
      let '(_, e, step', tr) := run_attempts (execution st) step (trace st) in
      {| execution := e; step_map := <[step_id step := step']> (step_map st);
         remaining_steps := remaining_steps st;
         running_tasks := <[sid := Done]> (running_tasks st);
         waits := waits st; trace := tr |}
  | _ => st
  end.

(** [for task in done]: the key of the task is looked up, and when
    it is truthy (a non-empty string) the entry is deleted and the
    task awaited inside [try]/[except Exception]. *)
Definition reap (tasks : gmap string task) : gmap string task :=
  filter (λ p : string * task, is_done p.2 = false ∨ p.1 = "") tasks.

(** The body of the [while remaining_steps or running_tasks] loop. *)
Definition par_body (st : loop_state) : result unit * loop_state :=
  match ready_steps (execution st) (step_map st)
                    (set_iter env (remaining_steps st)) with
  | Raise err => (Raise err, st)
  | Ok ready =>
      match start_tasks ready st with
      | (Raise err, st1) => (Raise err, st1)
      | (Ok _, st1) =>
          if bool_decide (size (running_tasks st1) = 0%nat) then (Ok tt, st1)
          else
            let st2 := foldl finish_task st1 (wait st1) in
            (Ok tt,
             {| execution := execution st2; step_map := step_map st2;
                remaining_steps := remaining_steps st2;
                running_tasks := reap (running_tasks st2);
                waits := S (waits st2); trace := trace st2 |})
      end
  end.

Fixpoint parallel_loop (fuel : nat) (st : loop_state)
    : progress * loop_state :=
  if bool_decide (remaining_steps st = ∅)
     && bool_decide (size (running_tasks st) = 0%nat)
  then (Finished (Ok tt), st)
  else
    match fuel with
    | O => (Running, st)
    | S fuel' =>
        match par_body st with
        | (Ok _, st') => parallel_loop fuel' st'
        | (Raise err, st') => (Finished (Raise err), st')
        end
    end.

Definition _execute_parallel_workflow (fuel : nat)
    (e : WorkflowExecution) (sts : list WorkflowStep) (tr : list event)
    : progress * loop_state :=
  parallel_loop fuel (initial_state e sts tr).

(** *** execute_workflow *)

(** [value.endswith(suffix)] *)
Definition endswith (value suffix : string) : bool :=
  bool_decide (String.length suffix ≤ String.length value)%nat
  && String.eqb (String.substring (String.length value - String.length suffix)
                                  (String.length suffix) value) suffix.

(** The replacement of one argument value: a string of the shape
    [${name}] is replaced by [parameters[name]] when [name] is a key;
    everything else stays. *)
Definition substitute (runtime : gmap string pyval) (value : pyval) : pyval :=
  match value with
  | PyStr v =>
      if String.prefix "${" v && endswith v "}" then
        match runtime !! String.substring 2 (String.length v - 3) v with
        | Some replacement => replacement
        | None => value
        end
      else value
  | _ => value
  end.

Definition _apply_runtime_parameters (sts : list WorkflowStep)
    (runtime : gmap string pyval) : list WorkflowStep :=
  (λ step, mk_step (step_id step) (name step) (tool_name step)
                   (substitute runtime <$> parameters step)
                   (depends_on step) (max_retries step)) <$> sts.

(** The [if]/[elif]/[else] under "Determine final status". *)
Definition final_status (sts : list WorkflowStep) (e : WorkflowExecution)
    : WorkflowStatus.t :=
  if forallb (λ step, bool_decide (step_id step ∈ completed_steps e)) sts
  then WorkflowStatus.COMPLETED
  else if bool_decide (failed_steps e ≠ [])
  then WorkflowStatus.PARTIALLY_COMPLETED
  else WorkflowStatus.FAILED.

(** What the caller of [execute_workflow] sees after [fuel]
    iterations of the scheduling loop. *)
Inductive outcome :=
  | StillRunning
  | Returned (e : WorkflowExecution)
  | Raised (err : exn).

Definition new_execution (eid wid : string) : WorkflowExecution :=
  {| execution_id := eid; workflow_id := wid;
     ex_status := WorkflowStatus.PENDING; current_step := None;
     completed_steps := []; failed_steps := [];
     results := ∅; errors := ∅ |}.

(** [self.active_workflows[execution_id]] is the object that the
    method goes on mutating: the registry is shown with the state
    that object has reached. *)
Definition registered (wm : t) (e : WorkflowExecution) : t :=
  {| active_workflows := <[execution_id e := e]> (active_workflows wm);
     workflow_definitions := workflow_definitions wm |}.

Definition execute_workflow (fuel : nat) (wm : t) (wid : string)
    (eid : option string) (params : option (gmap string pyval))
    : outcome * t * list event :=
  match workflow_definitions wm !! wid with
  | None => (Raised (WorkflowError ("Workflow not found: " +:+ wid)), wm, [])
  | Some workflow_def =>
      let eid :=
        match eid with
        | Some s => if bool_decide (s = "") then uuid4 env else s
        | None => uuid4 env
        end in
      let e := set_status WorkflowStatus.IN_PROGRESS (new_execution eid wid) in
      let sts := _apply_runtime_parameters (steps workflow_def) (default ∅ params) in
      let '(p, st) :=
        if parallel_execution workflow_def
        then _execute_parallel_workflow fuel e sts []
        else _execute_sequential_workflow fuel e sts [] in
      match p with
      | Running => (StillRunning, registered wm (execution st), trace st)
      | Finished (Ok _) =>
          let e := set_status (final_status sts (execution st)) (execution st) in
          (Returned e, registered wm e, trace st)
      | Finished (Raise (AsyncioTimeoutError _)) =>
          let e := set_status WorkflowStatus.FAILED (execution st) in
          (Raised (WorkflowTimeoutError ("Workflow " +:+ wid +:+ " timed out")),
           registered wm e, trace st)
      | Finished (Raise err) =>
          let e := set_status WorkflowStatus.FAILED (execution st) in
          (Raised (WorkflowError ("Workflow execution failed: " +:+ str err)),
           registered wm e, trace st)
      end
  end.

End engine.
End WorkflowManager.

Import WorkflowManager.

(** * Vocabulary of the properties and sample inputs *)

(** The events that one always-failing step is expected to produce from
    attempt [from] on, when [n] attempts are left: every attempt is a
    call, and every attempt but the last is followed by a sleep of
    [2 ^ attempt] seconds. *)
Fixpoint backoff_events (sid tool : string) (from n : nat) : list event :=
  match n with
  | O => []
  | S n' =>
      Call sid tool from ::
      match n' with
      | O => []
      | S _ => Sleep (2 ^ Z.of_nat from) :: backoff_events sid tool (S from) n'
      end
  end.

(** The number of remote calls made for step [sid]. *)
Definition is_call_of (sid : string) (ev : event) : bool :=
  match ev with
  | Call s _ _ => bool_decide (s = sid)
  | _ => false
  end.

Definition calls_of (sid : string) (tr : list event) : nat :=
  length (List.filter (is_call_of sid) tr).

(** The arguments of [asyncio.sleep], in order. *)
Definition sleeps_of (tr : list event) : list Z :=
  tr ≫= λ ev, match ev with Sleep s => [s] | _ => [] end.

Definition ok_response : MCPResponse :=
  {| success := true; data := Some "{}"; resp_error := None;
     resp_tool_name := None; resp_status := MCPRequestStatus.SUCCESS;
     resp_retry_count := 0 |}.

(** An invoker mock: calls of the tools in [failing] raise, all others
    succeed. *)
Definition mock_invoke (failing : list string)
    : string → nat → string → gmap string pyval → result MCPResponse :=
  λ _ _ tool _,
    if bool_decide (tool ∈ failing) then Raise (MCPToolError "unavailable")
    else Ok ok_response.

(** An environment around a mock: sets iterate in the order of
    [elements], tasks finish in the order in which they are listed, and
    nobody cancels. *)
Definition mock_env (failing : list string) : Env :=
  {| set_iter := elements; invoke := mock_invoke failing;
     cancel_during := λ _ _, false; schedule := λ _ ids, ids;
     uuid4 := "00000000-0000-4000-8000-000000000000" |}.

Definition step_data (sid tool : string) (deps : list string) (retries : Z)
    : StepData :=
  {| sd_step_id := sid; sd_name := sid; sd_tool_name := tool;
     sd_parameters := None; sd_depends_on := Some deps;
     sd_max_retries := Some retries |}.

(** A server that answers every request with 401. *)
Definition unauthorized : nat → result MCPClient.HttpResponse :=
  λ _, Ok {| MCPClient.status_code := 401; MCPClient.rpc_error := None;
             MCPClient.rpc_result := None; MCPClient.error_entry := None |}.

(** The manager after [create_workflow("w", "w", "w", steps, timeout,
    parallel)] on a fresh manager, under the default recursion limit. *)
Definition manager_with (sts : list StepData) (timeout : Z) (par : bool) : t :=
  match create_workflow 1000 new "w" "w" "w" sts timeout par with
  | (Ok _, wm) => wm
  | _ => new
  end.

(** Step [a] calls a tool that is down; step [b] needs [a]. *)
Definition blocked_pair : list StepData :=
  [ step_data "a" "tool_a" [] 0; step_data "b" "tool_b" ["a"] 0 ].

(** A tool that fails six times and then answers. *)
Definition flaky_env : Env :=
  {| set_iter := elements;
     invoke := λ _ attempt _ _,
       if bool_decide (attempt < 6)%nat then Raise (MCPTimeoutError "slow")
       else Ok ok_response;
     cancel_during := λ _ _, false; schedule := λ _ ids, ids;
     uuid4 := "00000000-0000-4000-8000-000000000000" |}.

(** The execution stored under [eid], when there is one. *)
Definition stored (wm : t) (eid : string) : option WorkflowExecution :=
  active_workflows wm !! eid.

(** The step ids of a definition, in definition order. *)
Definition ids_of (sts : list WorkflowStep) : list string := step_id <$> sts.

(** One step whose tool is down. *)
Definition lone_failure : list StepData := [ step_data "a" "tool_a" [] 0 ].

(** One step that is retried up to six times. *)
Definition patient_step : list StepData := [ step_data "a" "tool_a" [] 6 ].

(** Step [b] needs step [a]; both tools work. *)
Definition chain_of_two : list StepData :=
  [ step_data "a" "tool_a" [] 0; step_data "b" "tool_b" ["a"] 0 ].

(** While the call made for step [a] is awaited, another coroutine
    calls [cancel_workflow] on the running execution. *)
Definition cancelling_env : Env :=
  {| set_iter := elements; invoke := mock_invoke [];
     cancel_during := λ sid _, bool_decide (sid = "a");
     schedule := λ _ ids, ids;
     uuid4 := "00000000-0000-4000-8000-000000000000" |}.

(** The same surroundings with nobody cancelling. *)
Definition without_cancel (env : Env) : Env :=
  {| set_iter := set_iter env; invoke := invoke env;
     cancel_during := λ _ _, false; schedule := schedule env;
     uuid4 := uuid4 env |}.

(** An execution and a loop state with the status field blanked: what
    is left is everything the status can be compared on. *)
Definition erase (e : WorkflowExecution) : WorkflowExecution :=
  set_status WorkflowStatus.PENDING e.

Definition erase_state (st : loop_state) : loop_state :=
  {| execution := erase (execution st); step_map := step_map st;
     remaining_steps := remaining_steps st;
     running_tasks := running_tasks st; waits := waits st;
     trace := trace st |}.

(** Two steps without dependencies, [first] before [second] in the
    definition. *)
Definition independent_pair : list StepData :=
  [ step_data "first" "tool_a" [] 0; step_data "second" "tool_b" [] 0 ].

(** The surroundings of [mock_env []] with every set iterated the other
    way round. *)
Definition reversed_env : Env :=
  {| set_iter := λ s, reverse (elements s); invoke := mock_invoke [];
     cancel_during := λ _ _, false; schedule := λ _ ids, ids;
     uuid4 := "00000000-0000-4000-8000-000000000000" |}.

(** What the sequential loop does once it has chosen [step]. *)
Definition run_chosen (env : Env) (step : WorkflowStep) (st : loop_state)
    : result unit * loop_state :=
  let '(r, e, step', tr) := _execute_step env (execution st) step (trace st) in
  let st' := after_step e step' tr st in
  match r with
  | Raise err => (Raise err, st')
  | Ok _ => remove_remaining (step_id step) st'
  end.

(** [b] names [a] among its dependencies, in the dictionary [smap]. *)
Definition map_edge (smap : gmap string WorkflowStep) (b a : string) : Prop :=
  ∃ s, smap !! b = Some s ∧ a ∈ depends_on s.

(** What the traversal maintains about the ids that are visited and no
    longer on the path: their dependencies are such ids too, and none
    of them lies on a cycle. *)
Record dfs_inv (smap : gmap string WorkflowStep) (visited path : gset string)
    : Prop := {
  inv_closed : ∀ x y, x ∈ visited → x ∉ path → map_edge smap x y →
                      y ∈ visited ∧ y ∉ path;
  inv_acyclic : ∀ x, x ∈ visited → x ∉ path → ¬ tc (map_edge smap) x x
}.

(** What a call on [sid] promises. *)
Definition dfs_post (smap : gmap string WorkflowStep) (sid : string)
    (visited path : gset string) (r : bool * gset string * gset string) : Prop :=
  let '(found, visited', path') := r in
  if found then ∃ x, tc (map_edge smap) x x
  else path' = path ∧ visited ⊆ visited' ∧ dfs_inv smap visited' path
       ∧ sid ∈ visited' ∧ sid ∉ path.

(** [b] names [a] among its dependencies, in the definition [sts]. *)
Definition depends (sts : list WorkflowStep) (b a : string) : Prop :=
  ∃ s, s ∈ sts ∧ step_id s = b ∧ a ∈ depends_on s.

Definition has_duplicate_ids (sts : list WorkflowStep) : Prop :=
  ¬ NoDup (ids_of sts).

Definition has_dangling_dependency (sts : list WorkflowStep) : Prop :=
  ∃ s dep, s ∈ sts ∧ dep ∈ depends_on s ∧ dep ∉ ids_of sts.

Definition has_cycle (sts : list WorkflowStep) : Prop :=
  ∃ sid, tc (depends sts) sid sid.

(** Python's guarantee about [for x in s]: every element once. *)
Definition faithful_set_order (env : Env) : Prop :=
  ∀ s : gset string, set_iter env s ≡ₚ elements s.

(** What holds of the execution record and the events at every moment
    of a run; [deps sid] is the dependency list of step [sid]. *)
Record safe (deps : string → option (list string)) (e : WorkflowExecution)
    (tr : list event) : Prop := {
  safe_ready : ∀ sid ds d,
    Started sid ∈ tr → deps sid = Some ds → d ∈ ds → d ∈ completed_steps e;
  safe_call : ∀ sid tool attempt,
    Call sid tool attempt ∈ tr → Started sid ∈ tr;
  safe_completed : ∀ sid, sid ∈ completed_steps e → Started sid ∈ tr;
  safe_disjoint : ∀ sid, sid ∈ completed_steps e → sid ∉ failed_steps e;
  safe_errors : ∀ sid, is_Some (errors e !! sid) → Started sid ∈ tr
}.

(** What holds in addition whenever a loop is about to test its
    condition. *)
Record loop_inv (deps : string → option (list string)) (st : loop_state)
    : Prop := {
  li_safe : safe deps (execution st) (trace st);
  li_shape : ∀ k, depends_on <$> step_map st !! k = deps k;
  li_ids : ∀ k s, step_map st !! k = Some s → step_id s = k;
  li_remaining : ∀ sid, sid ∈ remaining_steps st →
    (sid ∉ completed_steps (execution st))
    ∧ (sid ∉ failed_steps (execution st))
    ∧ running_tasks st !! sid = None;
  li_running : ∀ sid step, running_tasks st !! sid = Some (Pending step) →
    step_id step = sid ∧ deps sid = Some (depends_on step)
    ∧ Started sid ∈ trace st
    ∧ (sid ∉ completed_steps (execution st))
    ∧ (sid ∉ failed_steps (execution st))
}.

(** What the retry loop of one step can do to the execution record. *)
Definition step_effect (sid : string) (e e' : WorkflowExecution) : Prop :=
  (completed_steps e' = completed_steps e ++ [sid]
   ∧ failed_steps e' = failed_steps e ∧ errors e' = errors e)
  ∨ (completed_steps e' = completed_steps e
     ∧ failed_steps e' = failed_steps e ++ [sid]
     ∧ ∃ msg, errors e' = <[sid := msg]> (errors e))
  ∨ (completed_steps e' = completed_steps e
     ∧ failed_steps e' = failed_steps e ∧ errors e' = errors e).

(** The events of a retry loop: calls for its step, and sleeps. *)
Definition retry_event (sid : string) (ev : event) : Prop :=
  match ev with
  | Call s _ _ => s = sid
  | Sleep _ => True
  | Started _ => False
  end.

(** The id under which [execute_workflow] registers the execution. *)
Definition execution_id_of (env : Env) (eid : option string) : string :=
  match eid with
  | Some s => if bool_decide (s = "") then uuid4 env else s
  | None => uuid4 env
  end.

(** The dependency lists of a definition, through its dictionary. *)
Definition deps_of (sts : list WorkflowStep) (sid : string)
    : option (list string) :=
  depends_on <$> step_map_of sts !! sid.

(** The exception classes that the scheduling loops can let escape. *)
Definition loop_error (err : exn) : Prop :=
  match err with
  | KeyError _ | WorkflowError _ | WorkflowStepError _ => True
  | _ => False
  end.

(** A server that answers every request with 404 and an empty JSON
    object. *)
Definition not_found : nat → result MCPClient.HttpResponse :=
  λ _, Ok {| MCPClient.status_code := 404; MCPClient.rpc_error := None;
             MCPClient.rpc_result := None; MCPClient.error_entry := None |}.

(** Surroundings in which the tool invoker is [MCPClient.call_tool] on
    an entered client, with its default of three retries, talking to
    that server. *)
Definition refusing_env : Env :=
  {| set_iter := elements;
     invoke := λ _ _ tool _,
       (MCPClient.call_tool not_found (MCPClient.aenter (MCPClient.new 3))
                            tool None).1;
     cancel_during := λ _ _, false; schedule := λ _ ids, ids;
     uuid4 := "00000000-0000-4000-8000-000000000000" |}.

(** Two execution records that agree on what the scheduling loops read
    of them. *)
Definition same_books (e e' : WorkflowExecution) : Prop :=
  completed_steps e = completed_steps e' ∧ failed_steps e = failed_steps e'.

(** Two states of the sequential loop that agree on everything but the
    fields of the execution that the loop only writes. *)
Definition same_progress (st st' : loop_state) : Prop :=
  same_books (execution st) (execution st')
  ∧ step_map st = step_map st' ∧ remaining_steps st = remaining_steps st'
  ∧ trace st = trace st'.

(** A chain of [n] steps [s0], [s1], ..., each needing the next. *)
Definition long_chain (n : nat) : list StepData :=
  (λ i : nat,
     step_data ("s" +:+ pretty i) "tool"
               (if bool_decide (S i < n)%nat then ["s" +:+ pretty (S i)] else [])
               0) <$> seq 0 n.

(** The cycle in which [a] needs [c], [c] needs [b] and [b] needs [a]. *)
Definition cycle_of_three : list StepData :=
  [ step_data "a" "a" ["c"] 0; step_data "b" "b" ["a"] 0;
    step_data "c" "c" ["b"] 0 ].

(** ** Vocabulary of the request loop of [call_tool] *)

(** [retry_count or self.retry_count], the budget a call works with. *)
Definition budget (c : MCPClient.t) (retries : option Z) : Z :=
  match retries with
  | Some r => if bool_decide (r = 0) then MCPClient.retry_count c else r
  | None => MCPClient.retry_count c
  end.

(** A reply that ends the call with a response: status 200, or a 4xx
    status other than 401 and 429 (anything below 500, in fact). *)
Definition settles (h : MCPClient.HttpResponse) : bool :=
  bool_decide (MCPClient.status_code h = 200)
  || (negb (bool_decide (MCPClient.status_code h = 401))
      && negb (bool_decide (MCPClient.status_code h = 429))
      && negb (bool_decide (500 ≤ MCPClient.status_code h))).

(** An outcome of a request after which the call goes on if it has budget
    left: any exception, and the statuses 401, 429 and 5xx. *)
Definition retried (o : result MCPClient.HttpResponse) : bool :=
  match o with
  | Ok h => negb (settles h)
  | Raise _ => true
  end.

(** Componentwise order on the counters. *)
Definition metrics_le (m m' : MCPRequestMetrics) : Prop :=
  total_requests m ≤ total_requests m'
  ∧ successful_requests m ≤ successful_requests m'
  ∧ failed_requests m ≤ failed_requests m'
  ∧ timeout_requests m ≤ timeout_requests m'
  ∧ retry_requests m = retry_requests m'
  ∧ rate_limit_hits m ≤ rate_limit_hits m'.

(** The classes [call_tool] lets out. *)
Definition call_tool_raises (e : exn) : bool :=
  match e with
  | MCPError _ | MCPTimeoutError _ | MCPToolError _ => true
  | _ => false
  end.

(** What the response built from a settling reply looks like. *)
Definition answers (tool : string) (k : nat) (h : MCPClient.HttpResponse)
    (r : MCPResponse) : Prop :=
  resp_tool_name r = Some tool
  ∧ resp_retry_count r = Z.of_nat k
  ∧ (if bool_decide (MCPClient.status_code h = 200 ∧ MCPClient.rpc_error h = None)
     then success r = true ∧ data r = MCPClient.rpc_result h
          ∧ resp_error r = None ∧ resp_status r = MCPRequestStatus.SUCCESS
     else success r = false ∧ data r = None
          ∧ is_Some (resp_error r) ∧ resp_status r = MCPRequestStatus.FAILED).



(** ** Vocabulary of the book-keeping of a run *)

(** The ids of the steps that were started, in the order of their start. *)
Definition started (tr : list event) : list string :=
  tr ≫= λ ev, match ev with Started s => [s] | _ => [] end.

(** What the retry loop of step [sid] does to the execution record when
    it makes at least one attempt: the step ends in [completed_steps]
    with an entry in [results] after a call, or in [failed_steps] with
    an entry in [errors] and a [WorkflowStepError]. *)
Definition step_outcome (sid : string) (r : result unit)
    (e e' : WorkflowExecution) (more : list event) : Prop :=
  (r = Ok tt
   ∧ (∃ d, results e' = <[sid := d]> (results e))
   ∧ completed_steps e' = completed_steps e ++ [sid]
   ∧ failed_steps e' = failed_steps e ∧ errors e' = errors e
   ∧ ∃ tool attempt, Call sid tool attempt ∈ more)
  ∨ (∃ msg,
       r = Raise (WorkflowStepError ("Step " +:+ sid +:+ " failed: " +:+ msg))
       ∧ errors e' = <[sid := msg]> (errors e)
       ∧ completed_steps e' = completed_steps e ∧ results e' = results e
       ∧ failed_steps e' = failed_steps e ++ [sid]).

(** Before a step starts, the tool of each of its dependencies has been
    called. *)
Definition dependencies_first (deps : string → option (list string))
    (tr : list event) : Prop :=
  ∀ tr1 tr2 sid ds d,
    tr = tr1 ++ Started sid :: tr2 → deps sid = Some ds → d ∈ ds →
    ∃ tool attempt, Call d tool attempt ∈ tr1.

(** The book-keeping of an execution: what the two lists, the two
    dictionaries and the events have to do with each other and with the
    step ids [ids] of the definition. *)
Record audit (ids : gset string) (deps : string → option (list string))
    (e : WorkflowExecution) (tr : list event) : Prop := {
  au_completed : NoDup (completed_steps e);
  au_failed : NoDup (failed_steps e);
  au_completed_ids : ∀ sid, sid ∈ completed_steps e → sid ∈ ids;
  au_failed_ids : ∀ sid, sid ∈ failed_steps e → sid ∈ ids;
  au_results : dom (results e) = (list_to_set (completed_steps e) : gset string);
  au_errors : dom (errors e) ⊆ (list_to_set (failed_steps e) : gset string);
  au_started : NoDup (started tr);
  au_started_ids : ∀ sid, Started sid ∈ tr → sid ∈ ids;
  au_called : ∀ sid, sid ∈ completed_steps e →
    ∃ tool attempt, Call sid tool attempt ∈ tr;
  au_order : dependencies_first deps tr
}.

(** The same at the head of a scheduling loop, where the steps still
    waiting have not been started. *)
Record audit_inv (ids : gset string) (deps : string → option (list string))
    (st : loop_state) : Prop := {
  ai_loop : loop_inv deps st;
  ai_audit : audit ids deps (execution st) (trace st);
  ai_remaining : remaining_steps st ⊆ ids;
  ai_fresh : ∀ sid, sid ∈ remaining_steps st → Started sid ∉ trace st
}.

(** What holds at the head of the sequential loop as long as no step has
    failed, for the steps [sts] that are run: every step is waiting or
    completed, and the dictionary still holds a step with retries to
    make under every id. *)
Record seq_inv (sts : list WorkflowStep) (st : loop_state) : Prop := {
  sq_audit : audit_inv (step_ids_of sts) (deps_of sts) st;
  sq_failed : failed_steps (execution st) = [];
  sq_retries : ∀ k s, step_map st !! k = Some s → 0 ≤ max_retries s;
  sq_dom : ∀ k, k ∈ step_ids_of sts → is_Some (step_map st !! k);
  sq_all : ∀ k, k ∈ step_ids_of sts →
    k ∈ remaining_steps st ∨ k ∈ completed_steps (execution st)
}.

(** A definition that [create_workflow] accepts and whose steps all make
    at least one attempt, seen through its dictionary. *)
Record runnable (sts : list WorkflowStep) : Prop := {
  run_ids : NoDup (ids_of sts);
  run_deps : ∀ k s d, step_map_of sts !! k = Some s → d ∈ depends_on s →
    d ∈ step_ids_of sts;
  run_acyclic : ∀ x, ¬ tc (map_edge (step_map_of sts)) x x;
  run_retries : ∀ k s, step_map_of sts !! k = Some s → 0 ≤ max_retries s
}.

(** The tool invoker answers every call. *)
Definition always_answers (env : Env) : Prop :=
  ∀ sid attempt tool params, ∃ resp, invoke env sid attempt tool params = Ok resp.

(** * Properties *)

(** ** The remote tool invoker *)

(** A 401 reply raises [MCPAuthError] inside the [try] block, where the
    [except Exception] clause catches it: with budget left the client
    sleeps and sends the request again. *)
Lemma unauthorized_is_retried server tool ra n k last c r :
  server k = Ok r →
  MCPClient.status_code r = 401 →
  Z.of_nat k < ra →
  MCPClient.attempts server tool ra (S n) k last c =
  MCPClient.attempts server tool ra n (S k)
    (Some (MCPAuthError
             ("Authentication failed: Invalid GitHub OAuth token for tool "
              +:+ tool)))
    (MCPClient.sleep (Z.min (2 ^ Z.of_nat k) 30)
       (MCPClient.with_metrics MCPClient.incr_failed (MCPClient.sent c))).
Proof.
  intros Hk H401 Hlt. simpl. unfold MCPClient.attempt_body. rewrite Hk.
  unfold MCPClient.on_response. rewrite H401. simpl.
  unfold MCPClient.on_exception.
  rewrite (bool_decide_eq_true_2 _ Hlt). reflexivity.
Qed.

(** C10 (defect): with the default budget of three retries and a server
    that answers 401 every time, [call_tool] sends four requests,
    sleeping 1, 2 and 4 seconds in between, and what it finally raises
    is [MCPToolError], not [MCPAuthError]. *)
Theorem call_tool_unauthorized_retried :
  let '(r, c) :=
    MCPClient.call_tool unauthorized (MCPClient.aenter (MCPClient.new 3))
                        "send_email" None in
  r = Raise (MCPToolError
               "Unexpected error calling send_email: Authentication failed: Invalid GitHub OAuth token for tool send_email")
  ∧ MCPClient.posts c = 4%nat
  ∧ MCPClient.sleeps c = [1; 2; 4].
Proof. vm_compute. auto. Qed.

(** ** One step and its retries *)

Section one_step.
Variable env : Env.

Lemma attempts_all_fail n : ∀ attempt e step tr,
  (0 < n)%nat →
  Z.of_nat attempt + Z.of_nat n = max_retries step + 1 →
  (∀ k, ∃ err, invoke env (step_id step) k (tool_name step) (parameters step)
               = Raise err) →
  ∃ msg e' step',
    attempts env n attempt e step tr =
      (Raise (WorkflowStepError msg), e', step',
       tr ++ backoff_events (step_id step) (tool_name step) attempt n)
    ∧ status step' = ToolExecutionStatus.FAILED
    ∧ failed_steps e' = failed_steps e ++ [step_id step]
    ∧ completed_steps e' = completed_steps e
    ∧ is_Some (errors e' !! step_id step).
Proof.
  induction n as [|n IH]; intros attempt e step tr Hn Hsum Hfail; [lia|].
  destruct (Hfail attempt) as [err Herr].
  assert (Hcall : ∃ err', _call_mcp_tool env (step_id step) attempt
                            (tool_name step) (parameters step) = Raise err').
  { unfold _call_mcp_tool. rewrite Herr. destruct (is_MCPError err); eauto. }
  destruct Hcall as [err' Hcall].
  cbn [attempts]. rewrite Hcall. cbn [max_retries step_errored].
  destruct n as [|n].
  - rewrite bool_decide_eq_false_2 by lia.
    eexists _, _, _. split; [reflexivity|].
    destruct (cancel_during env (step_id step) attempt); cbn;
      rewrite lookup_insert_eq; eauto.
  - rewrite bool_decide_eq_true_2 by lia.
    set (e1 := if cancel_during env (step_id step) attempt
               then cancel_execution e else e).
    set (step1 := step_errored (Z.of_nat attempt) (str err') step).
    destruct (IH (S attempt) e1 step1
                 ((tr ++ [Call (step_id step) (tool_name step) attempt])
                  ++ [Sleep (2 ^ Z.of_nat attempt)]))
      as (msg & e' & step' & Heq & Hst & Hf & Hc & He);
      [lia | cbn; lia | exact Hfail |].
    exists msg, e', step'. split.
    + rewrite Heq. cbn [backoff_events step_id tool_name step1 step_errored].
      rewrite <- !app_assoc. reflexivity.
    + subst e1. destruct (cancel_during env (step_id step) attempt); auto.
Qed.
End one_step.

Lemma calls_of_backoff_events sid tool n : ∀ from,
  calls_of sid (backoff_events sid tool from n) = n.
Proof.
  unfold calls_of. induction n as [|n IH]; intros from; [reflexivity|].
  cbn [backoff_events List.filter is_call_of].
  rewrite bool_decide_eq_true_2 by reflexivity. cbn [length]. f_equal.
  destruct n as [|n]; [reflexivity|].
  cbn [List.filter is_call_of]. apply IH.
Qed.

Lemma sleeps_of_backoff_events sid tool n : ∀ from,
  sleeps_of (backoff_events sid tool from (S n)) =
  (λ k, 2 ^ Z.of_nat k) <$> seq from n.
Proof.
  unfold sleeps_of. induction n as [|n IH]; intros from; [reflexivity|].
  change (backoff_events sid tool from (S (S n)))
    with (Call sid tool from :: Sleep (2 ^ Z.of_nat from)
            :: backoff_events sid tool (S from) (S n)).
  cbn [mbind list_bind app seq fmap list_fmap]. f_equal. apply IH.
Qed.

(** A step whose every call raises makes exactly [max_retries + 1]
    calls, sleeps [2 ^ attempt] seconds after each attempt but the
    last, and only then is marked failed and entered in
    [failed_steps]. *)
Lemma execute_step_retry_budget (env : Env) (e : WorkflowExecution)
    (step : WorkflowStep) (tr : list event) :
  0 ≤ max_retries step →
  (∀ k, ∃ err, invoke env (step_id step) k (tool_name step) (parameters step)
               = Raise err) →
  ∃ msg e' step' tr',
    _execute_step env e step tr =
      (Raise (WorkflowStepError msg), e', step',
       tr ++ Started (step_id step) :: tr')
    ∧ tr' = backoff_events (step_id step) (tool_name step) 0
                           (Z.to_nat (max_retries step + 1))
    ∧ calls_of (step_id step) tr' = Z.to_nat (max_retries step + 1)
    ∧ sleeps_of tr' = (λ k, 2 ^ Z.of_nat k) <$> seq 0 (Z.to_nat (max_retries step))
    ∧ status step' = ToolExecutionStatus.FAILED
    ∧ failed_steps e' = failed_steps e ++ [step_id step]
    ∧ completed_steps e' = completed_steps e.
Proof.
  intros Hm Hfail. unfold _execute_step, enter_step, run_attempts.
  destruct (attempts_all_fail env (Z.to_nat (max_retries step + 1)) 0
              (set_current_step (step_id step) e) (step_running step)
              (tr ++ [Started (step_id step)]))
    as (msg & e' & step' & Heq & Hst & Hf & Hc & _).
  - lia.
  - cbn. lia.
  - exact Hfail.
  - cbn [max_retries step_running step_id tool_name] in *.
    exists msg, e', step', (backoff_events (step_id step) (tool_name step) 0
                              (Z.to_nat (max_retries step + 1))).
    split; [rewrite Heq, <- app_assoc; reflexivity|].
    split; [reflexivity|].
    split; [apply calls_of_backoff_events|].
    split.
    { replace (Z.to_nat (max_retries step + 1))
        with (S (Z.to_nat (max_retries step))) by lia.
      apply sleeps_of_backoff_events. }
    auto.
Qed.

(** The budget of the source's own example: [max_retries = 2] gives
    three calls with sleeps of 1 and 2 seconds when the calls raise. *)
Lemma raising_tool_uses_the_budget :
  let env := mock_env ["send_email"] in
  let step := mk_step "email_report" "Email Report" "send_email" ∅ [] 2 in
  ∃ msg e' step' tr',
    _execute_step env (new_execution "run" "w") step [] =
      (Raise (WorkflowStepError msg), e', step',
       [] ++ Started "email_report" :: tr')
    ∧ tr' = [Call "email_report" "send_email" 0; Sleep 1;
             Call "email_report" "send_email" 1; Sleep 2;
             Call "email_report" "send_email" 2]
    ∧ calls_of "email_report" tr' = 3%nat
    ∧ sleeps_of tr' = [1; 2]
    ∧ status step' = ToolExecutionStatus.FAILED
    ∧ failed_steps e' = ["email_report"]
    ∧ completed_steps e' = [].
Proof.
  intros env step.
  apply (execute_step_retry_budget env (new_execution "run" "w") step []).
  - simpl. lia.
  - intros k. eexists. reflexivity.
Qed.

(** C8 (defect): the server answers 404 to every request, so every
    call of the tool fails, and [call_tool] says so in a response with
    [success = False].  [_execute_step] does not look at the flag: the
    step with [max_retries = 2] makes one call instead of three, does
    not sleep, and is marked completed, not failed, and the run
    returns with status completed. *)
Theorem failed_response_is_not_retried :
  let step := mk_step "a" "a" "tool_a" ∅ [] 2 in
  let wm := manager_with [step_data "a" "tool_a" [] 2] 30 false in
  (∀ attempt,
     invoke refusing_env "a" attempt "tool_a" ∅
     = Ok (MCPClient.failure "tool_a" "Client error: 404" 0))
  ∧ success (MCPClient.failure "tool_a" "Client error: 404" 0) = false
  ∧ (∃ e step',
       _execute_step refusing_env (new_execution "run" "w") step []
       = (Ok tt, e, step', [Started "a"; Call "a" "tool_a" 0])
       ∧ calls_of "a" [Started "a"; Call "a" "tool_a" 0] = 1%nat
       ∧ sleeps_of [Started "a"; Call "a" "tool_a" 0] = []
       ∧ status step' = ToolExecutionStatus.COMPLETED
       ∧ completed_steps e = ["a"]
       ∧ failed_steps e = [])
  ∧ (∃ def e wm' tr,
       workflow_definitions wm !! "w" = Some def
       ∧ max_retries <$> steps def = [2]
       ∧ execute_workflow refusing_env 1 wm "w" (Some "run") None
         = (Returned e, wm', tr)
       ∧ calls_of "a" tr = 1%nat
       ∧ ex_status e = WorkflowStatus.COMPLETED
       ∧ failed_steps e = []).
Proof.
  intros step wm.
  split; [intros attempt; vm_compute; reflexivity|].
  split; [reflexivity|].
  split.
  - eexists _, _. split; [vm_compute; reflexivity|].
    split; [reflexivity|]. split; [reflexivity|].
    split; [reflexivity|]. split; reflexivity.
  - eexists _, _, _, _. split; [vm_compute; reflexivity|].
    split; [reflexivity|]. split; [vm_compute; reflexivity|].
    split; [reflexivity|]. split; reflexivity.
Qed.

(** ** Step failures in sequential mode *)

Section sequential_failures.
Variable env : Env.

Lemma attempts_ok_failed_steps n : ∀ attempt e step tr e' step' tr',
  attempts env n attempt e step tr = (Ok tt, e', step', tr') →
  failed_steps e' = failed_steps e.
Proof.
  induction n as [|n IH]; intros attempt e step tr e' step' tr' H.
  - cbn in H. by simplify_eq.
  - cbn [attempts] in H.
    destruct (_call_mcp_tool env _ _ _ _) as [r|err].
    + simplify_eq. by destruct (cancel_during env _ _).
    + case_bool_decide; [|discriminate].
      apply IH in H. rewrite H. by destruct (cancel_during env _ _).
Qed.

Lemma failed_deps_none e smap ids fd :
  failed_steps e = [] → failed_deps e smap ids = Ok fd → fd = ∅.
Proof.
  intros He. revert fd. induction ids as [|sid ids IH]; intros fd H.
  - cbn in H. by simplify_eq.
  - cbn [failed_deps] in H. destruct (smap !! sid); [|discriminate].
    destruct (failed_deps e smap ids) as [fd'|]; [|discriminate].
    rewrite (IH fd' eq_refl) in H. rewrite He in H.
    replace (existsb _ _) with false in H; [by simplify_eq|].
    symmetry. apply not_true_is_false. intros Hex.
    apply existsb_exists in Hex as (x & _ & Hx).
    apply bool_decide_eq_true_1 in Hx. by apply elem_of_nil in Hx.
Qed.

(** An iteration of the sequential loop that does not raise leaves
    [failed_steps] empty if it was. *)
Lemma seq_body_no_failed st st' :
  failed_steps (execution st) = [] →
  seq_body env st = (Ok tt, st') →
  failed_steps (execution st') = [].
Proof.
  intros He H. unfold seq_body in H.
  destruct (ready_steps _ _ _) as [[|step l]|]; [| |discriminate].
  - destruct (failed_deps _ _ _) as [fd|] eqn:Hfd; [|discriminate].
    rewrite (failed_deps_none _ _ _ _ He Hfd) in H.
    rewrite bool_decide_eq_true_2 in H by reflexivity. discriminate.
  - unfold _execute_step, enter_step, run_attempts in H.
    destruct (attempts env _ _ _ _ _) as [[[r e1] step1] tr1] eqn:Hat.
    destruct r as [[]|]; [|discriminate].
    apply attempts_ok_failed_steps in Hat. cbn in Hat.
    unfold remove_remaining in H. case_bool_decide; [|discriminate].
    simplify_eq. cbn. congruence.
Qed.

Lemma sequential_loop_no_failed fuel : ∀ st st',
  failed_steps (execution st) = [] →
  sequential_loop env fuel st = (Finished (Ok tt), st') →
  failed_steps (execution st') = [].
Proof.
  induction fuel as [|fuel IH]; intros st st' He H; cbn [sequential_loop] in H.
  - case_bool_decide; by simplify_eq.
  - case_bool_decide; [by simplify_eq|].
    destruct (seq_body env st) as [[[]|err] st1] eqn:Hb; [|discriminate].
    eapply IH; [|exact H]. eapply seq_body_no_failed; eauto.
Qed.

(** In sequential mode a run that returns to the caller has no failed
    step at all: every step failure leaves [execute_workflow] as an
    exception. *)
Lemma sequential_return_has_no_failure fuel wm wid eid params def e wm' tr :
  workflow_definitions wm !! wid = Some def →
  parallel_execution def = false →
  execute_workflow env fuel wm wid eid params = (Returned e, wm', tr) →
  failed_steps e = [].
Proof.
  intros Hdef Hpar H. unfold execute_workflow in H. rewrite Hdef, Hpar in H.
  unfold _execute_sequential_workflow in H.
  destruct (sequential_loop env fuel _) as [p st] eqn:Hloop.
  destruct p as [|[[]|err]]; [discriminate| |destruct err; discriminate].
  simplify_eq. cbn.
  eapply sequential_loop_no_failed; [|exact Hloop]. reflexivity.
Qed.
End sequential_failures.

(** C1 (defect): on the [quarterly_analysis] template with a failing
    [send_email] tool, [execute_workflow] raises [WorkflowError] to its
    caller and leaves the execution with status failed; the three first
    steps are completed and [email_report] is the one failed step. *)
Theorem quarterly_analysis_email_failure_raises :
  let '(o, wm, tr) :=
    execute_workflow (mock_env ["send_email"]) 4 new "quarterly_analysis"
                     (Some "run1") None in
  o = Raised (WorkflowError
                "Workflow execution failed: Step email_report failed: MCP tool send_email failed: unavailable")
  ∧ (ex_status <$> stored wm "run1") = Some WorkflowStatus.FAILED
  ∧ (completed_steps <$> stored wm "run1")
    = Some ["fetch_sales_data"; "analyze_trends"; "generate_report"]
  ∧ (failed_steps <$> stored wm "run1") = Some ["email_report"]
  ∧ (stored wm "run1" ≫= λ e, errors e !! "email_report")
    = Some "MCP tool send_email failed: unavailable"
  ∧ calls_of "email_report" tr = 4%nat.
Proof. vm_compute. repeat split. Qed.

(** ** Termination *)

(** A state of the parallel loop that an iteration maps to itself and
    in which steps remain is never left. *)
Lemma parallel_loop_spins env st :
  bool_decide (remaining_steps st = ∅) = false →
  par_body env st = (Ok tt, st) →
  ∀ fuel, parallel_loop env fuel st = (Running, st).
Proof.
  intros Hrem Hbody fuel. induction fuel as [|fuel IH]; cbn [parallel_loop];
    rewrite Hrem; cbn [andb]; [reflexivity|].
  rewrite Hbody. exact IH.
Qed.

(** After its first iteration on [blocked_pair] the parallel loop is in
    such a state: [a] has failed, [b] is still remaining, no task is
    running. *)
Lemma blocked_pair_spins :
  let env := mock_env ["tool_a"] in
  let wm := manager_with blocked_pair 30 true in
  ∃ def e st1,
    workflow_definitions wm !! "w" = Some def
    ∧ parallel_execution def = true
    ∧ e = set_status WorkflowStatus.IN_PROGRESS (new_execution "run" "w")
    ∧ par_body env (initial_state e (_apply_runtime_parameters (steps def) ∅) [])
      = (Ok tt, st1)
    ∧ bool_decide (remaining_steps st1 = ∅) = false
    ∧ execution_id (execution st1) = "run"
    ∧ failed_steps (execution st1) = ["a"]
    ∧ completed_steps (execution st1) = []
    ∧ par_body env st1 = (Ok tt, st1).
Proof.
  intros env wm. eexists _, _, _.
  split; [vm_compute; reflexivity|].
  split; [reflexivity|].
  split; [reflexivity|].
  split; [vm_compute; reflexivity|].
  split; [vm_compute; reflexivity|].
  split; [reflexivity|].
  split; [reflexivity|].
  split; [reflexivity|].
  vm_compute; reflexivity.
Qed.

(** C2 (defect): in parallel mode, on the validated acyclic definition
    [blocked_pair] whose first tool is down, [execute_workflow] is
    still running after any number of iterations of its loop: it never
    returns and never raises, and [b] never reaches either list. *)
Theorem parallel_blocked_pair_never_terminates : ∀ fuel,
  let '(o, wm, tr) :=
    execute_workflow (mock_env ["tool_a"]) fuel
                     (manager_with blocked_pair 30 true) "w" (Some "run") None in
  o = StillRunning
  ∧ (stored wm "run" ≫= λ e, Some (bool_decide ("b" ∈ completed_steps e ++ failed_steps e)))
    = Some false.
Proof.
  intros fuel.
  destruct blocked_pair_spins
    as (def & e & st1 & Hdef & Hpar & He & Hb1 & Hrem & Hid & Hf & Hc & Hb2).
  unfold execute_workflow. rewrite Hdef, Hpar.
  unfold _execute_parallel_workflow. cbn [default].
  replace (if bool_decide ("run" = "") then uuid4 (mock_env ["tool_a"]) else "run")
    with "run" by reflexivity.
  rewrite <- He.
  destruct fuel as [|fuel].
  - cbn [parallel_loop].
    replace (bool_decide (remaining_steps (initial_state e (_apply_runtime_parameters (steps def) ∅) []) = ∅))
      with false.
    2:{ subst e. injection Hdef as <-. vm_compute. reflexivity. }
    cbn [andb]. split; [reflexivity|].
    subst e. vm_compute. reflexivity.
  - cbn [parallel_loop].
    replace (bool_decide (remaining_steps (initial_state e (_apply_runtime_parameters (steps def) ∅) []) = ∅))
      with false.
    2:{ subst e. injection Hdef as <-. vm_compute. reflexivity. }
    cbn [andb]. rewrite Hb1.
    rewrite (parallel_loop_spins _ st1 Hrem Hb2 fuel).
    split; [reflexivity|].
    unfold stored, registered. cbn [active_workflows].
    rewrite Hid, lookup_insert_eq. cbn. rewrite Hf, Hc. reflexivity.
Qed.

(** ** The final status *)

Lemma apply_runtime_parameters_ids sts runtime :
  ids_of (_apply_runtime_parameters sts runtime) = ids_of sts.
Proof.
  unfold ids_of, _apply_runtime_parameters. rewrite <- list_fmap_compose.
  apply list_fmap_ext. intros i x _. reflexivity.
Qed.

Lemma final_status_all_completed sts e :
  forallb (λ step, bool_decide (step_id step ∈ completed_steps e)) sts = true
  ↔ ∀ sid, sid ∈ ids_of sts → sid ∈ completed_steps e.
Proof.
  rewrite forallb_forall. unfold ids_of. split.
  - intros Hall sid Hin.
    apply list_elem_of_fmap in Hin as (step & -> & Hstep).
    apply list_elem_of_In in Hstep.
    apply Hall in Hstep. by apply bool_decide_eq_true_1 in Hstep.
  - intros Hins step Hstep. apply bool_decide_eq_true_2.
    apply Hins. apply list_elem_of_fmap. exists step.
    split; [reflexivity|]. by apply list_elem_of_In.
Qed.

Lemma final_status_precedence sts e :
  ((∀ sid, sid ∈ ids_of sts → sid ∈ completed_steps e) →
   final_status sts e = WorkflowStatus.COMPLETED)
  ∧ (¬ (∀ sid, sid ∈ ids_of sts → sid ∈ completed_steps e) →
     failed_steps e ≠ [] →
     final_status sts e = WorkflowStatus.PARTIALLY_COMPLETED)
  ∧ (¬ (∀ sid, sid ∈ ids_of sts → sid ∈ completed_steps e) →
     failed_steps e = [] →
     final_status sts e = WorkflowStatus.FAILED).
Proof.
  unfold final_status. pose proof (final_status_all_completed sts e) as Hall.
  destruct (forallb _ sts).
  - split; [reflexivity|]. split; intros; exfalso; tauto.
  - assert (¬ ∀ sid, sid ∈ ids_of sts → sid ∈ completed_steps e)
      by (intros H; apply Hall in H; discriminate).
    split; [tauto|]. split; intros; case_bool_decide; done.
Qed.

(** C5 (counterexample): in parallel mode a run whose only step fails
    returns to the caller with no completed step and one failed step,
    and its status is partially-completed, not failed. *)
Lemma lone_failure_is_partially_completed :
  ∃ e wm tr,
    execute_workflow (mock_env ["tool_a"]) 2
                     (manager_with lone_failure 30 true) "w" (Some "run") None
    = (Returned e, wm, tr)
    ∧ completed_steps e = []
    ∧ failed_steps e = ["a"]
    ∧ ex_status e = WorkflowStatus.PARTIALLY_COMPLETED
    ∧ ex_status e ≠ WorkflowStatus.FAILED.
Proof.
  eexists _, _, _. split; [vm_compute; reflexivity|].
  repeat split. discriminate.
Qed.

(** C5 (amended): when [execute_workflow] returns, the status is
    completed if every step id of the definition is in
    [completed_steps]; otherwise partially-completed if [failed_steps]
    is not empty, whether or not any step completed; otherwise
    failed. *)
Theorem returned_status_precedence env fuel wm wid eid params e wm' tr :
  execute_workflow env fuel wm wid eid params = (Returned e, wm', tr) →
  ∃ def,
    workflow_definitions wm !! wid = Some def
    ∧ ((∀ sid, sid ∈ ids_of (steps def) → sid ∈ completed_steps e) →
       ex_status e = WorkflowStatus.COMPLETED)
    ∧ (¬ (∀ sid, sid ∈ ids_of (steps def) → sid ∈ completed_steps e) →
       failed_steps e ≠ [] →
       ex_status e = WorkflowStatus.PARTIALLY_COMPLETED)
    ∧ (¬ (∀ sid, sid ∈ ids_of (steps def) → sid ∈ completed_steps e) →
       failed_steps e = [] →
       ex_status e = WorkflowStatus.FAILED).
Proof.
  intros H. unfold execute_workflow in H.
  destruct (workflow_definitions wm !! wid) as [def|]; [|discriminate].
  exists def. split; [reflexivity|].
  destruct (if parallel_execution def then _ else _) as [p st].
  destruct p as [|[[]|err]]; [discriminate| |destruct err; discriminate].
  injection H as <- _ _. cbn [ex_status completed_steps failed_steps set_status].
  rewrite <- (apply_runtime_parameters_ids (steps def) (default ∅ params)).
  apply final_status_precedence.
Qed.

Lemma returned_status_precedence_witness :
  ∃ e wm' tr,
    execute_workflow (mock_env ["tool_a"]) 2
                     (manager_with lone_failure 30 true) "w" (Some "run") None
    = (Returned e, wm', tr)
    ∧ ∃ def,
      workflow_definitions (manager_with lone_failure 30 true) !! "w" = Some def
      ∧ ((∀ sid, sid ∈ ids_of (steps def) → sid ∈ completed_steps e) →
         ex_status e = WorkflowStatus.COMPLETED)
      ∧ (¬ (∀ sid, sid ∈ ids_of (steps def) → sid ∈ completed_steps e) →
         failed_steps e ≠ [] →
         ex_status e = WorkflowStatus.PARTIALLY_COMPLETED)
      ∧ (¬ (∀ sid, sid ∈ ids_of (steps def) → sid ∈ completed_steps e) →
         failed_steps e = [] →
         ex_status e = WorkflowStatus.FAILED).
Proof.
  eexists _, _, _.
  split; [vm_compute; reflexivity|].
  eapply (returned_status_precedence (mock_env ["tool_a"]) 2
            (manager_with lone_failure 30 true) "w" (Some "run") None).
  vm_compute. reflexivity.
Defined.

(** ** The workflow timeout *)

Section no_timeout.
Variable env : Env.

Lemma attempts_raise n : ∀ attempt e step tr err e' step' tr',
  attempts env n attempt e step tr = (Raise err, e', step', tr') →
  loop_error err.
Proof.
  induction n as [|n IH]; intros attempt e step tr err e' step' tr' H;
    cbn [attempts] in H; [discriminate|].
  destruct (_call_mcp_tool env _ _ _ _); [discriminate|].
  case_bool_decide; [by eapply IH|]. by simplify_eq.
Qed.

Lemma ready_steps_raise e smap ids err :
  ready_steps e smap ids = Raise err → loop_error err.
Proof.
  induction ids as [|sid ids IH]; cbn [ready_steps]; [discriminate|].
  destruct (smap !! sid); [|by intros [= <-]].
  destruct (ready_steps e smap ids); [discriminate|]. intros [= <-]. by apply IH.
Qed.

Lemma failed_deps_raise e smap ids err :
  failed_deps e smap ids = Raise err → loop_error err.
Proof.
  induction ids as [|sid ids IH]; cbn [failed_deps]; [discriminate|].
  destruct (smap !! sid); [|by intros [= <-]].
  destruct (failed_deps e smap ids); [discriminate|]. intros [= <-]. by apply IH.
Qed.

Lemma remove_remaining_raise sid st err st' :
  remove_remaining sid st = (Raise err, st') → loop_error err.
Proof. unfold remove_remaining. case_bool_decide; [discriminate|]. by intros [= <- _]. Qed.

Lemma skip_failed_raise ids : ∀ st err st',
  skip_failed ids st = (Raise err, st') → loop_error err.
Proof.
  induction ids as [|sid ids IH]; intros st err st'; cbn [skip_failed];
    [discriminate|].
  destruct (remove_remaining sid _) as [[[]|err1] st1] eqn:Hrm.
  - apply IH.
  - intros [= <- _]. by eapply remove_remaining_raise.
Qed.

Lemma start_tasks_raise ready : ∀ st err st',
  start_tasks ready st = (Raise err, st') → loop_error err.
Proof.
  induction ready as [|step ready IH]; intros st err st'; cbn [start_tasks];
    [discriminate|].
  unfold enter_step.
  destruct (remove_remaining (step_id step) _) as [[[]|err1] st1] eqn:Hrm.
  - apply IH.
  - intros [= <- _]. by eapply remove_remaining_raise.
Qed.

Lemma seq_body_raise st err st' :
  seq_body env st = (Raise err, st') → loop_error err.
Proof.
  unfold seq_body.
  destruct (ready_steps _ _ _) as [[|step l]|err1] eqn:Hr.
  - destruct (failed_deps _ _ _) as [fd|err1] eqn:Hfd.
    + case_bool_decide; [by intros [= <- _]|]. apply skip_failed_raise.
    + intros [= <- _]. by eapply failed_deps_raise.
  - unfold _execute_step, enter_step, run_attempts.
    destruct (attempts env _ _ _ _ _) as [[[r e1] step1] tr1] eqn:Hat.
    destruct r as [[]|err1].
    + apply remove_remaining_raise.
    + intros [= <- _]. by eapply attempts_raise.
  - intros [= <- _]. by eapply ready_steps_raise.
Qed.

Lemma par_body_raise st err st' :
  par_body env st = (Raise err, st') → loop_error err.
Proof.
  unfold par_body.
  destruct (ready_steps _ _ _) as [ready|err1] eqn:Hr.
  - destruct (start_tasks ready st) as [[[]|err1] st1] eqn:Hs.
    + case_bool_decide; discriminate.
    + intros [= <- _]. by eapply start_tasks_raise.
  - intros [= <- _]. by eapply ready_steps_raise.
Qed.

Lemma sequential_loop_raise fuel : ∀ st err st',
  sequential_loop env fuel st = (Finished (Raise err), st') → loop_error err.
Proof.
  induction fuel as [|fuel IH]; intros st err st'; cbn [sequential_loop];
    case_bool_decide; try discriminate.
  destruct (seq_body env st) as [[[]|err1] st1] eqn:Hb; [apply IH|].
  intros [= <- _]. by eapply seq_body_raise.
Qed.

Lemma parallel_loop_raise fuel : ∀ st err st',
  parallel_loop env fuel st = (Finished (Raise err), st') → loop_error err.
Proof.
  induction fuel as [|fuel IH]; intros st err st'; cbn [parallel_loop];
    destruct (_ && _); try discriminate.
  destruct (par_body env st) as [[[]|err1] st1] eqn:Hb; [apply IH|].
  intros [= <- _]. by eapply par_body_raise.
Qed.

(** Whatever the definition, its timeout and the environment,
    [execute_workflow] never raises [WorkflowTimeoutError]: no exception
    of class [asyncio.TimeoutError] can leave the loops, because nothing
    arms a timer and [_execute_step] catches whatever a call raises. *)
Lemma execute_workflow_never_times_out fuel wm wid eid params msg wm' tr :
  execute_workflow env fuel wm wid eid params
  ≠ (Raised (WorkflowTimeoutError msg), wm', tr).
Proof.
  unfold execute_workflow.
  destruct (workflow_definitions wm !! wid) as [def|]; [|discriminate].
  destruct (if parallel_execution def then _ else _) as [p st] eqn:Hloop.
  destruct p as [|[[]|err]]; try discriminate.
  assert (loop_error err) as Herr.
  { destruct (parallel_execution def);
      [eapply parallel_loop_raise | eapply sequential_loop_raise]; exact Hloop. }
  destruct err; (discriminate || destruct Herr).
Qed.
End no_timeout.

(** C6 (defect): a definition accepted with [timeout_minutes = 1] whose
    single step is retried six times spends 63 seconds in backoff
    sleeps alone, more than its timeout, and [execute_workflow] still
    returns it as completed without raising. *)
Theorem timeout_minutes_is_not_enforced :
  let wm := manager_with patient_step 1 false in
  let '(o, wm', tr) := execute_workflow flaky_env 1 wm "w" (Some "run") None in
  (timeout_minutes <$> workflow_definitions wm !! "w") = Some 1
  ∧ (∃ e, o = Returned e ∧ ex_status e = WorkflowStatus.COMPLETED)
  ∧ sleeps_of tr = [1; 2; 4; 8; 16; 32]
  ∧ 60 * 1 < foldr Z.add 0 (sleeps_of tr).
Proof.
  vm_compute. split; [reflexivity|]. split; [eexists; split; reflexivity|].
  split; reflexivity.
Qed.

(** ** Cancellation *)

Section cancellation.
Variable env : Env.

Lemma call_mcp_tool_without_cancel sid attempt tool params :
  _call_mcp_tool (without_cancel env) sid attempt tool params
  = _call_mcp_tool env sid attempt tool params.
Proof. reflexivity. Qed.

Lemma erase_fields e e' :
  erase e = erase e' →
  completed_steps e = completed_steps e' ∧ failed_steps e = failed_steps e'
  ∧ execution_id e = execution_id e'
  ∧ ∀ s, set_status s e = set_status s e'.
Proof.
  intros H.
  split; [exact (f_equal completed_steps H)|].
  split; [exact (f_equal failed_steps H)|].
  split; [exact (f_equal execution_id H)|].
  intros s. exact (f_equal (set_status s) H).
Qed.

Lemma attempts_without_cancel n : ∀ attempt e e' step tr,
  erase e = erase e' →
  ∃ r e1 e1' step1 tr1,
    attempts env n attempt e step tr = (r, e1, step1, tr1)
    ∧ attempts (without_cancel env) n attempt e' step tr = (r, e1', step1, tr1)
    ∧ erase e1 = erase e1'.
Proof.
  induction n as [|n IH]; intros attempt e e' step tr He; cbn [attempts].
  - eexists _, _, _, _, _. eauto.
  - rewrite call_mcp_tool_without_cancel. cbn [cancel_during without_cancel].
    set (e0 := if cancel_during env (step_id step) attempt
               then cancel_execution e else e).
    assert (He0 : erase e0 = erase e').
    { subst e0. destruct (cancel_during env _ _); [|exact He].
      rewrite <- He. reflexivity. }
    destruct (_call_mcp_tool env _ _ _ _) as [r|err].
    + eexists _, _, _, _, _. split; [reflexivity|]. split; [reflexivity|].
      unfold erase, set_status, record_completed in *. cbn. congruence.
    + case_bool_decide.
      * apply IH. exact He0.
      * eexists _, _, _, _, _. split; [reflexivity|]. split; [reflexivity|].
        unfold erase, set_status, record_failed in *. cbn. congruence.
Qed.

Lemma is_ready_ext e e' step :
  completed_steps e = completed_steps e' → is_ready e step = is_ready e' step.
Proof. unfold is_ready. by intros ->. Qed.

Lemma ready_steps_ext e e' smap ids :
  completed_steps e = completed_steps e' →
  ready_steps e smap ids = ready_steps e' smap ids.
Proof.
  intros He. induction ids as [|sid ids IH]; cbn [ready_steps]; [reflexivity|].
  rewrite IH. destruct (smap !! sid); [|reflexivity].
  by rewrite (is_ready_ext e e' _ He).
Qed.

Lemma failed_deps_ext e e' smap ids :
  failed_steps e = failed_steps e' →
  failed_deps e smap ids = failed_deps e' smap ids.
Proof.
  intros He. induction ids as [|sid ids IH]; cbn [failed_deps]; [reflexivity|].
  by rewrite IH, He.
Qed.

Lemma erase_state_fields st st' :
  erase_state st = erase_state st' →
  erase (execution st) = erase (execution st')
  ∧ step_map st = step_map st' ∧ remaining_steps st = remaining_steps st'
  ∧ running_tasks st = running_tasks st' ∧ waits st = waits st'
  ∧ trace st = trace st'.
Proof.
  intros H.
  split; [exact (f_equal execution H)|].
  split; [exact (f_equal step_map H)|].
  split; [exact (f_equal remaining_steps H)|].
  split; [exact (f_equal running_tasks H)|].
  split; [exact (f_equal waits H) | exact (f_equal trace H)].
Qed.

Lemma erase_state_intro st st' :
  erase (execution st) = erase (execution st') →
  step_map st = step_map st' → remaining_steps st = remaining_steps st' →
  running_tasks st = running_tasks st' → waits st = waits st' →
  trace st = trace st' →
  erase_state st = erase_state st'.
Proof. unfold erase_state. congruence. Qed.

Lemma remove_remaining_erased sid st st' :
  erase_state st = erase_state st' →
  (remove_remaining sid st).1 = (remove_remaining sid st').1
  ∧ erase_state (remove_remaining sid st).2 = erase_state (remove_remaining sid st').2.
Proof.
  intros H. pose proof (erase_state_fields _ _ H) as (He & Hm & Hr & Ht & Hw & Htr).
  unfold remove_remaining. rewrite Hr.
  case_bool_decide; cbn [fst snd]; [|by auto].
  split; [reflexivity|]. apply erase_state_intro; cbn; congruence.
Qed.

Lemma skip_failed_erased ids : ∀ st st',
  erase_state st = erase_state st' →
  (skip_failed ids st).1 = (skip_failed ids st').1
  ∧ erase_state (skip_failed ids st).2 = erase_state (skip_failed ids st').2.
Proof.
  induction ids as [|sid ids IH]; intros st st' H; cbn [skip_failed];
    [by auto|].
  pose proof (erase_state_fields _ _ H) as (He & Hm & Hr & Ht & Hw & Htr).
  match goal with
  | |- context [remove_remaining sid ?a] =>
      match goal with
      | |- context [(match remove_remaining sid ?b with _ => _ end).1
                    = (match remove_remaining sid ?c with _ => _ end).1] =>
          destruct (remove_remaining_erased sid b c) as [H1 H2]
      end
  end.
  { apply erase_state_intro; cbn; try assumption.
    unfold erase, set_status, append_failed in *. cbn. congruence. }
  destruct (remove_remaining sid _) as [[[]|err1] st1];
    destruct (remove_remaining sid _) as [[[]|err2] st2];
    cbn [fst snd] in *; try discriminate; auto.
Qed.
End cancellation.

Section cancellation_runs.
Variable env : Env.

Lemma seq_body_erased st st' :
  erase_state st = erase_state st' →
  (seq_body env st).1 = (seq_body (without_cancel env) st').1
  ∧ erase_state (seq_body env st).2
    = erase_state (seq_body (without_cancel env) st').2.
Proof.
  intros H. pose proof (erase_state_fields _ _ H) as (He & Hm & Hr & Ht & Hw & Htr).
  pose proof (erase_fields _ _ He) as (Hc & Hf & Hid & Hs).
  unfold seq_body. cbn [set_iter without_cancel].
  rewrite <- Hm, <- Hr, <- Htr.
  rewrite <- (ready_steps_ext _ _ _ _ Hc), <- (failed_deps_ext _ _ _ _ Hf).
  destruct (ready_steps _ _ _) as [[|step l]|err]; [| |by auto].
  - destruct (failed_deps _ _ _) as [fd|err]; [|by auto].
    case_bool_decide; [by auto|]. by apply skip_failed_erased.
  - unfold _execute_step, enter_step, run_attempts.
    destruct (attempts_without_cancel env
                (Z.to_nat (max_retries (step_running step) + 1)) 0
                (set_current_step (step_id step) (execution st))
                (set_current_step (step_id step) (execution st'))
                (step_running step) (trace st ++ [Started (step_id step)]))
      as (r & e1 & e1' & step1 & tr1 & H1 & H2 & H3).
    { unfold erase, set_status, set_current_step in *. cbn. congruence. }
    rewrite H1, H2.
    assert (Hst : erase_state (after_step e1 step1 tr1 st)
                  = erase_state (after_step e1' step1 tr1 st')).
    { apply erase_state_intro; cbn; congruence. }
    destruct r as [[]|err]; [|by auto]. by apply remove_remaining_erased.
Qed.

Lemma sequential_loop_erased fuel : ∀ st st',
  erase_state st = erase_state st' →
  (sequential_loop env fuel st).1 = (sequential_loop (without_cancel env) fuel st').1
  ∧ erase_state (sequential_loop env fuel st).2
    = erase_state (sequential_loop (without_cancel env) fuel st').2.
Proof.
  induction fuel as [|fuel IH]; intros st st' H; cbn [sequential_loop];
    pose proof (erase_state_fields _ _ H) as (_ & _ & Hr & _);
    rewrite <- Hr; case_bool_decide; try by auto.
  destruct (seq_body_erased st st' H) as [H1 H2].
  destruct (seq_body env st) as [[[]|err] st1];
    destruct (seq_body (without_cancel env) st') as [[[]|err'] st1'];
    cbn [fst snd] in *; try discriminate.
  - by apply IH.
  - split; [congruence | assumption].
Qed.

Lemma start_tasks_erased ready : ∀ st st',
  erase_state st = erase_state st' →
  (start_tasks ready st).1 = (start_tasks ready st').1
  ∧ erase_state (start_tasks ready st).2 = erase_state (start_tasks ready st').2.
Proof.
  induction ready as [|step ready IH]; intros st st' H; cbn [start_tasks];
    [by auto|].
  pose proof (erase_state_fields _ _ H) as (He & Hm & Hr & Ht & Hw & Htr).
  unfold enter_step.
  match goal with
  | |- (match remove_remaining _ ?b with _ => _ end).1
       = (match remove_remaining _ ?c with _ => _ end).1 ∧ _ =>
      destruct (remove_remaining_erased (step_id step) b c) as [H1 H2]
  end.
  { apply erase_state_intro; cbn; try congruence.
    unfold erase, set_status, set_current_step in *. cbn. congruence. }
  destruct (remove_remaining (step_id step) _) as [[[]|err1] st1];
    destruct (remove_remaining (step_id step) _) as [[[]|err2] st2];
    cbn [fst snd] in *; try discriminate; auto.
Qed.

Lemma finish_task_erased st st' sid :
  erase_state st = erase_state st' →
  erase_state (finish_task env st sid)
  = erase_state (finish_task (without_cancel env) st' sid).
Proof.
  intros H. pose proof (erase_state_fields _ _ H) as (He & Hm & Hr & Ht & Hw & Htr).
  unfold finish_task. rewrite <- Ht.
  destruct (running_tasks st !! sid) as [[step|]|]; try assumption.
  unfold run_attempts.
  destruct (attempts_without_cancel env (Z.to_nat (max_retries step + 1)) 0
              (execution st) (execution st') step (trace st) He)
    as (r & e1 & e1' & step1 & tr1 & H1 & H2 & H3).
  rewrite <- Htr, H1, H2. apply erase_state_intro; cbn; congruence.
Qed.

Lemma finish_tasks_erased ids : ∀ st st',
  erase_state st = erase_state st' →
  erase_state (foldl (finish_task env) st ids)
  = erase_state (foldl (finish_task (without_cancel env)) st' ids).
Proof.
  induction ids as [|sid ids IH]; intros st st' H; cbn [foldl]; [assumption|].
  apply IH. by apply finish_task_erased.
Qed.

Lemma par_body_erased st st' :
  erase_state st = erase_state st' →
  (par_body env st).1 = (par_body (without_cancel env) st').1
  ∧ erase_state (par_body env st).2
    = erase_state (par_body (without_cancel env) st').2.
Proof.
  intros H. pose proof (erase_state_fields _ _ H) as (He & Hm & Hr & Ht & Hw & Htr).
  pose proof (erase_fields _ _ He) as (Hc & Hf & Hid & Hs).
  unfold par_body. cbn [set_iter without_cancel].
  rewrite <- Hm, <- Hr, <- (ready_steps_ext _ _ _ _ Hc).
  destruct (ready_steps _ _ _) as [ready|err]; [|by auto].
  destruct (start_tasks_erased ready st st' H) as [H1 H2].
  destruct (start_tasks ready st) as [[[]|err1] st1];
    destruct (start_tasks ready st') as [[[]|err2] st1'];
    cbn [fst snd] in *; try discriminate; [|split; [congruence|assumption]].
  pose proof (erase_state_fields _ _ H2) as (He1 & Hm1 & Hr1 & Ht1 & Hw1 & Htr1).
  rewrite <- Ht1. case_bool_decide; [by auto|].
  split; [reflexivity|].
  assert (Hw' : wait env st1 = wait (without_cancel env) st1').
  { unfold wait. cbn [schedule without_cancel]. by rewrite <- Ht1, <- Hw1. }
  rewrite <- Hw'.
  pose proof (finish_tasks_erased (wait env st1) st1 st1' H2) as H3.
  pose proof (erase_state_fields _ _ H3) as (He2 & Hm2 & Hr2 & Ht2 & Hw2 & Htr2).
  apply erase_state_intro; cbn; congruence.
Qed.

Lemma parallel_loop_erased fuel : ∀ st st',
  erase_state st = erase_state st' →
  (parallel_loop env fuel st).1 = (parallel_loop (without_cancel env) fuel st').1
  ∧ erase_state (parallel_loop env fuel st).2
    = erase_state (parallel_loop (without_cancel env) fuel st').2.
Proof.
  induction fuel as [|fuel IH]; intros st st' H; cbn [parallel_loop];
    pose proof (erase_state_fields _ _ H) as (_ & _ & Hr & Ht & _);
    rewrite <- Hr, <- Ht; destruct (_ && _); try by auto.
  destruct (par_body_erased st st' H) as [H1 H2].
  destruct (par_body env st) as [[[]|err] st1];
    destruct (par_body (without_cancel env) st') as [[[]|err'] st1'];
    cbn [fst snd] in *; try discriminate.
  - by apply IH.
  - split; [congruence | assumption].
Qed.

(** Requests to cancel that arrive while [execute_workflow] runs change
    nothing of what it does: the same events happen, and once it has
    returned or raised, the caller and the registry see the same as if
    nobody had cancelled. *)
Lemma cancel_requests_are_ignored fuel wm wid eid params :
  let '(o, wm1, tr) := execute_workflow env fuel wm wid eid params in
  let '(o', wm1', tr') :=
    execute_workflow (without_cancel env) fuel wm wid eid params in
  tr = tr' ∧ (o = StillRunning ↔ o' = StillRunning)
  ∧ (o ≠ StillRunning → o = o' ∧ wm1 = wm1').
Proof.
  unfold execute_workflow. cbn [uuid4 without_cancel].
  destruct (workflow_definitions wm !! wid) as [def|];
    [|split; [reflexivity|]; split; [reflexivity|]; auto].
  set (e := set_status WorkflowStatus.IN_PROGRESS _).
  set (sts := _apply_runtime_parameters _ _).
  assert (Hloops :
    let r := if parallel_execution def
             then _execute_parallel_workflow env fuel e sts []
             else _execute_sequential_workflow env fuel e sts [] in
    let r' := if parallel_execution def
              then _execute_parallel_workflow (without_cancel env) fuel e sts []
              else _execute_sequential_workflow (without_cancel env) fuel e sts [] in
    r.1 = r'.1 ∧ erase_state r.2 = erase_state r'.2).
  { destruct (parallel_execution def); cbn zeta;
      [apply parallel_loop_erased | apply sequential_loop_erased]; reflexivity. }
  cbn zeta in Hloops. destruct Hloops as [H1 H2].
  destruct (if parallel_execution def then _execute_parallel_workflow env _ _ _ _ else _)
    as [p st].
  destruct (if parallel_execution def then _execute_parallel_workflow (without_cancel env) _ _ _ _ else _)
    as [p' st'].
  cbn [fst snd] in *. subst p'.
  pose proof (erase_state_fields _ _ H2) as (He & _ & _ & _ & _ & Htr).
  pose proof (erase_fields _ _ He) as (Hc & Hf & Hid & Hs).
  assert (Hfin : final_status sts (execution st) = final_status sts (execution st')).
  { unfold final_status. by rewrite Hc, Hf. }
  destruct p as [|[[]|err]].
  - split; [assumption|]. split; [reflexivity|]. intros []; reflexivity.
  - rewrite Hfin, Hs. split; [assumption|]. split; [by split|].
    intros _. split; reflexivity.
  - rewrite (Hs WorkflowStatus.FAILED).
    destruct err; (split; [assumption|]; split; [by split|];
                   intros _; split; reflexivity).
Qed.
End cancellation_runs.

(** C4 (defect): [cancel_workflow] is called while the call of step
    [a] is in flight and the status becomes cancelled, a terminal
    value; step [b] is started all the same and its tool is called,
    the run ends with status completed, and a second [cancel_workflow]
    then turns completed into cancelled. *)
Theorem cancelled_run_goes_on :
  let wm := manager_with chain_of_two 30 false in
  ∃ def st1 e wm1 tr wm2,
    workflow_definitions wm !! "w" = Some def
    ∧ seq_body cancelling_env
        (initial_state (set_status WorkflowStatus.IN_PROGRESS (new_execution "run" "w"))
                       (_apply_runtime_parameters (steps def) ∅) [])
      = (Ok tt, st1)
    ∧ ex_status (execution st1) = WorkflowStatus.CANCELLED
    ∧ WorkflowStatus.terminal (ex_status (execution st1)) = true
    ∧ trace st1 = [Started "a"; Call "a" "tool_a" 0]
    ∧ execute_workflow cancelling_env 2 wm "w" (Some "run") None
      = (Returned e, wm1, tr)
    ∧ tr = [Started "a"; Call "a" "tool_a" 0; Started "b"; Call "b" "tool_b" 0]
    ∧ ex_status e = WorkflowStatus.COMPLETED
    ∧ cancel_workflow wm1 "run" = (true, wm2)
    ∧ (ex_status <$> stored wm2 "run") = Some WorkflowStatus.CANCELLED.
Proof.
  intros wm. eexists _, _, _, _, _, _.
  split; [vm_compute; reflexivity|].
  split; [vm_compute; reflexivity|].
  split; [reflexivity|]. split; [reflexivity|]. split; [reflexivity|].
  split; [vm_compute; reflexivity|].
  split; [reflexivity|]. split; [reflexivity|].
  split; [vm_compute; reflexivity|].
  vm_compute; reflexivity.
Qed.

(** ** The choice among ready steps *)

Lemma ready_steps_total e smap ids :
  (∀ x, x ∈ ids → is_Some (smap !! x)) →
  ∃ l, ready_steps e smap ids = Ok l.
Proof.
  induction ids as [|sid ids IH]; intros Hall; cbn [ready_steps]; [eauto|].
  destruct (Hall sid) as [step ->]; [left|].
  destruct IH as [l ->]; [intros x Hx; apply Hall; by right|]. eauto.
Qed.

Lemma ready_steps_first e smap before : ∀ sid after step,
  (∀ x, x ∈ before → ∃ sx, smap !! x = Some sx ∧ is_ready e sx = false) →
  smap !! sid = Some step →
  is_ready e step = true →
  (∀ x, x ∈ after → is_Some (smap !! x)) →
  ∃ l, ready_steps e smap (before ++ sid :: after) = Ok (step :: l).
Proof.
  induction before as [|b before IH]; intros sid after step Hb Hs Hr Ha.
  - cbn [app ready_steps]. rewrite Hs, Hr.
    destruct (ready_steps_total e smap after Ha) as [l ->]. eauto.
  - cbn [app ready_steps].
    destruct (Hb b) as (sb & -> & Hnr); [left|]. rewrite Hnr.
    destruct (IH sid after step) as [l ->]; eauto.
    intros x Hx. apply Hb. by right.
Qed.

Lemma attempts_trace_extends env n : ∀ attempt e step tr r e' step' tr',
  attempts env n attempt e step tr = (r, e', step', tr') →
  ∃ more, tr' = tr ++ more.
Proof.
  induction n as [|n IH]; intros attempt e step tr r e' step' tr' H;
    cbn [attempts] in H.
  - simplify_eq. exists []. by rewrite app_nil_r.
  - destruct (_call_mcp_tool env _ _ _ _).
    + simplify_eq. eauto.
    + case_bool_decide.
      * apply IH in H as [more ->]. rewrite <- !app_assoc. eauto.
      * simplify_eq. eauto.
Qed.

(** C9 (counterexample): both steps of [independent_pair] are ready
    from the start; with a set that iterates as [second], [first] the
    loop runs [second] first, and with the reverse iteration order and
    the same tool outcomes it runs them the other way round. *)
Lemma ready_steps_run_in_set_order :
  let wm := manager_with independent_pair 30 false in
  ∃ def e wm1 tr e' wm1' tr',
    workflow_definitions wm !! "w" = Some def
    ∧ ids_of (steps def) = ["first"; "second"]
    ∧ Forall (λ step, depends_on step = []) (steps def)
    ∧ set_iter (mock_env []) (step_ids_of (steps def)) = ["second"; "first"]
    ∧ execute_workflow (mock_env []) 2 wm "w" (Some "run") None
      = (Returned e, wm1, tr)
    ∧ tr = [Started "second"; Call "second" "tool_b" 0;
            Started "first"; Call "first" "tool_a" 0]
    ∧ execute_workflow reversed_env 2 wm "w" (Some "run") None
      = (Returned e', wm1', tr')
    ∧ tr' = [Started "first"; Call "first" "tool_a" 0;
             Started "second"; Call "second" "tool_b" 0].
Proof.
  intros wm. eexists _, _, _, _, _, _, _.
  split; [vm_compute; reflexivity|].
  split; [reflexivity|].
  split; [repeat constructor|].
  split; [vm_compute; reflexivity|].
  split; [vm_compute; reflexivity|].
  split; [reflexivity|].
  split; [vm_compute; reflexivity|].
  reflexivity.
Qed.

(** The step that an iteration of the sequential loop runs is the
    first one, in the iteration order of the set [remaining_steps], all
    of whose dependencies are completed. *)
Lemma seq_body_runs_first_ready env st before sid after step :
  set_iter env (remaining_steps st) = before ++ sid :: after →
  (∀ x, x ∈ before →
     ∃ sx, step_map st !! x = Some sx ∧ is_ready (execution st) sx = false) →
  step_map st !! sid = Some step →
  is_ready (execution st) step = true →
  (∀ x, x ∈ after → is_Some (step_map st !! x)) →
  seq_body env st = run_chosen env step st
  ∧ ∃ tr', trace (seq_body env st).2 = trace st ++ Started (step_id step) :: tr'.
Proof.
  intros Hiter Hb Hs Hr Ha.
  destruct (ready_steps_first (execution st) (step_map st) before sid after step
              Hb Hs Hr Ha) as [l Hl].
  assert (Heq : seq_body env st = run_chosen env step st).
  { unfold seq_body, run_chosen. rewrite Hiter, Hl. reflexivity. }
  split; [exact Heq|]. rewrite Heq. unfold run_chosen, _execute_step, enter_step.
  unfold run_attempts.
  destruct (attempts env _ _ _ _ _) as [[[r e] step'] tr] eqn:Hat.
  destruct (attempts_trace_extends env _ _ _ _ _ _ _ _ _ Hat) as [more ->].
  rewrite <- app_assoc. cbn [app]. exists more.
  destruct r as [[]|err]; [|reflexivity].
  unfold remove_remaining. case_bool_decide; reflexivity.
Qed.

(** Two runs whose sets iterate in the same order and whose tools give
    the same outcomes go through the sequential loop in step. *)
Section same_set_order.
Variables env env' : Env.
Hypothesis same_iter : ∀ s, set_iter env s = set_iter env' s.
Hypothesis same_invoke : ∀ sid attempt tool params,
  invoke env sid attempt tool params = invoke env' sid attempt tool params.

Lemma call_mcp_tool_same sid attempt tool params :
  _call_mcp_tool env sid attempt tool params
  = _call_mcp_tool env' sid attempt tool params.
Proof. unfold _call_mcp_tool. by rewrite same_invoke. Qed.

Lemma attempts_same n : ∀ attempt e e' step tr,
  same_books e e' →
  ∃ r e1 e1' step1 tr1,
    attempts env n attempt e step tr = (r, e1, step1, tr1)
    ∧ attempts env' n attempt e' step tr = (r, e1', step1, tr1)
    ∧ same_books e1 e1'.
Proof.
  induction n as [|n IH]; intros attempt e e' step tr He; cbn [attempts].
  - eexists _, _, _, _, _. eauto.
  - rewrite call_mcp_tool_same.
    set (e0 := if cancel_during env (step_id step) attempt
               then cancel_execution e else e).
    set (e0' := if cancel_during env' (step_id step) attempt
                then cancel_execution e' else e').
    assert (He0 : same_books e0 e0').
    { subst e0 e0'. destruct He as [Hc Hf].
      destruct (cancel_during env _ _), (cancel_during env' _ _); by split. }
    destruct (_call_mcp_tool env' _ _ _ _) as [r|err].
    + eexists _, _, _, _, _. split; [reflexivity|]. split; [reflexivity|].
      destruct He0 as [Hc Hf]. split; cbn; congruence.
    + case_bool_decide.
      * apply IH. exact He0.
      * eexists _, _, _, _, _. split; [reflexivity|]. split; [reflexivity|].
        destruct He0 as [Hc Hf]. split; cbn; congruence.
Qed.

Lemma remove_remaining_same sid st st' :
  same_progress st st' →
  (remove_remaining sid st).1 = (remove_remaining sid st').1
  ∧ same_progress (remove_remaining sid st).2 (remove_remaining sid st').2.
Proof.
  intros (He & Hm & Hr & Htr). unfold remove_remaining. rewrite Hr.
  case_bool_decide; cbn [fst snd]; [|by auto].
  split; [reflexivity|]. by split.
Qed.

Lemma skip_failed_same ids : ∀ st st',
  same_progress st st' →
  (skip_failed ids st).1 = (skip_failed ids st').1
  ∧ same_progress (skip_failed ids st).2 (skip_failed ids st').2.
Proof.
  induction ids as [|sid ids IH]; intros st st' H; cbn [skip_failed];
    [by auto|].
  destruct H as ([Hc Hf] & Hm & Hr & Htr).
  match goal with
  | |- context [(match remove_remaining sid ?b with _ => _ end).1
                = (match remove_remaining sid ?c with _ => _ end).1] =>
      destruct (remove_remaining_same sid b c) as [H1 H2]
  end.
  { split; [split; cbn; congruence|]. by split. }
  destruct (remove_remaining sid _) as [[[]|err1] st1];
    destruct (remove_remaining sid _) as [[[]|err2] st2];
    cbn [fst snd] in *; try discriminate; auto.
Qed.

Lemma seq_body_same st st' :
  same_progress st st' →
  (seq_body env st).1 = (seq_body env' st').1
  ∧ same_progress (seq_body env st).2 (seq_body env' st').2.
Proof.
  intros H. pose proof H as ([Hc Hf] & Hm & Hr & Htr).
  unfold seq_body. rewrite <- same_iter, <- Hm, <- Hr, <- Htr.
  rewrite <- (ready_steps_ext _ _ _ _ Hc), <- (failed_deps_ext _ _ _ _ Hf).
  destruct (ready_steps _ _ _) as [[|step l]|err]; [| |by auto].
  - destruct (failed_deps _ _ _) as [fd|err]; [|by auto].
    case_bool_decide; [by auto|]. rewrite <- (same_iter fd).
    by apply skip_failed_same.
  - unfold _execute_step, enter_step, run_attempts.
    destruct (attempts_same (Z.to_nat (max_retries (step_running step) + 1)) 0
                (set_current_step (step_id step) (execution st))
                (set_current_step (step_id step) (execution st'))
                (step_running step) (trace st ++ [Started (step_id step)]))
      as (r & e1 & e1' & step1 & tr1 & H1 & H2 & H3); [by split|].
    rewrite H1, H2.
    assert (Hst : same_progress (after_step e1 step1 tr1 st)
                                (after_step e1' step1 tr1 st')).
    { split; [exact H3|]. cbn. by rewrite Hm. }
    destruct r as [[]|err]; [|by auto]. by apply remove_remaining_same.
Qed.

Lemma sequential_loop_same fuel : ∀ st st',
  same_progress st st' →
  (sequential_loop env fuel st).1 = (sequential_loop env' fuel st').1
  ∧ same_progress (sequential_loop env fuel st).2 (sequential_loop env' fuel st').2.
Proof.
  induction fuel as [|fuel IH]; intros st st' H; cbn [sequential_loop];
    pose proof H as (_ & _ & Hr & _);
    rewrite <- Hr; case_bool_decide; try by auto.
  destruct (seq_body_same st st' H) as [H1 H2].
  destruct (seq_body env st) as [[[]|err] st1];
    destruct (seq_body env' st') as [[[]|err'] st1'];
    cbn [fst snd] in *; try discriminate.
  - by apply IH.
  - split; [congruence | assumption].
Qed.

Lemma sequential_runs_same_events fuel wm wm' wid eid eid' params def :
  workflow_definitions wm !! wid = Some def →
  workflow_definitions wm' !! wid = Some def →
  parallel_execution def = false →
  (execute_workflow env fuel wm wid eid params).2
  = (execute_workflow env' fuel wm' wid eid' params).2.
Proof.
  intros Hdef Hdef' Hseq. unfold execute_workflow.
  rewrite Hdef, Hdef', Hseq. unfold _execute_sequential_workflow.
  match goal with
  | |- context [sequential_loop env fuel ?a] =>
      match goal with
      | |- context [sequential_loop env' fuel ?b] =>
          destruct (sequential_loop_same fuel a b) as [H1 H2]
      end
  end.
  { split; [by split|]. by split. }
  destruct (sequential_loop env fuel _) as [p st].
  destruct (sequential_loop env' fuel _) as [p' st'].
  cbn [fst snd] in *. subst p'. destruct H2 as (_ & _ & _ & Htr).
  destruct p as [|[[]|err]]; [done|done|]. by destruct err.
Qed.
End same_set_order.

(** C9 (amended): an iteration of the sequential loop runs the step
    that comes first, in the iteration order of the set
    [remaining_steps], among those whose dependencies are all
    completed; and two runs of a definition whose sets iterate in the
    same order and whose tools give the same outcomes produce the same
    events in the same order, whatever else differs between them (the
    ids of the executions, cancellation requests). *)
Theorem sequential_order_follows_set_order :
  (∀ env st before sid after step,
     set_iter env (remaining_steps st) = before ++ sid :: after →
     (∀ x, x ∈ before →
        ∃ sx, step_map st !! x = Some sx ∧ is_ready (execution st) sx = false) →
     step_map st !! sid = Some step →
     is_ready (execution st) step = true →
     (∀ x, x ∈ after → is_Some (step_map st !! x)) →
     seq_body env st = run_chosen env step st
     ∧ ∃ tr', trace (seq_body env st).2 = trace st ++ Started (step_id step) :: tr')
  ∧ (∀ env env' fuel wm wm' wid eid eid' params def,
       workflow_definitions wm !! wid = Some def →
       workflow_definitions wm' !! wid = Some def →
       parallel_execution def = false →
       (∀ s, set_iter env s = set_iter env' s) →
       (∀ sid attempt tool args,
          invoke env sid attempt tool args = invoke env' sid attempt tool args) →
       (execute_workflow env fuel wm wid eid params).2
       = (execute_workflow env' fuel wm' wid eid' params).2).
Proof.
  split.
  - apply seq_body_runs_first_ready.
  - intros env env' fuel wm wm' wid eid eid' params def Hdef Hdef' Hseq Hiter Hinv.
    by apply (sequential_runs_same_events env env' Hiter Hinv _ _ _ _ _ _ _ def).
Qed.

(** Of three steps of which [second] waits for [third], the loop runs
    [first], which the set yields after [second]; and the run of
    [independent_pair] that is cancelled on the way and registered
    under another id goes through the same events as the plain one. *)
Lemma sequential_order_follows_set_order_witness :
  let env := mock_env [] in
  let sts := [ mk_step "third" "third" "tool_b" ∅ [] 0;
               mk_step "second" "second" "tool_b" ∅ ["third"] 0;
               mk_step "first" "first" "tool_a" ∅ [] 0 ] in
  let st := initial_state (new_execution "run" "w") sts [] in
  let wm := manager_with independent_pair 30 false in
  (set_iter env (remaining_steps st) = ["second"] ++ "first" :: ["third"]
   ∧ seq_body env st
     = run_chosen env (mk_step "first" "first" "tool_a" ∅ [] 0) st
   ∧ ∃ tr', trace (seq_body env st).2 = trace st ++ Started "first" :: tr')
  ∧ (execute_workflow env 2 wm "w" (Some "run") None).2
    = (execute_workflow cancelling_env 2 wm "w" None None).2.
Proof.
  intros env sts st wm.
  assert (Hiter : set_iter env (remaining_steps st)
                  = ["second"] ++ "first" :: ["third"])
    by (vm_compute; reflexivity).
  split.
  - split; [exact Hiter|].
    apply (proj1 sequential_order_follows_set_order env st ["second"] "first"
             ["third"] (mk_step "first" "first" "tool_a" ∅ [] 0) Hiter).
    + intros x Hx. apply list_elem_of_singleton in Hx as ->.
      eexists. split; vm_compute; reflexivity.
    + vm_compute; reflexivity.
    + reflexivity.
    + intros x Hx. apply list_elem_of_singleton in Hx as ->.
      eexists. vm_compute; reflexivity.
  - eapply (proj2 sequential_order_follows_set_order env cancelling_env 2%nat
              wm wm "w").
    + vm_compute; reflexivity.
    + vm_compute; reflexivity.
    + reflexivity.
    + intros s. reflexivity.
    + intros sid attempt tool args. reflexivity.
Defined.

(** ** Validation of a definition *)

Section dfs.
Variable smap : gmap string WorkflowStep.

Lemma dfs_inv_rtc V P x y :
  dfs_inv smap V P → x ∈ V → x ∉ P → rtc (map_edge smap) x y → y ∈ V ∧ y ∉ P.
Proof.
  intros Hinv Hx HP Hr. induction Hr as [|x y z Hxy _ IH]; [done|].
  destruct (inv_closed _ _ _ Hinv x y Hx HP Hxy). by apply IH.
Qed.

Lemma tc_inv_l x z : tc (map_edge smap) x z → ∃ y, (map_edge smap) x y ∧ rtc (map_edge smap) y z.
Proof.
  intros H. destruct H as [x y H|x y z H Ht].
  - exists y. split; [done|]. apply rtc_refl.
  - exists y. split; [done|]. by apply tc_rtc.
Qed.

Lemma each_dependency_spec visit sid deps P1 : ∀ V1,
  (∀ d V, d ∈ deps → dfs_inv smap V P1 →
     ∃ r, visit d V P1 = Some r ∧ dfs_post smap d V P1 r) →
  dfs_inv smap V1 P1 →
  ∃ r, each_dependency visit sid deps V1 P1 = Some r ∧
       let '(found, V', P') := r in
       if found then ∃ x, tc (map_edge smap) x x
       else P' = P1 ∖ {[sid]} ∧ V1 ⊆ V' ∧ dfs_inv smap V' P1
            ∧ ∀ d, d ∈ deps → d ∈ V' ∧ d ∉ P1.
Proof.
  induction deps as [|dep deps IH]; intros V1 Hvisit Hinv; cbn [each_dependency].
  - eexists. split; [reflexivity|]. cbn.
    split; [done|]. split; [done|]. split; [done|].
    intros d Hd. by apply elem_of_nil in Hd.
  - destruct (Hvisit dep V1) as ([[found V2] P2] & -> & Hpost); [left|done|].
    destruct found; cbn in Hpost.
    + eexists. split; [reflexivity|]. exact Hpost.
    + destruct Hpost as (-> & Hsub & Hinv2 & HdV & HdP).
      destruct (IH V2) as ([[found V3] P3] & -> & Hpost3); [|done|].
      { intros d V Hd. apply Hvisit. by right. }
      eexists. split; [reflexivity|]. destruct found; [exact Hpost3|].
      destruct Hpost3 as (-> & Hsub3 & Hinv3 & Hall).
      split; [done|]. split; [set_solver|]. split; [done|].
      intros d Hd. apply elem_of_cons in Hd as [->|Hd]; [|by apply Hall].
      split; [set_solver|done].
Qed.

Lemma has_circular_dependency_spec fuel : ∀ sid V P,
  (size (dom smap ∖ P) < fuel)%nat →
  dfs_inv smap V P →
  (∀ p, p ∈ P → tc (map_edge smap) p sid) →
  ∃ r, has_circular_dependency fuel smap sid V P = Some r
       ∧ dfs_post smap sid V P r.
Proof.
  induction fuel as [|fuel IH]; intros sid V P Hfuel Hinv Hpath; [lia|].
  cbn [has_circular_dependency].
  case_bool_decide as HP.
  { eexists. split; [reflexivity|]. cbn. exists sid. by apply Hpath. }
  case_bool_decide as HV.
  { eexists. split; [reflexivity|]. cbn. done. }
  assert (Hinv1 : dfs_inv smap ({[sid]} ∪ V) ({[sid]} ∪ P)).
  { split.
    - intros x y Hx HxP Hxy.
      destruct (inv_closed _ _ _ Hinv x y) as [HyV HyP]; [set_solver..|done|].
      split; [set_solver|]. set_solver.
    - intros x Hx HxP. apply (inv_acyclic _ _ _ Hinv); set_solver. }
  assert (Hrestore : ({[sid]} ∪ P) ∖ {[sid]} = P) by set_solver.
  destruct (smap !! sid) as [step|] eqn:Hstep.
  - destruct (each_dependency_spec (has_circular_dependency fuel smap) sid
                (depends_on step) ({[sid]} ∪ P) ({[sid]} ∪ V))
      as ([[found V'] P'] & -> & Hpost); [|done|].
    { intros d V0 Hd Hinv0. apply IH; [|done|].
      - assert (dom smap ∖ ({[sid]} ∪ P) ⊂ dom smap ∖ P) as Hsub.
        { apply elem_of_dom_2 in Hstep. set_solver. }
        apply subset_size in Hsub. lia.
      - intros p Hp. apply elem_of_union in Hp as [Hp|Hp].
        + apply elem_of_singleton in Hp as ->. apply tc_once. by exists step.
        + eapply tc_r; [by apply Hpath|]. by exists step. }
    eexists. split; [reflexivity|]. destruct found; [exact Hpost|].
    destruct Hpost as (-> & Hsub & Hinv' & Hall). cbn.
    split; [done|]. split; [set_solver|]. split; [|set_solver].
    split.
    + intros x y Hx HxP Hxy. destruct (decide (x = sid)) as [->|Hne].
      * destruct Hxy as (s & Hs & Hy). rewrite Hstep in Hs. simplify_eq.
        destruct (Hall y Hy). split; [done|set_solver].
      * destruct (inv_closed _ _ _ Hinv' x y) as [? ?]; [done|set_solver|done|].
        split; [done|set_solver].
    + intros x Hx HxP Hcyc. destruct (decide (x = sid)) as [->|Hne].
      * apply tc_inv_l in Hcyc as (d & (s & Hs & Hd) & Hrtc).
        rewrite Hstep in Hs. simplify_eq.
        destruct (Hall d Hd) as [HdV HdP].
        destruct (dfs_inv_rtc _ _ d sid Hinv' HdV HdP Hrtc). set_solver.
      * apply (inv_acyclic _ _ _ Hinv' x); [done|set_solver|done].
  - eexists. split; [reflexivity|]. cbn.
    split; [done|]. split; [set_solver|]. split; [|set_solver].
    split.
    + intros x y Hx HxP Hxy. destruct (decide (x = sid)) as [->|Hne].
      * destruct Hxy as (s & Hs & _). congruence.
      * destruct (inv_closed _ _ _ Hinv x y) as [? ?]; [set_solver|done|done|].
        split; [set_solver|done].
    + intros x Hx HxP Hcyc. destruct (decide (x = sid)) as [->|Hne].
      * apply tc_inv_l in Hcyc as (d & (s & Hs & _) & _). congruence.
      * apply (inv_acyclic _ _ _ Hinv x); [set_solver|done|done].
Qed.

Lemma check_roots_spec fuel roots : ∀ V,
  (size (dom smap) < fuel)%nat →
  dfs_inv smap V ∅ →
  ∃ r, check_roots fuel smap roots V = Some r ∧
       match r with
       | Raise err =>
           (∃ x, tc (map_edge smap) x x)
           ∧ err = WorkflowDependencyError "Circular dependency detected in workflow"
       | Ok _ =>
           ∃ V', V ⊆ V' ∧ dfs_inv smap V' ∅ ∧ ∀ s, s ∈ roots → step_id s ∈ V'
       end.
Proof.
  induction roots as [|step roots IH]; intros V Hfuel Hinv; cbn [check_roots].
  - eexists. split; [reflexivity|]. exists V. split; [done|]. split; [done|].
    intros s Hs. by apply elem_of_nil in Hs.
  - case_bool_decide as HV.
    + destruct (IH V Hfuel Hinv) as (r & -> & Hr). eexists. split; [reflexivity|].
      destruct r as [[]|err]; [|done].
      destruct Hr as (V' & Hsub & Hinv' & Hall). exists V'.
      split; [done|]. split; [done|]. intros s Hs.
      apply elem_of_cons in Hs as [->|Hs]; [set_solver|by apply Hall].
    + destruct (has_circular_dependency_spec fuel (step_id step) V ∅)
        as ([[found V1] P1] & -> & Hpost); [|done|set_solver|].
      { replace (dom smap ∖ ∅) with (dom smap) by set_solver. done. }
      destruct found; cbn in Hpost.
      * eexists. split; [reflexivity|]. done.
      * destruct Hpost as (-> & Hsub & Hinv1 & HsV & _).
        destruct (IH V1 Hfuel Hinv1) as (r & -> & Hr).
        eexists. split; [reflexivity|]. destruct r as [[]|err]; [|done].
        destruct Hr as (V' & Hsub' & Hinv' & Hall). exists V'.
        split; [set_solver|]. split; [done|]. intros s Hs.
        apply elem_of_cons in Hs as [->|Hs]; [set_solver|by apply Hall].
Qed.

(** An answer that the traversal gives within some number of frames is
    the answer it gives with more. *)
Lemma each_dependency_mono visit1 visit2 sid deps : ∀ V P r,
  (∀ d V0 P0 r0, visit1 d V0 P0 = Some r0 → visit2 d V0 P0 = Some r0) →
  each_dependency visit1 sid deps V P = Some r →
  each_dependency visit2 sid deps V P = Some r.
Proof.
  induction deps as [|dep deps IH]; intros V P r Hmono H; cbn [each_dependency] in *;
    [done|].
  destruct (visit1 dep V P) as [[[found V'] P']|] eqn:H1; [|done].
  rewrite (Hmono _ _ _ _ H1). destruct found; [done|]. by apply IH.
Qed.

Lemma has_circular_dependency_mono fuel : ∀ fuel' sid V P r,
  (fuel ≤ fuel')%nat →
  has_circular_dependency fuel smap sid V P = Some r →
  has_circular_dependency fuel' smap sid V P = Some r.
Proof.
  induction fuel as [|fuel IH]; intros fuel' sid V P r Hle H; [done|].
  destruct fuel' as [|fuel']; [lia|]. cbn [has_circular_dependency] in *.
  case_bool_decide; [done|]. case_bool_decide; [done|].
  destruct (smap !! sid) as [step|]; [|done].
  eapply each_dependency_mono; [|exact H].
  intros d V0 P0 r0. apply IH. lia.
Qed.

Lemma check_roots_mono fuel fuel' roots : ∀ V r,
  (fuel ≤ fuel')%nat →
  check_roots fuel smap roots V = Some r →
  check_roots fuel' smap roots V = Some r.
Proof.
  induction roots as [|step roots IH]; intros V r Hle H; cbn [check_roots] in *;
    [done|].
  case_bool_decide; [by apply IH|].
  destruct (has_circular_dependency fuel smap (step_id step) V ∅)
    as [[[found V'] P']|] eqn:H1; [|done].
  rewrite (has_circular_dependency_mono _ _ _ _ _ _ Hle H1).
  destruct found; [done|]. by apply IH.
Qed.
End dfs.

Lemma step_map_of_snoc sts s :
  step_map_of (sts ++ [s]) = <[step_id s := s]> (step_map_of sts).
Proof. unfold step_map_of. by rewrite foldl_app. Qed.

Lemma step_map_of_lookup_Some sts k s :
  step_map_of sts !! k = Some s → s ∈ sts ∧ step_id s = k.
Proof.
  induction sts as [|s' sts IH] using rev_ind; [done|].
  rewrite step_map_of_snoc, lookup_insert. case_decide.
  - intros [= <-]. split; [set_solver|done].
  - intros H'. destruct (IH H'). split; [set_solver|done].
Qed.

Lemma step_map_of_lookup_NoDup sts s :
  NoDup (ids_of sts) → s ∈ sts → step_map_of sts !! step_id s = Some s.
Proof.
  unfold ids_of. induction sts as [|s' sts IH] using rev_ind;
    [intros _ H; by apply elem_of_nil in H|].
  rewrite fmap_app, step_map_of_snoc. intros Hnd Hin.
  apply NoDup_app in Hnd as (Hnd & Hdisj & _).
  apply elem_of_app in Hin as [Hin|Hin].
  - rewrite lookup_insert_ne; [by apply IH|].
    intros Heq. apply (Hdisj (step_id s)).
    + apply list_elem_of_fmap. eauto.
    + rewrite <- Heq. set_solver.
  - apply list_elem_of_singleton in Hin as ->. apply lookup_insert_eq.
Qed.

Lemma dom_step_map_of sts : dom (step_map_of sts) = step_ids_of sts.
Proof.
  unfold step_ids_of. induction sts as [|s sts IH] using rev_ind; [set_solver|].
  rewrite step_map_of_snoc, dom_insert_L, IH, fmap_app, list_to_set_app_L.
  set_solver.
Qed.

Lemma elem_of_step_ids_of sts k : k ∈ step_ids_of sts ↔ k ∈ ids_of sts.
Proof. unfold step_ids_of, ids_of. apply elem_of_list_to_set. Qed.

Lemma size_list_to_set_le (l : list string) :
  (size (list_to_set l : gset string) ≤ length l)%nat
  ∧ (size (list_to_set l : gset string) = length l → NoDup l).
Proof.
  induction l as [|x l [IH1 IH2]]; cbn [list_to_set length].
  - split; [by rewrite size_empty|]. intros _. constructor.
  - destruct (decide (x ∈ l)) as [Hin|Hnin].
    + replace ({[x]} ∪ list_to_set l : gset string) with (list_to_set l : gset string)
        by set_solver.
      split; lia.
    + rewrite size_union, size_singleton by set_solver.
      split; [lia|]. intros Hsz. constructor; [done|]. apply IH2. lia.
Qed.

Lemma size_step_ids_of sts :
  size (step_ids_of sts) = length sts ↔ NoDup (ids_of sts).
Proof.
  unfold step_ids_of, ids_of. split.
  - intros H. apply size_list_to_set_le. by rewrite length_fmap.
  - intros H. rewrite size_list_to_set by done. by rewrite length_fmap.
Qed.

Lemma first_missing_None ids deps :
  first_missing ids deps = None ↔ ∀ d, d ∈ deps → d ∈ ids.
Proof.
  induction deps as [|dep deps IH]; cbn [first_missing].
  - split; [|done]. intros _ d Hd. by apply elem_of_nil in Hd.
  - case_bool_decide as Hdep.
    + split; [done|]. intros H. exfalso. apply Hdep, H. left.
    + rewrite IH. split.
      * intros H d Hd. apply elem_of_cons in Hd as [->|Hd]; [|by apply H].
        exact Hdep.
      * intros H d Hd. apply H. by right.
Qed.

Lemma first_missing_Some ids deps d :
  first_missing ids deps = Some d → d ∈ deps ∧ d ∉ ids.
Proof.
  induction deps as [|dep deps IH]; cbn [first_missing]; [done|].
  case_bool_decide.
  - intros [= <-]. split; [left|done].
  - intros H'. destruct (IH H'). split; [by right|done].
Qed.

Lemma first_dangling_None ids sts :
  first_dangling ids sts = None ↔
  ∀ s d, s ∈ sts → d ∈ depends_on s → d ∈ ids.
Proof.
  induction sts as [|s sts IH]; cbn [first_dangling].
  - split; [|done]. intros _ s d Hs. by apply elem_of_nil in Hs.
  - destruct (first_missing ids (depends_on s)) as [d|] eqn:Hm.
    + split; [done|]. intros H. apply first_missing_Some in Hm as [Hd Hnot].
      exfalso. apply Hnot. apply (H s d); [left|done].
    + rewrite IH. split.
      * intros H s' d Hs' Hd. apply elem_of_cons in Hs' as [->|Hs'].
        -- by eapply first_missing_None.
        -- by eapply H.
      * intros H s' d Hs' Hd. eapply H; [by right|done].
Qed.

Lemma first_dangling_Some ids sts sid d :
  first_dangling ids sts = Some (sid, d) →
  ∃ s, s ∈ sts ∧ step_id s = sid ∧ d ∈ depends_on s ∧ d ∉ ids.
Proof.
  induction sts as [|s sts IH]; cbn [first_dangling]; [done|].
  destruct (first_missing ids (depends_on s)) as [d'|] eqn:Hm.
  - intros [= <- <-]. apply first_missing_Some in Hm as [? ?].
    exists s. split; [left|done].
  - intros H'. destruct (IH H') as (s' & ? & ?). exists s'. split; [by right|done].
Qed.

Lemma depends_map_edge sts a b :
  NoDup (ids_of sts) → depends sts a b ↔ map_edge (step_map_of sts) a b.
Proof.
  intros Hnd. split.
  - intros (s & Hs & <- & Hb). exists s. split; [|done].
    by apply step_map_of_lookup_NoDup.
  - intros (s & Hs & Hb). apply step_map_of_lookup_Some in Hs as [? ?].
    by exists s.
Qed.

Lemma tc_weaken {A} (R1 R2 : relation A) x y :
  (∀ a b, R1 a b → R2 a b) → tc R1 x y → tc R2 x y.
Proof.
  intros Hsub H. induction H as [x y H|x y z H _ IH].
  - by apply tc_once, Hsub.
  - eapply tc_l; [by apply Hsub|done].
Qed.

Lemma has_cycle_map sts :
  NoDup (ids_of sts) →
  has_cycle sts ↔ ∃ x, tc (map_edge (step_map_of sts)) x x.
Proof.
  intros Hnd. unfold has_cycle. split; intros [x Hx]; exists x.
  - eapply tc_weaken; [|exact Hx]. intros a b. by apply depends_map_edge.
  - eapply tc_weaken; [|exact Hx]. intros a b. by apply depends_map_edge.
Qed.

Lemma dfs_inv_empty smap : dfs_inv smap ∅ ∅.
Proof. split; set_solver. Qed.

(** With room for one nested call per step and one more, the traversal
    comes back and reports a cycle exactly when the dictionary of steps
    has one.  With less room it may hit the recursion limit; when it
    does not, its answer is still the right one. *)
Lemma check_circular_dependencies_spec frames sts :
  match _check_circular_dependencies frames sts with
  | Ok _ => ¬ ∃ x, tc (map_edge (step_map_of sts)) x x
  | Raise err =>
      ((∃ x, tc (map_edge (step_map_of sts)) x x)
       ∧ err = WorkflowDependencyError "Circular dependency detected in workflow")
      ∨ ((frames ≤ length sts)%nat
         ∧ err = RecursionError "maximum recursion depth exceeded")
  end.
Proof.
  unfold _check_circular_dependencies.
  assert (Hsize : (size (dom (step_map_of sts)) < S (length sts))%nat).
  { rewrite dom_step_map_of. pose proof (size_list_to_set_le (ids_of sts)) as [H _].
    unfold step_ids_of, ids_of in *. rewrite length_fmap in H. lia. }
  destruct (check_roots frames (step_map_of sts) sts ∅) as [r|] eqn:Hr.
  - destruct (check_roots_spec (step_map_of sts) (frames `max` S (length sts)) sts ∅)
      as (r' & Hr' & Hpost); [lia|apply dfs_inv_empty|].
    rewrite (check_roots_mono (step_map_of sts) frames
               (frames `max` S (length sts)) sts ∅ r ltac:(lia) Hr) in Hr'.
    injection Hr' as <-. destruct r as [[]|err]; [|by left].
    destruct Hpost as (V' & _ & Hinv & Hall). intros [x Hx].
    apply (inv_acyclic _ _ _ Hinv x); [|set_solver|done].
    destruct (tc_inv_l _ _ _ Hx) as (y & (s & Hs & _) & _).
    apply step_map_of_lookup_Some in Hs as [Hin <-]. by apply Hall.
  - right. split; [|done].
    destruct (decide (frames ≤ length sts)%nat) as [?|Hgt]; [done|].
    destruct (check_roots_spec (step_map_of sts) frames sts ∅)
      as (r' & Hr' & _); [lia|apply dfs_inv_empty|congruence].
Qed.

(** The three checks of [_validate_workflow_definition], in their
    order: what is raised, and for which defect. *)
Lemma validate_workflow_definition_spec frames sts :
  match _validate_workflow_definition frames sts with
  | Ok _ =>
      ¬ has_duplicate_ids sts ∧ ¬ has_dangling_dependency sts
      ∧ ¬ has_cycle sts
  | Raise err =>
      (has_duplicate_ids sts
       ∧ err = WorkflowError "Duplicate step IDs found in workflow")
      ∨ (¬ has_duplicate_ids sts ∧ has_dangling_dependency sts
         ∧ ∃ msg, err = WorkflowDependencyError msg)
      ∨ (¬ has_duplicate_ids sts ∧ ¬ has_dangling_dependency sts
         ∧ has_cycle sts
         ∧ err = WorkflowDependencyError
                   "Circular dependency detected in workflow")
      ∨ (¬ has_duplicate_ids sts ∧ ¬ has_dangling_dependency sts
         ∧ (frames ≤ length sts)%nat
         ∧ err = RecursionError "maximum recursion depth exceeded")
  end.
Proof.
  unfold _validate_workflow_definition, has_duplicate_ids.
  case_bool_decide as Hsize.
  { left. split; [|done]. intros Hnd. by apply Hsize, size_step_ids_of. }
  apply size_step_ids_of in Hsize.
  destruct (first_dangling (step_ids_of sts) sts) as [[sid d]|] eqn:Hd.
  { right. left. split; [by intros H; apply H|]. split; [|eauto].
    apply first_dangling_Some in Hd as (s & Hs & _ & Hdep & Hnot).
    exists s, d. split; [done|]. split; [done|].
    by rewrite <- elem_of_step_ids_of. }
  assert (Hnd : ¬ has_dangling_dependency sts).
  { intros (s & d & Hs & Hdep & Hnot). apply Hnot, elem_of_step_ids_of.
    eapply first_dangling_None; eauto. }
  pose proof (check_circular_dependencies_spec frames sts) as Hr.
  destruct (_check_circular_dependencies frames sts) as [[]|err].
  - split; [by intros H; apply H|]. split; [done|].
    by rewrite has_cycle_map.
  - destruct Hr as [[Hcyc ->]|[Hfr ->]].
    + right. right. left. split; [by intros H; apply H|]. split; [done|].
      split; [by rewrite has_cycle_map|done].
    + right. right. right. split; [by intros H; apply H|]. done.
Qed.

(** *** A chain longer than the recursion limit *)

Section long_chain.
Variable n : nat.

Lemma long_chain_id_inj (i j : nat) :
  "s" +:+ pretty i = "s" +:+ pretty j → i = j.
Proof. intros [= H]. by apply (inj pretty). Qed.

Lemma elem_of_long_chain s :
  s ∈ step_of_data <$> long_chain n ↔
  ∃ i : nat, (i < n)%nat
    ∧ s = mk_step ("s" +:+ pretty i) ("s" +:+ pretty i) "tool" ∅
                  (if bool_decide (S i < n)%nat then ["s" +:+ pretty (S i)] else [])
                  0.
Proof.
  unfold long_chain. rewrite <- list_fmap_compose, list_elem_of_fmap.
  split.
  - intros (i & -> & Hi). apply elem_of_seq in Hi. exists i. split; [lia|done].
  - intros (i & Hi & ->). exists i. split; [done|]. apply elem_of_seq. lia.
Qed.

Lemma ids_of_long_chain :
  ids_of (step_of_data <$> long_chain n)
  = (λ i : nat, "s" +:+ pretty i) <$> seq 0 n.
Proof.
  unfold ids_of, long_chain. rewrite <- !list_fmap_compose. done.
Qed.

Lemma long_chain_NoDup : NoDup (ids_of (step_of_data <$> long_chain n)).
Proof.
  rewrite ids_of_long_chain. apply NoDup_fmap_2_strong; [|apply NoDup_seq].
  intros i j _ _. apply long_chain_id_inj.
Qed.

Lemma long_chain_depends a b :
  depends (step_of_data <$> long_chain n) a b ↔
  ∃ i : nat, (S i < n)%nat ∧ a = "s" +:+ pretty i ∧ b = "s" +:+ pretty (S i).
Proof.
  unfold depends. split.
  - intros (s & Hs & <- & Hb). apply elem_of_long_chain in Hs as (i & Hi & ->).
    cbn in Hb. case_bool_decide; [|by apply elem_of_nil in Hb].
    apply list_elem_of_singleton in Hb as ->. by exists i.
  - intros (i & Hi & -> & ->). eexists. split.
    + apply elem_of_long_chain. exists i. split; [lia|reflexivity].
    + split; [done|]. cbn. rewrite bool_decide_eq_true_2 by done. left.
Qed.

Lemma long_chain_ascends a b :
  tc (depends (step_of_data <$> long_chain n)) a b →
  ∃ i j : nat, (i < j)%nat ∧ a = "s" +:+ pretty i ∧ b = "s" +:+ pretty j.
Proof.
  induction 1 as [a b Hab|a b c Hab _ (j & k & Hjk & Hb & ->)].
  - apply long_chain_depends in Hab as (i & _ & -> & ->). exists i, (S i).
    split; [lia|done].
  - apply long_chain_depends in Hab as (i & _ & -> & ->).
    apply long_chain_id_inj in Hb as <-. exists i, k. split; [lia|done].
Qed.

(** The chain has none of the three defects. *)
Lemma long_chain_defect_free :
  ¬ (has_duplicate_ids (step_of_data <$> long_chain n)
     ∨ has_dangling_dependency (step_of_data <$> long_chain n)
     ∨ has_cycle (step_of_data <$> long_chain n)).
Proof.
  intros [Hdup|[(s & d & Hs & Hd & Hnot)|[x Hx]]].
  - apply Hdup, long_chain_NoDup.
  - apply elem_of_long_chain in Hs as (i & Hi & ->). cbn in Hd.
    case_bool_decide; [|by apply elem_of_nil in Hd].
    apply list_elem_of_singleton in Hd as ->. apply Hnot.
    rewrite ids_of_long_chain. apply list_elem_of_fmap. exists (S i).
    split; [done|]. apply elem_of_seq. lia.
  - apply long_chain_ascends in Hx as (i & j & Hij & -> & Hj).
    apply long_chain_id_inj in Hj. lia.
Qed.

Lemma long_chain_lookup (i : nat) :
  (i < n)%nat →
  step_map_of (step_of_data <$> long_chain n) !! ("s" +:+ pretty i)
  = Some (mk_step ("s" +:+ pretty i) ("s" +:+ pretty i) "tool" ∅
            (if bool_decide (S i < n)%nat then ["s" +:+ pretty (S i)] else [])
            0).
Proof.
  intros Hi.
  apply (step_map_of_lookup_NoDup _ (mk_step ("s" +:+ pretty i) _ _ _ _ _));
    [apply long_chain_NoDup|].
  apply elem_of_long_chain. by exists i.
Qed.

(** From step [i] on, the search needs one nested call per step that
    is left: with fewer to spend it runs out. *)
Lemma long_chain_runs_out fuel : ∀ (i : nat) V P,
  (fuel + i < n)%nat →
  (∀ j : nat, (i ≤ j)%nat → ("s" +:+ pretty j ∉ V) ∧ ("s" +:+ pretty j ∉ P)) →
  has_circular_dependency fuel (step_map_of (step_of_data <$> long_chain n))
                          ("s" +:+ pretty i) V P = None.
Proof.
  induction fuel as [|fuel IH]; intros i V P Hfuel Hfresh; [done|].
  cbn [has_circular_dependency].
  destruct (Hfresh i) as [HV HP]; [lia|].
  rewrite bool_decide_eq_false_2 by done.
  rewrite bool_decide_eq_false_2 by done.
  rewrite long_chain_lookup by lia. cbn [depends_on mk_step].
  rewrite bool_decide_eq_true_2 by lia. cbn [each_dependency].
  rewrite IH; [done|lia|].
  intros j Hj. destruct (Hfresh j) as [? ?]; [lia|].
  assert ("s" +:+ pretty j ≠ "s" +:+ pretty i)
    by (intros Heq; apply long_chain_id_inj in Heq; lia).
  set_solver.
Qed.
End long_chain.

(** A chain with one step more than the interpreter has room for nested
    calls is refused with [RecursionError]. *)
Lemma long_chain_exceeds_recursion_limit frames wm wid nm descr timeout par :
  create_workflow frames wm wid nm descr (long_chain (S frames)) timeout par
  = (Raise (RecursionError "maximum recursion depth exceeded"), wm).
Proof.
  pose proof (long_chain_defect_free (S frames)) as Hfree.
  unfold create_workflow.
  assert (Hcheck : _check_circular_dependencies frames
                     (step_of_data <$> long_chain (S frames))
                   = Raise (RecursionError "maximum recursion depth exceeded")).
  { unfold _check_circular_dependencies.
    change (long_chain (S frames))
      with ((λ i : nat,
               step_data ("s" +:+ pretty i) "tool"
                 (if bool_decide (S i < S frames)%nat
                  then ["s" +:+ pretty (S i)] else []) 0) <$> (0%nat :: seq 1 frames))
      at 2.
    cbn [fmap list_fmap check_roots step_id step_of_data step_data mk_step
         sd_step_id].
    rewrite bool_decide_eq_false_2 by set_solver.
    rewrite (long_chain_runs_out (S frames) frames 0); [done|lia|].
    intros j _. set_solver. }
  unfold _validate_workflow_definition. rewrite Hcheck.
  rewrite bool_decide_eq_false_2.
  2:{ intros Hne. apply Hne, size_step_ids_of, long_chain_NoDup. }
  destruct (first_dangling _ _) as [[sid d]|] eqn:Hd; [|done].
  exfalso. apply Hfree. right. left.
  apply first_dangling_Some in Hd as (s & Hs & _ & Hdep & Hnot).
  exists s, d. split; [done|]. split; [done|].
  by rewrite <- elem_of_step_ids_of.
Qed.

(** C7 (counterexample): the chain of two steps has none of the three
    defects, yet with a timeout of 0 minutes [create_workflow] raises
    the validation error of the model class and stores nothing; and a
    chain of 1001 steps, each depending on the next, has none of the
    defects either, yet under the default recursion limit the cycle
    search raises [RecursionError], which is no workflow error, and
    nothing is stored. *)
Lemma defect_free_definitions_are_refused :
  (¬ (has_duplicate_ids (step_of_data <$> chain_of_two)
      ∨ has_dangling_dependency (step_of_data <$> chain_of_two)
      ∨ has_cycle (step_of_data <$> chain_of_two))
   ∧ create_workflow 1000 new "w" "w" "w" chain_of_two 0 false
     = (Raise (ValidationError "timeout_minutes"), new))
  ∧ (¬ (has_duplicate_ids (step_of_data <$> long_chain 1001)
        ∨ has_dangling_dependency (step_of_data <$> long_chain 1001)
        ∨ has_cycle (step_of_data <$> long_chain 1001))
     ∧ create_workflow 1000 new "w" "w" "w" (long_chain 1001) 30 false
       = (Raise (RecursionError "maximum recursion depth exceeded"), new)
     ∧ is_WorkflowError (RecursionError "maximum recursion depth exceeded")
       = false).
Proof.
  split; split.
  - pose proof (validate_workflow_definition_spec 3 (step_of_data <$> chain_of_two))
      as H.
    replace (_validate_workflow_definition 3 (step_of_data <$> chain_of_two))
      with (Ok tt : result unit) in H by (vm_compute; reflexivity).
    tauto.
  - vm_compute. reflexivity.
  - apply (long_chain_defect_free 1001).
  - split; [|reflexivity].
    apply (long_chain_exceeds_recursion_limit 1000 new "w" "w" "w" 30 false).
Qed.

(** C7 (amended): a workflow error raised by [create_workflow] always
    stands for one of the three defects, and shared ids and dangling
    dependencies are always refused with one.  When the interpreter has
    room for one nested call per step and one more, [create_workflow]
    raises a workflow error, leaving the manager as it was, exactly
    when two steps share an id, a dependency names no step or the
    dependencies form a cycle, a cycle being reported as a dependency
    error; the validation then lets through exactly the definitions
    free of the three, and such a definition is returned and stored
    when its timeout is one that the model class takes, 1 to 480
    minutes, and refused with the validation error otherwise.  Whatever
    is raised, nothing is stored; and what is raised is a workflow
    error, that validation error, or, only when the room for nested
    calls does not exceed the number of steps, [RecursionError]. *)
Theorem create_workflow_rejects_exactly_defects
    frames wm wid nm descr sds timeout par :
  let sts := step_of_data <$> sds in
  let defect :=
    has_duplicate_ids sts ∨ has_dangling_dependency sts ∨ has_cycle sts in
  let refused :=
    ∃ err, create_workflow frames wm wid nm descr sds timeout par = (Raise err, wm)
           ∧ is_WorkflowError err = true in
  (refused → defect)
  ∧ (has_duplicate_ids sts ∨ has_dangling_dependency sts → refused)
  ∧ ((length sds < frames)%nat →
     (defect ↔ refused)
     ∧ (¬ has_duplicate_ids sts → ¬ has_dangling_dependency sts → has_cycle sts →
        create_workflow frames wm wid nm descr sds timeout par
        = (Raise (WorkflowDependencyError
                    "Circular dependency detected in workflow"), wm))
     ∧ (¬ defect ↔ _validate_workflow_definition frames sts = Ok tt)
     ∧ (¬ defect → 1 ≤ timeout ≤ 480 →
        ∃ def,
          create_workflow frames wm wid nm descr sds timeout par
          = (Ok def,
             {| active_workflows := active_workflows wm;
                workflow_definitions := <[wid := def]> (workflow_definitions wm) |})
          ∧ steps def = sts ∧ parallel_execution def = par
          ∧ timeout_minutes def = timeout)
     ∧ (¬ defect → ¬ 1 ≤ timeout ≤ 480 →
        create_workflow frames wm wid nm descr sds timeout par
        = (Raise (ValidationError "timeout_minutes"), wm)))
  ∧ (∀ err wm',
       create_workflow frames wm wid nm descr sds timeout par = (Raise err, wm') →
       wm' = wm
       ∧ (is_WorkflowError err = true
          ∨ err = ValidationError "timeout_minutes"
          ∨ (err = RecursionError "maximum recursion depth exceeded"
             ∧ (frames ≤ length sds)%nat))).
Proof.
  intros sts defect refused. subst defect refused. unfold create_workflow. fold sts.
  pose proof (validate_workflow_definition_spec frames sts) as Hr.
  assert (Hlen : length sts = length sds) by (unfold sts; apply length_fmap).
  destruct (_validate_workflow_definition frames sts) as [[]|err].
  - destruct Hr as (Hdup & Hdang & Hcyc).
    assert (Hnot : ∀ e : Prop, (∃ err0, match mk_definition wid nm descr sts timeout par with
                                 | Ok workflow =>
                                     (Ok workflow,
                                      {| active_workflows := active_workflows wm;
                                         workflow_definitions :=
                                           <[wid := workflow]> (workflow_definitions wm) |})
                                 | Raise e0 => (Raise e0, wm)
                                 end = (Raise err0, wm)
                                 ∧ is_WorkflowError err0 = true) → e).
    { intros e (err0 & H & Herr). unfold mk_definition in H.
      case_bool_decide; by simplify_eq. }
    split; [apply Hnot|]. split; [tauto|]. split.
    + intros _. split; [split; [tauto|apply Hnot]|]. split; [tauto|].
      split; [split; [done|tauto]|]. split.
      * intros _ Ht. unfold mk_definition. rewrite bool_decide_eq_true_2 by done.
        eexists. split; [reflexivity|]. done.
      * intros _ Ht. unfold mk_definition. by rewrite bool_decide_eq_false_2.
    + intros err wm' H. unfold mk_definition in H.
      case_bool_decide; simplify_eq. split; [done|]. right. by left.
  - split; [|split; [|split]].
    + intros (err0 & [= <-] & Herr).
      destruct Hr as [[? _]|[(_ & ? & _)|[(_ & _ & ? & _)|(_ & _ & _ & ->)]]];
        [tauto..|done].
    + intros Hdd.
      destruct Hr as [[? ->]|[(_ & ? & msg & ->)|[(? & ? & _)|(? & ? & _)]]];
        [by eexists|by eexists|tauto..].
    + intros Hfr.
      assert (Hwe : is_WorkflowError err = true).
      { destruct Hr as [[_ ->]|[(_ & _ & msg & ->)|[(_ & _ & _ & ->)|(_ & _ & ? & _)]]];
          [done..|lia]. }
      assert (Hdefect : has_duplicate_ids sts ∨ has_dangling_dependency sts
                        ∨ has_cycle sts).
      { destruct Hr as [[? _]|[(_ & ? & _)|[(_ & _ & ? & _)|(_ & _ & ? & _)]]];
          [tauto..|lia]. }
      split; [split; [by eexists|done]|].
      split.
      { intros Hdup Hdang Hcyc.
        destruct Hr as [[? _]|[(_ & ? & _)|[(_ & _ & _ & ->)|(_ & _ & ? & _)]]];
          [tauto|tauto|done|lia]. }
      split; [split; [tauto|discriminate]|].
      split; intros Hnot; exfalso; tauto.
    + intros err0 wm' [= <- <-]. split; [done|].
      destruct Hr as [[_ ->]|[(_ & _ & msg & ->)|[(_ & _ & _ & ->)|(_ & _ & ? & ->)]]];
        [by left..|].
      right. right. split; [done|lia].
Qed.

(** The cycle of the three steps [a], [b], [c] is refused with the
    dependency error, and a chain of two is stored. *)
Lemma create_workflow_rejects_exactly_defects_witness :
  let sts := step_of_data <$> cycle_of_three in
  (length cycle_of_three < 1000)%nat
  ∧ (¬ has_duplicate_ids sts ∧ ¬ has_dangling_dependency sts ∧ has_cycle sts)
  ∧ create_workflow 1000 new "w" "w" "w" cycle_of_three 30 false
    = (Raise (WorkflowDependencyError
                "Circular dependency detected in workflow"), new)
  ∧ ¬ (has_duplicate_ids (step_of_data <$> chain_of_two)
       ∨ has_dangling_dependency (step_of_data <$> chain_of_two)
       ∨ has_cycle (step_of_data <$> chain_of_two))
  ∧ ∃ def,
      create_workflow 1000 new "w" "w" "w" chain_of_two 30 false
      = (Ok def,
         {| active_workflows := active_workflows new;
            workflow_definitions := <["w" := def]> (workflow_definitions new) |})
      ∧ steps def = step_of_data <$> chain_of_two
      ∧ parallel_execution def = false
      ∧ timeout_minutes def = 30.
Proof.
  intros sts.
  assert (Hlen3 : (length cycle_of_three < 1000)%nat) by (cbn; lia).
  assert (Hlen2 : (length chain_of_two < 1000)%nat) by (cbn; lia).
  assert (Hdup : ¬ has_duplicate_ids sts).
  { intros H. apply H. apply (bool_decide_unpack (NoDup (ids_of sts))).
    vm_compute. exact I. }
  assert (Hdang : ¬ has_dangling_dependency sts).
  { intros (s & dep & Hs & Hdep & Hnot). apply Hnot, elem_of_step_ids_of.
    eapply (first_dangling_None (step_ids_of sts) sts); [|exact Hs|exact Hdep].
    vm_compute. reflexivity. }
  assert (Hcyc : has_cycle sts).
  { exists "a".
    assert (Hedge : ∀ x y, (step_data x x [y] 0) ∈ cycle_of_three →
                           depends sts x y).
    { intros x y Hin. exists (step_of_data (step_data x x [y] 0)).
      split; [by apply list_elem_of_fmap_2|]. split; [reflexivity|]. cbn. left. }
    eapply tc_l; [apply (Hedge "a" "c"); set_solver|].
    eapply tc_l; [apply (Hedge "c" "b"); set_solver|].
    apply tc_once. apply (Hedge "b" "a"). set_solver. }
  pose proof (create_workflow_rejects_exactly_defects 1000 new "w" "w" "w"
                cycle_of_three 30 false) as (_ & _ & H3 & _).
  pose proof (create_workflow_rejects_exactly_defects 1000 new "w" "w" "w"
                chain_of_two 30 false) as (_ & _ & H2 & _).
  destruct (H3 Hlen3) as (_ & Hcycle & _).
  destruct (H2 Hlen2) as (_ & _ & Hvalid & Hstored & _).
  assert (Hchain : ¬ (has_duplicate_ids (step_of_data <$> chain_of_two)
                      ∨ has_dangling_dependency (step_of_data <$> chain_of_two)
                      ∨ has_cycle (step_of_data <$> chain_of_two))).
  { apply Hvalid. vm_compute. reflexivity. }
  split; [exact Hlen3|]. split; [by split|].
  split; [by apply Hcycle|].
  split; [exact Hchain|].
  apply Hstored; [exact Hchain|lia].
Defined.

(** ** Steps behind a failed step *)

Section safety.
Variable env : Env.

Lemma attempts_effect n : ∀ attempt e step tr r e' step' tr',
  attempts env n attempt e step tr = (r, e', step', tr') →
  step_id step' = step_id step ∧ depends_on step' = depends_on step
  ∧ step_effect (step_id step) e e'
  ∧ ∃ more, tr' = tr ++ more ∧ Forall (retry_event (step_id step)) more.
Proof.
  induction n as [|n IH]; intros attempt e step tr r e' step' tr' H;
    cbn [attempts] in H.
  - simplify_eq. split; [done|]. split; [done|].
    split; [right; right; done|]. exists []. by rewrite app_nil_r.
  - set (e0 := if cancel_during env (step_id step) attempt
               then cancel_execution e else e) in H.
    assert (He0 : completed_steps e0 = completed_steps e
                  ∧ failed_steps e0 = failed_steps e ∧ errors e0 = errors e)
      by (subst e0; by destruct (cancel_during env _ _)).
    destruct He0 as (Hc0 & Hf0 & He0).
    destruct (_call_mcp_tool env _ _ _ _) as [resp|err].
    + simplify_eq. split; [done|]. split; [done|]. split.
      * left. cbn. by rewrite Hc0, Hf0, He0.
      * eexists. split; [done|]. by repeat constructor.
    + case_bool_decide.
      * apply IH in H as (Hid & Hdep & Heff & more & -> & Hmore).
        cbn in Hid, Hdep, Heff, Hmore.
        split; [done|]. split; [done|]. split.
        -- destruct Heff as [(?&?&?)|[(?&?&msg&?)|(?&?&?)]].
           ++ left. by rewrite <- Hc0, <- Hf0, <- He0.
           ++ right; left. rewrite <- Hc0, <- Hf0, <- He0. eauto.
           ++ right; right. by rewrite <- Hc0, <- Hf0, <- He0.
        -- exists ([Call (step_id step) (tool_name step) attempt;
                    Sleep (2 ^ Z.of_nat attempt)] ++ more).
           split; [by rewrite <- !app_assoc|].
           apply Forall_app. split; [by repeat constructor|done].
      * simplify_eq. split; [done|]. split; [done|]. split.
        -- right; left. cbn. rewrite Hc0, Hf0, He0. eauto.
        -- eexists. split; [done|]. by repeat constructor.
Qed.

Lemma retry_event_not_started sid more x :
  Forall (retry_event sid) more → Started x ∉ more.
Proof.
  intros Hall Hin. rewrite Forall_forall in Hall. by apply Hall in Hin.
Qed.

Lemma retry_event_call sid more x tool attempt :
  Forall (retry_event sid) more → Call x tool attempt ∈ more → x = sid.
Proof.
  intros Hall Hin. rewrite Forall_forall in Hall. by apply Hall in Hin.
Qed.

(** A step that was started with its dependencies completed and is in
    neither list may run its retry loop. *)
Lemma safe_after_step deps sid e e' tr more :
  safe deps e tr →
  Started sid ∈ tr →
  sid ∉ completed_steps e → sid ∉ failed_steps e →
  step_effect sid e e' →
  Forall (retry_event sid) more →
  safe deps e' (tr ++ more).
Proof.
  intros Hs Hst Hnc Hnf Heff Hmore.
  assert (Hsub : ∀ x, x ∈ completed_steps e → x ∈ completed_steps e').
  { intros x Hx. destruct Heff as [(-> & _)|[(-> & _)|(-> & _)]]; set_solver. }
  assert (Hcomp : ∀ x, x ∈ completed_steps e' → x ∈ completed_steps e ∨ x = sid).
  { intros x Hx. destruct Heff as [(Hc&_)|[(Hc&_)|(Hc&_)]]; rewrite Hc in Hx;
      set_solver. }
  split.
  - intros x ds d Hx Hds Hd. apply elem_of_app in Hx as [Hx|Hx].
    + apply Hsub. by eapply (safe_ready _ _ _ Hs).
    + by apply (retry_event_not_started _ _ _ Hmore) in Hx.
  - intros x tool attempt Hx. apply elem_of_app. left.
    apply elem_of_app in Hx as [Hx|Hx].
    + by eapply (safe_call _ _ _ Hs).
    + by rewrite (retry_event_call _ _ _ _ _ Hmore Hx).
  - intros x Hx. apply elem_of_app. left.
    destruct (Hcomp x Hx) as [?| ->]; [by apply (safe_completed _ _ _ Hs)|done].
  - intros x Hx Hf. destruct Heff as [(Hc&Hfe&_)|[(Hc&Hfe&_)|(Hc&Hfe&_)]];
      rewrite Hc in Hx; rewrite Hfe in Hf.
    + apply elem_of_app in Hx as [Hx|Hx].
      * by apply (safe_disjoint _ _ _ Hs x).
      * apply list_elem_of_singleton in Hx as ->. done.
    + apply elem_of_app in Hf as [Hf|Hf].
      * by apply (safe_disjoint _ _ _ Hs x).
      * apply list_elem_of_singleton in Hf as ->. done.
    + by apply (safe_disjoint _ _ _ Hs x).
  - intros x Hx. apply elem_of_app. left.
    destruct Heff as [(_&_&He)|[(_&_&msg&He)|(_&_&He)]]; rewrite He in Hx.
    + by apply (safe_errors _ _ _ Hs).
    + destruct (decide (x = sid)) as [->|Hne]; [done|].
      rewrite lookup_insert_ne in Hx by done. by apply (safe_errors _ _ _ Hs).
    + by apply (safe_errors _ _ _ Hs).
Qed.

(** Entering a step whose dependencies are completed. *)
Lemma safe_enter deps sid ds e tr :
  safe deps e tr →
  deps sid = Some ds →
  (∀ d, d ∈ ds → d ∈ completed_steps e) →
  safe deps (set_current_step sid e) (tr ++ [Started sid]).
Proof.
  intros Hs Hds Hready. split; cbn.
  - intros x ds' d Hx Hds' Hd. apply elem_of_app in Hx as [Hx|Hx].
    + by eapply (safe_ready _ _ _ Hs).
    + apply list_elem_of_singleton in Hx. simplify_eq. by apply Hready.
  - intros x tool attempt Hx. apply elem_of_app. left.
    apply elem_of_app in Hx as [Hx|Hx]; [by eapply (safe_call _ _ _ Hs)|].
    by apply list_elem_of_singleton in Hx.
  - intros x Hx. apply elem_of_app. left. by apply (safe_completed _ _ _ Hs).
  - apply (safe_disjoint _ _ _ Hs).
  - intros x Hx. apply elem_of_app. left. by apply (safe_errors _ _ _ Hs).
Qed.

Lemma is_ready_true e step d :
  is_ready e step = true → d ∈ depends_on step → d ∈ completed_steps e.
Proof.
  unfold is_ready. rewrite forallb_forall. intros H Hd.
  apply list_elem_of_In in Hd. apply H in Hd. by apply bool_decide_eq_true_1 in Hd.
Qed.

Lemma ready_steps_elem e smap ids : ∀ l step,
  ready_steps e smap ids = Ok l → step ∈ l →
  ∃ sid, sid ∈ ids ∧ smap !! sid = Some step ∧ is_ready e step = true.
Proof.
  induction ids as [|sid ids IH]; intros l step H Hin; cbn [ready_steps] in H.
  - simplify_eq. by apply elem_of_nil in Hin.
  - destruct (smap !! sid) as [s|] eqn:Hs; [|done].
    destruct (ready_steps e smap ids) as [l'|]; [|done]. simplify_eq.
    destruct (is_ready e s) eqn:Hr.
    + apply elem_of_cons in Hin as [->|Hin].
      * exists sid. split; [left|done].
      * destruct (IH l' step eq_refl Hin) as (x & ? & ?). exists x.
        split; [by right|done].
    + destruct (IH l' step eq_refl Hin) as (x & ? & ?). exists x.
      split; [by right|done].
Qed.

Lemma failed_deps_subset e smap ids : ∀ fd x,
  failed_deps e smap ids = Ok fd → x ∈ fd → x ∈ ids.
Proof.
  induction ids as [|sid ids IH]; intros fd x H Hin; cbn [failed_deps] in H.
  - simplify_eq. set_solver.
  - destruct (smap !! sid); [|done].
    destruct (failed_deps e smap ids) as [fd'|]; [|done]. simplify_eq.
    destruct (existsb _ _).
    + apply elem_of_union in Hin as [Hin|Hin]; [set_solver|].
      right. by eapply IH.
    + right. by eapply IH.
Qed.
End safety.

Section safety_loops.
Variable env : Env.
Variable deps : string → option (list string).
Hypothesis set_iter_elem : ∀ (s : gset string) x, x ∈ set_iter env s → x ∈ s.

Lemma step_effect_others sid e e' x :
  step_effect sid e e' → x ≠ sid →
  (x ∈ completed_steps e' → x ∈ completed_steps e)
  ∧ (x ∈ failed_steps e' → x ∈ failed_steps e).
Proof.
  intros [(-> & -> & _)|[(-> & -> & _)|(-> & -> & _)]] Hne; set_solver.
Qed.

(** The retry loop of a started step keeps the record safe. *)
Lemma run_attempts_safe e step tr r e' step' tr' :
  safe deps e tr →
  Started (step_id step) ∈ tr →
  step_id step ∉ completed_steps e → step_id step ∉ failed_steps e →
  run_attempts env e step tr = (r, e', step', tr') →
  safe deps e' tr'
  ∧ step_id step' = step_id step ∧ depends_on step' = depends_on step
  ∧ step_effect (step_id step) e e'
  ∧ ∀ ev, ev ∈ tr → ev ∈ tr'.
Proof.
  intros Hs Hst Hnc Hnf H. unfold run_attempts in H.
  apply attempts_effect in H as (Hid & Hdep & Heff & more & -> & Hmore).
  split; [by eapply safe_after_step|]. split; [done|]. split; [done|].
  split; [done|]. intros ev Hev. apply elem_of_app. by left.
Qed.

(** The failed-dependency branch, on ids none of which is completed. *)
Lemma skip_failed_inv ids : ∀ st r st',
  loop_inv deps st →
  (∀ x, x ∈ ids → x ∉ completed_steps (execution st)) →
  skip_failed ids st = (r, st') →
  safe deps (execution st') (trace st') ∧ (r = Ok tt → loop_inv deps st').
Proof.
  induction ids as [|sid ids IH]; intros st r st' Hinv Hids H;
    cbn [skip_failed] in H.
  { simplify_eq. split; [apply Hinv|done]. }
  assert (Hsafe : safe deps (append_failed sid (execution st)) (trace st)).
  { destruct Hinv as [[S1 S2 S3 S4 S5] _ _ _ _]. split; cbn; try done.
    intros x Hx Hf. apply elem_of_app in Hf as [Hf|Hf]; [by apply (S4 x)|].
    apply list_elem_of_singleton in Hf as ->. apply (Hids sid); [left|done]. }
  unfold remove_remaining in H. cbn [remaining_steps] in H.
  case_bool_decide as Hin; [|simplify_eq; by split].
  apply IH in H; [done| |].
  - destruct Hinv as [Hs Hshape Hid Hrem Hrunning].
    destruct (Hrem sid Hin) as (_ & _ & Hnone).
    split; cbn; try done.
    + intros x Hx. apply elem_of_difference in Hx as [Hx Hne].
      destruct (Hrem x Hx) as (? & ? & ?). split; [done|]. split; [|done].
      intros Hf. apply elem_of_app in Hf as [Hf|Hf]; [done|].
      apply list_elem_of_singleton in Hf. set_solver.
    + intros x s Hx. destruct (Hrunning x s Hx) as (? & ? & ? & ? & Hxf).
      split; [done|]. split; [done|]. split; [done|]. split; [done|].
      intros Hf. apply elem_of_app in Hf as [Hf|Hf]; [done|].
      apply list_elem_of_singleton in Hf as ->. congruence.
  - cbn. intros x Hx. apply Hids. by right.
Qed.

Lemma seq_body_inv st r st' :
  loop_inv deps st →
  seq_body env st = (r, st') →
  safe deps (execution st') (trace st') ∧ (r = Ok tt → loop_inv deps st').
Proof.
  intros Hinv H. unfold seq_body in H.
  destruct (ready_steps _ _ _) as [[|step l]|err] eqn:Hready.
  - destruct (failed_deps _ _ _) as [fd|err] eqn:Hfd.
    2:{ simplify_eq. split; [apply Hinv|done]. }
    case_bool_decide; [simplify_eq; split; [apply Hinv|done]|].
    eapply skip_failed_inv; [done| |exact H].
    intros x Hx. apply set_iter_elem in Hx.
    eapply failed_deps_subset in Hx; [|exact Hfd]. apply set_iter_elem in Hx.
    by apply (li_remaining _ _ Hinv).
  - destruct (ready_steps_elem _ _ _ _ step Hready) as (sid & Hsid & Hstep & Hr);
      [left|].
    apply set_iter_elem in Hsid.
    destruct Hinv as [Hs Hshape Hid Hrem Hrunning].
    pose proof (Hid _ _ Hstep) as Hsid_eq.
    pose proof (Hshape sid) as Hdeps. rewrite Hstep in Hdeps. cbn in Hdeps.
    destruct (Hrem sid Hsid) as (Hnc & Hnf & Hnone).
    unfold _execute_step, enter_step in H. rewrite Hsid_eq in H.
    destruct (run_attempts env _ _ _) as [[[r1 e1] step1] tr1] eqn:Hat.
    assert (Hs0 : safe deps (set_current_step sid (execution st))
                       (trace st ++ [Started sid])).
    { apply (safe_enter deps sid (depends_on step)); [done|done|].
      intros d. by apply is_ready_true. }
    destruct (run_attempts_safe (set_current_step sid (execution st))
                (step_running step) (trace st ++ [Started sid]) r1 e1 step1 tr1)
      as (Hs1 & Hid1 & Hdep1 & Heff & Hext);
      [exact Hs0
      |cbn; rewrite Hsid_eq; apply elem_of_app; right; left
      |cbn; by rewrite Hsid_eq
      |cbn; by rewrite Hsid_eq
      |exact Hat|].
    cbn [step_id depends_on step_running] in Hid1, Hdep1, Heff.
    rewrite Hsid_eq in Hid1, Heff.
    destruct r1 as [[]|err]; [|simplify_eq; by split].
    unfold remove_remaining in H. cbn [remaining_steps after_step] in H.
    rewrite bool_decide_eq_true_2 in H by done. injection H as <- <-.
    split; [done|]. intros _. split; cbn; try done.
    + intros k. rewrite Hid1, lookup_insert. case_decide as Hk.
      * subst k. cbn. by rewrite Hdep1.
      * apply Hshape.
    + intros k s. rewrite Hid1, lookup_insert. case_decide as Hk.
      * intros [= <-]. by subst k.
      * apply Hid.
    + intros x Hx. apply elem_of_difference in Hx as [Hx Hne].
      destruct (Hrem x Hx) as (? & ? & ?).
      destruct (step_effect_others _ _ _ x Heff) as [Hc Hf]; [set_solver|].
      cbn in Hc, Hf. split; [tauto|]. split; [tauto|done].
    + intros x s Hx. destruct (Hrunning x s Hx) as (? & ? & ? & ? & ?).
      assert (x ≠ sid) by congruence.
      destruct (step_effect_others _ _ _ x Heff) as [Hc Hf]; [done|].
      cbn in Hc, Hf. split; [done|]. split; [done|].
      split; [apply Hext, elem_of_app; by left|]. split; tauto.
  - simplify_eq. split; [apply Hinv|done].
Qed.

Lemma sequential_loop_safe fuel : ∀ st,
  loop_inv deps st →
  safe deps (execution (sequential_loop env fuel st).2)
       (trace (sequential_loop env fuel st).2).
Proof.
  induction fuel as [|fuel IH]; intros st Hinv; cbn [sequential_loop];
    case_bool_decide; try apply Hinv.
  destruct (seq_body env st) as [[[]|err] st1] eqn:Hb;
    apply seq_body_inv in Hb as [Hs Hl]; try done.
  apply IH. by apply Hl.
Qed.

(** Creating the tasks of steps that were found ready. *)
Lemma start_tasks_inv ready : ∀ st r st',
  loop_inv deps st →
  (∀ step, step ∈ ready →
     deps (step_id step) = Some (depends_on step)
     ∧ ∀ d, d ∈ depends_on step → d ∈ completed_steps (execution st)) →
  start_tasks ready st = (r, st') →
  safe deps (execution st') (trace st') ∧ (r = Ok tt → loop_inv deps st').
Proof.
  induction ready as [|step ready IH]; intros st r st' Hinv Hready H;
    cbn [start_tasks] in H.
  { simplify_eq. split; [apply Hinv|done]. }
  destruct (Hready step) as [Hdeps Hcompl]; [left|].
  unfold enter_step in H.
  assert (Hs0 : safe deps (set_current_step (step_id step) (execution st))
                     (trace st ++ [Started (step_id step)])).
  { eapply safe_enter; [apply Hinv|exact Hdeps|exact Hcompl]. }
  unfold remove_remaining in H. cbn [remaining_steps] in H.
  case_bool_decide as Hin; [|injection H as <- <-; by split].
  apply IH in H; [done| |].
  - destruct Hinv as [Hs Hshape Hid Hrem Hrunning].
    destruct (Hrem _ Hin) as (Hnc & Hnf & Hnone).
    split; cbn; try done.
    + intros k. rewrite lookup_insert. case_decide as Hk.
      * subst k. cbn. by rewrite Hdeps.
      * apply Hshape.
    + intros k s. rewrite lookup_insert. case_decide as Hk.
      * intros [= <-]. by subst k.
      * apply Hid.
    + intros x Hx. apply elem_of_difference in Hx as [Hx Hne].
      destruct (Hrem x Hx) as (? & ? & ?). split; [done|]. split; [done|].
      rewrite lookup_insert_ne; [done|set_solver].
    + intros x s. rewrite lookup_insert. case_decide as Hk.
      * intros [= <-]. subst x. cbn. split; [done|]. split; [done|].
        split; [apply elem_of_app; right; left|done].
      * intros Hx. destruct (Hrunning x s Hx) as (? & ? & ? & ? & ?).
        split; [done|]. split; [done|].
        split; [apply elem_of_app; by left|done].
  - cbn. intros s Hs. destruct (Hready s) as [? ?]; [by right|done].
Qed.

(** A task that finishes. *)
Lemma finish_task_inv st sid :
  loop_inv deps st → loop_inv deps (finish_task env st sid).
Proof.
  intros Hinv. unfold finish_task.
  destruct (running_tasks st !! sid) as [[step|]|] eqn:Htask; try done.
  destruct Hinv as [Hs Hshape Hid Hrem Hrunning].
  destruct (Hrunning sid step Htask) as (Hsid & Hdeps & Hst & Hnc & Hnf).
  destruct (run_attempts env _ _ _) as [[[r1 e1] step1] tr1] eqn:Hat.
  destruct (run_attempts_safe (execution st) step (trace st) r1 e1 step1 tr1)
    as (Hs1 & Hid1 & Hdep1 & Heff & Hext);
    [done|by rewrite Hsid|by rewrite Hsid|by rewrite Hsid|done|].
  rewrite Hsid in Hid1, Heff.
  split; cbn; try done.
  - intros k. rewrite Hsid, lookup_insert. case_decide as Hk.
    + subst k. cbn. by rewrite Hdep1.
    + apply Hshape.
  - intros k s. rewrite Hsid, lookup_insert. case_decide as Hk.
    + intros [= <-]. by subst k.
    + apply Hid.
  - intros x Hx. destruct (Hrem x Hx) as (? & ? & Hnone).
    assert (x ≠ sid) by congruence.
    destruct (step_effect_others _ _ _ x Heff) as [Hc Hf]; [done|].
    split; [tauto|]. split; [tauto|]. by rewrite lookup_insert_ne.
  - intros x s. rewrite lookup_insert. case_decide as Hk; [done|].
    intros Hx. destruct (Hrunning x s Hx) as (? & ? & ? & ? & ?).
    destruct (step_effect_others _ _ _ x Heff) as [Hc Hf]; [done|].
    split; [done|]. split; [done|]. split; [by apply Hext|]. split; tauto.
Qed.

Lemma finish_tasks_inv ids : ∀ st,
  loop_inv deps st → loop_inv deps (foldl (finish_task env) st ids).
Proof.
  induction ids as [|sid ids IH]; intros st Hinv; cbn [foldl]; [done|].
  apply IH. by apply finish_task_inv.
Qed.

Lemma par_body_inv st r st' :
  loop_inv deps st →
  par_body env st = (r, st') →
  safe deps (execution st') (trace st') ∧ (r = Ok tt → loop_inv deps st').
Proof.
  intros Hinv H. unfold par_body in H.
  destruct (ready_steps _ _ _) as [ready|err] eqn:Hready.
  2:{ simplify_eq. split; [apply Hinv|done]. }
  destruct (start_tasks ready st) as [r1 st1] eqn:Hstart.
  apply start_tasks_inv in Hstart as [Hs1 Hl1]; [|done|].
  2:{ intros step Hstep.
      destruct (ready_steps_elem _ _ _ _ step Hready Hstep) as (sid & _ & Hm & Hr).
      pose proof (li_ids _ _ Hinv _ _ Hm) as Hsid.
      pose proof (li_shape _ _ Hinv sid) as Hd. rewrite Hm in Hd. cbn in Hd.
      split; [by rewrite Hsid|]. intros d. by apply is_ready_true. }
  destruct r1 as [[]|err]; [|simplify_eq; by split].
  specialize (Hl1 eq_refl).
  case_bool_decide; [simplify_eq; by split|].
  pose proof (finish_tasks_inv (wait env st1) st1 Hl1) as Hl2.
  injection H as <- <-. cbn.
  destruct Hl2 as [Hs Hshape Hid Hrem Hrunning].
  split; [done|]. intros _. split; cbn; try done.
  - intros x Hx. destruct (Hrem x Hx) as (? & ? & Hnone).
    split; [done|]. split; [done|]. unfold reap.
    apply map_lookup_filter_None. left. done.
  - intros x s Hx. unfold reap in Hx.
    apply map_lookup_filter_Some in Hx as [Hx _]. by apply Hrunning.
Qed.

Lemma parallel_loop_safe fuel : ∀ st,
  loop_inv deps st →
  safe deps (execution (parallel_loop env fuel st).2)
       (trace (parallel_loop env fuel st).2).
Proof.
  induction fuel as [|fuel IH]; intros st Hinv; cbn [parallel_loop];
    destruct (_ && _); try apply Hinv.
  destruct (par_body env st) as [[[]|err] st1] eqn:Hb;
    apply par_body_inv in Hb as [Hs Hl]; try done.
  apply IH. by apply Hl.
Qed.
End safety_loops.

(** ** The execution keeps its id *)

Section execution_id.
Variable env : Env.

Lemma attempts_execution_id n : ∀ attempt e step tr r e' step' tr',
  attempts env n attempt e step tr = (r, e', step', tr') →
  execution_id e' = execution_id e.
Proof.
  induction n as [|n IH]; intros attempt e step tr r e' step' tr' H;
    cbn [attempts] in H; [by simplify_eq|].
  assert (Hc : execution_id (if cancel_during env (step_id step) attempt
                             then cancel_execution e else e) = execution_id e)
    by (by destruct (cancel_during env _ _)).
  destruct (_call_mcp_tool env _ _ _ _).
  - by simplify_eq.
  - case_bool_decide; [apply IH in H; congruence|by simplify_eq].
Qed.

Lemma skip_failed_execution_id ids : ∀ st,
  execution_id (execution (skip_failed ids st).2) = execution_id (execution st).
Proof.
  induction ids as [|sid ids IH]; intros st; cbn [skip_failed]; [done|].
  unfold remove_remaining. cbn [remaining_steps].
  case_bool_decide; [|done]. by rewrite IH.
Qed.

Lemma start_tasks_execution_id ready : ∀ st,
  execution_id (execution (start_tasks ready st).2) = execution_id (execution st).
Proof.
  induction ready as [|step ready IH]; intros st; cbn [start_tasks]; [done|].
  unfold enter_step, remove_remaining. cbn [remaining_steps].
  case_bool_decide; [|done]. by rewrite IH.
Qed.

Lemma seq_body_execution_id st :
  execution_id (execution (seq_body env st).2) = execution_id (execution st).
Proof.
  unfold seq_body.
  destruct (ready_steps _ _ _) as [[|step l]|err]; [| |done].
  - destruct (failed_deps _ _ _); [|done]. case_bool_decide; [done|].
    apply skip_failed_execution_id.
  - unfold _execute_step, enter_step, run_attempts.
    destruct (attempts env _ _ _ _ _) as [[[r e1] step1] tr1] eqn:Hat.
    apply attempts_execution_id in Hat. cbn in Hat.
    destruct r as [[]|]; [|done].
    unfold remove_remaining. by case_bool_decide.
Qed.

Lemma finish_task_execution_id st sid :
  execution_id (execution (finish_task env st sid)) = execution_id (execution st).
Proof.
  unfold finish_task. destruct (running_tasks st !! sid) as [[step|]|]; try done.
  unfold run_attempts.
  destruct (attempts env _ _ _ _ _) as [[[r e1] step1] tr1] eqn:Hat.
  by apply attempts_execution_id in Hat.
Qed.

Lemma finish_tasks_execution_id ids : ∀ st,
  execution_id (execution (foldl (finish_task env) st ids))
  = execution_id (execution st).
Proof.
  induction ids as [|sid ids IH]; intros st; cbn [foldl]; [done|].
  by rewrite IH, finish_task_execution_id.
Qed.

Lemma par_body_execution_id st :
  execution_id (execution (par_body env st).2) = execution_id (execution st).
Proof.
  unfold par_body. destruct (ready_steps _ _ _) as [ready|err]; [|done].
  pose proof (start_tasks_execution_id ready st) as Hs.
  destruct (start_tasks ready st) as [[[]|err] st1]; [|done].
  cbn in Hs. case_bool_decide; [done|]. cbn.
  by rewrite finish_tasks_execution_id.
Qed.

Lemma sequential_loop_execution_id fuel : ∀ st,
  execution_id (execution (sequential_loop env fuel st).2)
  = execution_id (execution st).
Proof.
  induction fuel as [|fuel IH]; intros st; cbn [sequential_loop];
    case_bool_decide; try done.
  pose proof (seq_body_execution_id st) as Hb.
  destruct (seq_body env st) as [[[]|err] st1]; [|done].
  by rewrite IH.
Qed.

Lemma parallel_loop_execution_id fuel : ∀ st,
  execution_id (execution (parallel_loop env fuel st).2)
  = execution_id (execution st).
Proof.
  induction fuel as [|fuel IH]; intros st; cbn [parallel_loop];
    destruct (_ && _); try done.
  pose proof (par_body_execution_id st) as Hb.
  destruct (par_body env st) as [[[]|err] st1]; [|done].
  by rewrite IH.
Qed.
End execution_id.


Lemma step_map_of_apply_runtime_parameters sts runtime k :
  deps_of (_apply_runtime_parameters sts runtime) k = deps_of sts k.
Proof.
  unfold deps_of, _apply_runtime_parameters.
  induction sts as [|s sts IH] using rev_ind; [done|].
  rewrite fmap_app. cbn [fmap list_fmap]. rewrite !step_map_of_snoc.
  cbn [step_id mk_step]. rewrite !lookup_insert. case_decide; [done|exact IH].
Qed.

Lemma initial_state_inv e sts :
  completed_steps e = [] → failed_steps e = [] → errors e = ∅ →
  loop_inv (deps_of sts) (initial_state e sts []).
Proof.
  intros Hc Hf He. split; cbn.
  - split; rewrite ?Hc, ?Hf, ?He.
    + intros ? ? ? H. by apply elem_of_nil in H.
    + intros ? ? ? H. by apply elem_of_nil in H.
    + intros ? H. by apply elem_of_nil in H.
    + intros ? H. by apply elem_of_nil in H.
    + intros ? [? H]. by rewrite lookup_empty in H.
  - done.
  - intros k s Hs. by apply step_map_of_lookup_Some in Hs as [_ ?].
  - intros sid _. rewrite Hc, Hf. split; [apply not_elem_of_nil|].
    split; [apply not_elem_of_nil|]. apply lookup_empty.
  - intros sid step H. by rewrite lookup_empty in H.
Qed.

(** In a safe record no step downstream of a failed one was started. *)
Lemma safe_blocks_dependents sts e tr a b :
  safe (deps_of sts) e tr →
  a ∈ failed_steps e →
  tc (map_edge (step_map_of sts)) b a →
  Started b ∉ tr.
Proof.
  intros Hs Ha Htc. induction Htc as [b a (s & Hb & Hd)|b d a (s & Hb & Hd) _ IH];
    intros Hst.
  - apply (safe_disjoint _ _ _ Hs a); [|done].
    eapply (safe_ready _ _ _ Hs b); [done| |exact Hd].
    unfold deps_of. by rewrite Hb.
  - apply (IH Ha). apply (safe_completed _ _ _ Hs).
    eapply (safe_ready _ _ _ Hs b); [done| |exact Hd].
    unfold deps_of. by rewrite Hb.
Qed.

Lemma safe_same_lists deps e e' tr :
  completed_steps e' = completed_steps e → failed_steps e' = failed_steps e →
  errors e' = errors e → safe deps e tr → safe deps e' tr.
Proof.
  intros Hc Hf He [S1 S2 S3 S4 S5]. split; rewrite ?Hc, ?Hf, ?He; done.
Qed.

(** C3 (amended): at any moment of a run, in either mode, a step that
    depends directly or transitively on a step in [failed_steps] has
    not been started, so its tool has not been called; it is not
    completed, and the error map has no message for it. *)
Theorem failed_dependency_blocks_dependents env fuel wm wid eid params def o wm' tr :
  faithful_set_order env →
  workflow_definitions wm !! wid = Some def →
  execute_workflow env fuel wm wid eid params = (o, wm', tr) →
  ∃ e,
    stored wm' (execution_id_of env eid) = Some e
    ∧ (∀ e0, o = Returned e0 → e0 = e)
    ∧ ∀ a b,
        a ∈ failed_steps e →
        tc (map_edge (step_map_of (steps def))) b a →
        (Started b ∉ tr)
        ∧ (∀ tool attempt, Call b tool attempt ∉ tr)
        ∧ (b ∉ completed_steps e)
        ∧ errors e !! b = None.
Proof.
  intros Hfaith Hdef H. unfold execute_workflow in H. rewrite Hdef in H.
  fold (execution_id_of env eid) in H.
  set (e0 := set_status WorkflowStatus.IN_PROGRESS _) in H.
  set (sts := _apply_runtime_parameters _ _) in H.
  assert (Hiter : ∀ (s : gset string) x, x ∈ set_iter env s → x ∈ s).
  { intros s x Hx. rewrite (Hfaith s) in Hx. by apply elem_of_elements in Hx. }
  assert (Hinit : loop_inv (deps_of sts) (initial_state e0 sts []))
    by (by apply initial_state_inv).
  destruct (if parallel_execution def then _ else _) as [p st] eqn:Hloop.
  assert (Hsafe : safe (deps_of sts) (execution st) (trace st)).
  { destruct (parallel_execution def).
    - pose proof (parallel_loop_safe env _ Hiter fuel _ Hinit) as Hs.
      unfold _execute_parallel_workflow in Hloop. by rewrite Hloop in Hs.
    - pose proof (sequential_loop_safe env _ Hiter fuel _ Hinit) as Hs.
      unfold _execute_sequential_workflow in Hloop. by rewrite Hloop in Hs. }
  assert (Heid : execution_id (execution st) = execution_id_of env eid).
  { destruct (parallel_execution def).
    - unfold _execute_parallel_workflow in Hloop.
      pose proof (parallel_loop_execution_id env fuel (initial_state e0 sts []))
        as Hid. by rewrite Hloop in Hid.
    - unfold _execute_sequential_workflow in Hloop.
      pose proof (sequential_loop_execution_id env fuel (initial_state e0 sts []))
        as Hid. by rewrite Hloop in Hid. }
  assert (Hfinal : ∀ s e1 o1,
            (∀ e2, o1 = Returned e2 → e2 = e1) →
            e1 = set_status s (execution st) ∨ e1 = execution st →
            (o1, registered wm e1, trace st) = (o, wm', tr) →
            ∃ e,
              stored wm' (execution_id_of env eid) = Some e
              ∧ (∀ e0, o = Returned e0 → e0 = e)
              ∧ ∀ a b,
                  a ∈ failed_steps e →
                  tc (map_edge (step_map_of (steps def))) b a →
                  (Started b ∉ tr)
                  ∧ (∀ tool attempt, Call b tool attempt ∉ tr)
                  ∧ (b ∉ completed_steps e)
                  ∧ errors e !! b = None).
  { intros s e1 o1 Ho He1 Heq. injection Heq as <- <- <-. exists e1.
    assert (Hid1 : execution_id e1 = execution_id_of env eid)
      by (destruct He1 as [-> | ->]; exact Heid).
    assert (Hs1 : safe (deps_of sts) e1 (trace st)).
    { destruct He1 as [-> | ->]; [|done].
      apply (safe_same_lists _ (execution st)); [reflexivity..|exact Hsafe]. }
    split; [unfold stored, registered; cbn; by rewrite Hid1, lookup_insert_eq|].
    split; [done|]. intros a b Ha Htc.
    assert (Hnot : Started b ∉ trace st).
    { eapply (safe_blocks_dependents sts); [done|exact Ha|].
      eapply tc_weaken; [|exact Htc]. intros x y (s0 & Hx & Hy).
      pose proof (step_map_of_apply_runtime_parameters (steps def)
                    (default ∅ params) x) as Hd.
      unfold deps_of in Hd. fold sts in Hd. rewrite Hx in Hd. cbn in Hd.
      destruct (step_map_of sts !! x) as [s1|] eqn:Hs1'; [|done].
      exists s1. split; [done|]. cbn in Hd. injection Hd as Hd. by rewrite Hd. }
    split; [done|].
    split; [intros tool attempt Hc; by apply Hnot, (safe_call _ _ _ Hs1 _ tool attempt)|].
    split; [intros Hc; by apply Hnot, (safe_completed _ _ _ Hs1)|].
    destruct (errors e1 !! b) eqn:He; [|done].
    exfalso. apply Hnot, (safe_errors _ _ _ Hs1). by rewrite He. }
  destruct p as [|[[]|err]].
  - eapply (Hfinal WorkflowStatus.PENDING); [|by right|exact H]. done.
  - eapply Hfinal; [|by left|exact H]. by intros ? [= <-].
  - destruct err; (eapply (Hfinal WorkflowStatus.FAILED); [|by left|exact H]; done).
Qed.

(** C3 (counterexample): in sequential mode step [a] of [blocked_pair]
    fails after its only attempt and [b] depends on [a], yet [b] is
    not in [failed_steps] when the run is over and the error map has
    no message for it. *)
Lemma blocked_dependent_is_not_marked_failed :
  let wm := manager_with blocked_pair 30 false in
  ∃ def o wm' tr e,
    workflow_definitions wm !! "w" = Some def
    ∧ execute_workflow (mock_env ["tool_a"]) 2 wm "w" (Some "run") None
      = (o, wm', tr)
    ∧ stored wm' "run" = Some e
    ∧ failed_steps e = ["a"]
    ∧ calls_of "a" tr = 1%nat
    ∧ deps_of (steps def) "b" = Some ["a"]
    ∧ bool_decide ("b" ∈ failed_steps e) = false
    ∧ errors e !! "b" = None.
Proof.
  intros wm. eexists _, _, _, _, _.
  split; [vm_compute; reflexivity|].
  split; [vm_compute; reflexivity|].
  split; [vm_compute; reflexivity|].
  split; [reflexivity|]. split; [reflexivity|].
  split; [vm_compute; reflexivity|].
  split; [reflexivity|]. vm_compute; reflexivity.
Qed.

Lemma failed_dependency_blocks_dependents_witness :
  let env := mock_env ["tool_a"] in
  let wm := manager_with blocked_pair 30 false in
  faithful_set_order env
  ∧ ∃ def o wm' tr,
      workflow_definitions wm !! "w" = Some def
      ∧ execute_workflow env 2 wm "w" (Some "run") None = (o, wm', tr)
      ∧ ∃ e,
          stored wm' (execution_id_of env (Some "run")) = Some e
          ∧ (∀ e0, o = Returned e0 → e0 = e)
          ∧ ∀ a b,
              a ∈ failed_steps e →
              tc (map_edge (step_map_of (steps def))) b a →
              (Started b ∉ tr)
              ∧ (∀ tool attempt, Call b tool attempt ∉ tr)
              ∧ (b ∉ completed_steps e)
              ∧ errors e !! b = None.
Proof.
  intros env wm.
  assert (Hfaith : faithful_set_order env) by (intros s; reflexivity).
  split; [exact Hfaith|].
  eexists _, _, _, _.
  split; [vm_compute; reflexivity|].
  split; [vm_compute; reflexivity|].
  eapply (failed_dependency_blocks_dependents env 2 wm "w" (Some "run") None);
    [exact Hfaith | vm_compute; reflexivity | vm_compute; reflexivity].
Defined.

(** ** Termination of the sequential loop *)

Section sequential_termination.
Variable env : Env.
Hypothesis faithful : faithful_set_order env.

Lemma skip_failed_remaining ids : ∀ st st',
  skip_failed ids st = (Ok tt, st') →
  remaining_steps st' ⊆ remaining_steps st
  ∧ ∀ x, x ∈ ids → (x ∈ remaining_steps st) ∧ (x ∉ remaining_steps st').
Proof.
  induction ids as [|sid ids IH]; intros st st' H; cbn [skip_failed] in H.
  - simplify_eq. split; [done|]. intros x Hx. by apply elem_of_nil in Hx.
  - unfold remove_remaining in H. cbn [remaining_steps] in H.
    case_bool_decide as Hin; [|done].
    apply IH in H as [Hsub Hall]. cbn [remaining_steps] in Hsub, Hall.
    split; [set_solver|]. intros x Hx.
    apply elem_of_cons in Hx as [->|Hx]; [set_solver|].
    destruct (Hall x Hx). set_solver.
Qed.

(** An iteration that does not raise resolves at least one step. *)
Lemma seq_body_progress st st' :
  seq_body env st = (Ok tt, st') →
  remaining_steps st' ⊂ remaining_steps st.
Proof.
  unfold seq_body. destruct (ready_steps _ _ _) as [[|step l]|err]; [| |done].
  - destruct (failed_deps _ _ _) as [fd|err]; [|done].
    case_bool_decide as Hfd; [done|]. intros H.
    apply skip_failed_remaining in H as [Hsub Hall].
    destruct (set_iter env fd) as [|x ids] eqn:Hiter.
    + exfalso. apply Hfd. apply leibniz_equiv. apply elements_empty_iff.
      apply Permutation_nil_r. by rewrite <- (faithful fd), Hiter.
    + destruct (Hall x) as [? ?]; [left|]. set_solver.
  - unfold _execute_step, enter_step.
    destruct (run_attempts env _ _ _) as [[[r e1] step1] tr1].
    destruct r as [[]|]; [|done].
    unfold remove_remaining. cbn [remaining_steps after_step].
    case_bool_decide; [|done]. intros [= <-]. cbn. set_solver.
Qed.

Lemma sequential_loop_terminates fuel : ∀ st,
  (size (remaining_steps st) ≤ fuel)%nat →
  (sequential_loop env fuel st).1 ≠ Running.
Proof.
  induction fuel as [|fuel IH]; intros st Hsize; cbn [sequential_loop];
    case_bool_decide as Hrem; try done.
  - exfalso. apply Hrem. apply leibniz_equiv. apply size_empty_iff. lia.
  - destruct (seq_body env st) as [[[]|err] st1] eqn:Hb; [|done].
    apply IH. apply seq_body_progress in Hb. apply subset_size in Hb. lia.
Qed.

(** In sequential mode [execute_workflow] has returned or raised after
    at most as many iterations as the definition has steps. *)
Lemma sequential_execute_workflow_terminates fuel wm wid eid params def :
  workflow_definitions wm !! wid = Some def →
  parallel_execution def = false →
  (length (steps def) ≤ fuel)%nat →
  (execute_workflow env fuel wm wid eid params).1.1 ≠ StillRunning.
Proof.
  intros Hdef Hpar Hfuel. unfold execute_workflow. rewrite Hdef, Hpar.
  unfold _execute_sequential_workflow.
  match goal with
  | |- context [sequential_loop env fuel ?st] =>
      pose proof (sequential_loop_terminates fuel st) as Hterm;
      destruct (sequential_loop env fuel st) as [p st']
  end.
  cbn in Hterm. destruct p as [|[[]|err]].
  - exfalso. apply Hterm; [|done].
    pose proof (size_list_to_set_le
                  (ids_of (_apply_runtime_parameters (steps def) (default ∅ params))))
      as [Hle _].
    rewrite apply_runtime_parameters_ids in Hle at 2.
    unfold step_ids_of, ids_of in *. rewrite length_fmap in Hle. lia.
  - done.
  - by destruct err.
Qed.
End sequential_termination.

(** ** Ordinary tool failures *)

(** A JSON-RPC error in a 200 reply, and any status other than 200,
    401, 429 and 5xx, end the call at once with a response whose
    [success] is false: nothing is raised and nothing is retried. *)
Lemma ordinary_failure_is_returned server c tool retries r :
  MCPClient.initialized c = true →
  server 0%nat = Ok r →
  (MCPClient.status_code r = 200 ∧ is_Some (MCPClient.rpc_error r))
  ∨ (MCPClient.status_code r ≠ 200 ∧ MCPClient.status_code r ≠ 401
     ∧ MCPClient.status_code r ≠ 429 ∧ MCPClient.status_code r < 500) →
  0 ≤ (match retries with
       | Some x => if bool_decide (x = 0) then MCPClient.retry_count c else x
       | None => MCPClient.retry_count c
       end) →
  ∃ resp c',
    MCPClient.call_tool server c tool retries = (Ok resp, c')
    ∧ success resp = false
    ∧ MCPClient.posts c' = S (MCPClient.posts c)
    ∧ MCPClient.sleeps c' = MCPClient.sleeps c.
Proof.
  intros Hinit Hserver Hkind Hbudget. unfold MCPClient.call_tool.
  rewrite Hinit. cbn [negb].
  set (ra := match retries with Some _ => _ | None => _ end) in *.
  replace (Z.to_nat (ra + 1)) with (S (Z.to_nat ra)) by lia.
  cbn [MCPClient.attempts]. unfold MCPClient.attempt_body. rewrite Hserver.
  unfold MCPClient.on_response.
  destruct Hkind as [[H200 [[code msg] Herr]]|(Hn200 & Hn401 & Hn429 & Hlt)].
  - rewrite bool_decide_eq_true_2 by done. rewrite Herr.
    case_bool_decide; eexists _, _; (split; [reflexivity|]); by cbn.
  - rewrite !bool_decide_eq_false_2 by (done || lia).
    eexists _, _. split; [reflexivity|]. by cbn.
Qed.

(** ** The request loop of [call_tool] and the two probes *)

Lemma backoff_bounds k cap : 30 ≤ cap ≤ 60 → 1 ≤ Z.min (2 ^ Z.of_nat k) cap ≤ 60.
Proof.
  intros Hc. assert (0 < 2 ^ Z.of_nat k) by (apply Z.pow_pos_nonneg; lia). lia.
Qed.

Lemma metrics_le_refl m : metrics_le m m.
Proof. unfold metrics_le. lia. Qed.

Lemma metrics_le_trans m1 m2 m3 :
  metrics_le m1 m2 → metrics_le m2 m3 → metrics_le m1 m3.
Proof. unfold metrics_le. lia. Qed.


Section attempts.
Variable server : nat → result MCPClient.HttpResponse.
Variable tool : string.
Variable b : Z.

Lemma on_exception_spec k e c f c' :
  MCPClient.on_exception tool b (Z.of_nat k) e c = (f, c') →
  MCPClient.posts c' = MCPClient.posts c
  ∧ MCPClient.initialized c' = MCPClient.initialized c
  ∧ MCPClient.retry_count c' = MCPClient.retry_count c
  ∧ metrics_le (MCPClient.metrics c) (MCPClient.metrics c')
  ∧ total_requests (MCPClient.metrics c') = total_requests (MCPClient.metrics c)
  ∧ match f with
    | MCPClient.Continue =>
        Z.of_nat k < b
        ∧ ∃ w, MCPClient.sleeps c' = MCPClient.sleeps c ++ [w] ∧ 1 ≤ w ≤ 60
    | MCPClient.Return r => False
    | MCPClient.Throw e' =>
        MCPClient.sleeps c' = MCPClient.sleeps c
        ∧ b ≤ Z.of_nat k ∧ call_tool_raises e' = true
    end.
Proof.
  pose proof (backoff_bounds k 30 ltac:(lia)) as B30.
  unfold MCPClient.on_exception, metrics_le. intros H.
  destruct e; case_bool_decide; simplify_eq; simpl;
    repeat split; eauto; lia.
Qed.

Lemma on_response_spec k h c f c' :
  MCPClient.on_response tool b (Z.of_nat k) h c = (f, c') →
  MCPClient.posts c' = MCPClient.posts c
  ∧ MCPClient.initialized c' = MCPClient.initialized c
  ∧ MCPClient.retry_count c' = MCPClient.retry_count c
  ∧ metrics_le (MCPClient.metrics c) (MCPClient.metrics c')
  ∧ total_requests (MCPClient.metrics c') = total_requests (MCPClient.metrics c)
  ∧ match f with
    | MCPClient.Continue =>
        Z.of_nat k < b ∧ settles h = false
        ∧ ∃ w, MCPClient.sleeps c' = MCPClient.sleeps c ++ [w] ∧ 1 ≤ w ≤ 60
    | MCPClient.Return r =>
        MCPClient.sleeps c' = MCPClient.sleeps c
        ∧ settles h = true ∧ answers tool k h r
    | MCPClient.Throw e =>
        MCPClient.sleeps c' = MCPClient.sleeps c ∧ settles h = false
    end.
Proof.
  pose proof (backoff_bounds k 30 ltac:(lia)) as B30.
  pose proof (backoff_bounds k 60 ltac:(lia)) as B60.
  unfold MCPClient.on_response, settles, answers, metrics_le. intros H.
  destruct (decide (MCPClient.status_code h = 200)) as [E200|N200].
  { rewrite (bool_decide_eq_true_2 _ E200) in H |- *.
    destruct (MCPClient.rpc_error h) as [[code message]|] eqn:Herr.
    - rewrite (bool_decide_eq_false_2 (_ ∧ _)) by (intros [_ ?]; congruence).
      case_bool_decide; simplify_eq; simpl; repeat split; eauto; lia.
    - rewrite (bool_decide_eq_true_2 (_ ∧ _)) by done.
      simplify_eq; simpl; repeat split; eauto; lia. }
  rewrite (bool_decide_eq_false_2 _ N200) in H |- *.
  rewrite (bool_decide_eq_false_2 (_ ∧ _)) by (intros [? _]; congruence).
  destruct (decide (MCPClient.status_code h = 401)) as [E401|N401].
  { rewrite (bool_decide_eq_true_2 _ E401) in H |- *.
    simplify_eq; simpl; repeat split; eauto; lia. }
  rewrite (bool_decide_eq_false_2 _ N401) in H |- *.
  destruct (decide (MCPClient.status_code h = 429)) as [E429|N429].
  { rewrite (bool_decide_eq_true_2 _ E429) in H |- *.
    case_bool_decide; simplify_eq; simpl; repeat split; eauto; lia. }
  rewrite (bool_decide_eq_false_2 _ N429) in H |- *.
  destruct (decide (500 ≤ MCPClient.status_code h)) as [E5|N5].
  { rewrite (bool_decide_eq_true_2 _ E5) in H |- *.
    case_bool_decide; simplify_eq; simpl; repeat split; eauto; lia. }
  rewrite (bool_decide_eq_false_2 _ N5) in H |- *.
  simplify_eq; simpl; repeat split; eauto; lia.
Qed.

(** One pass of the loop body: it sends one request; it continues only
    with budget left and after exactly one sleep; it returns only on a
    settling reply; what it throws is of one of three classes. *)
Lemma attempt_body_spec k last c f last' c' :
  MCPClient.attempt_body server tool b k (Z.of_nat k) last c = (f, last', c') →
  MCPClient.posts c' = S (MCPClient.posts c)
  ∧ MCPClient.initialized c' = MCPClient.initialized c
  ∧ MCPClient.retry_count c' = MCPClient.retry_count c
  ∧ metrics_le (MCPClient.metrics c) (MCPClient.metrics c')
  ∧ total_requests (MCPClient.metrics c') = total_requests (MCPClient.metrics c)
  ∧ match f with
    | MCPClient.Continue =>
        Z.of_nat k < b ∧ retried (server k) = true
        ∧ ∃ w, MCPClient.sleeps c' = MCPClient.sleeps c ++ [w] ∧ 1 ≤ w ≤ 60
    | MCPClient.Return r =>
        MCPClient.sleeps c' = MCPClient.sleeps c
        ∧ ∃ h, server k = Ok h ∧ settles h = true ∧ answers tool k h r
    | MCPClient.Throw e =>
        MCPClient.sleeps c' = MCPClient.sleeps c
        ∧ b ≤ Z.of_nat k ∧ retried (server k) = true
        ∧ call_tool_raises e = true
    end.
Proof.
  unfold MCPClient.attempt_body, retried. intros H.
  destruct (server k) as [h|e] eqn:Hs.
  - destruct (MCPClient.on_response tool b (Z.of_nat k) h (MCPClient.sent c))
      as [f1 c1] eqn:H1.
    apply on_response_spec in H1 as (P1 & I1 & R1 & M1 & T1 & F1).
    destruct f1 as [r| |e].
    + simplify_eq. simpl in *. destruct F1 as (? & ? & ?).
      split_and!; eauto.
    + simplify_eq. simpl in *. destruct F1 as (? & -> & ?).
      split_and!; eauto.
    + destruct (MCPClient.on_exception tool b (Z.of_nat k) e c1) as [f2 c2] eqn:H2.
      apply on_exception_spec in H2 as (P2 & I2 & R2 & M2 & T2 & F2).
      simplify_eq. destruct F1 as [S1 N1]. simpl in *.
      assert (metrics_le (MCPClient.metrics c) (MCPClient.metrics c'))
        by (eapply metrics_le_trans; eauto).
      destruct f as [r| |e'].
      * done.
      * destruct F2 as (? & w & ? & ?). rewrite N1.
        split_and!; eauto; try congruence. exists w. split; congruence.
      * destruct F2 as (? & ? & ?). rewrite N1.
        split_and!; eauto; congruence.
  - destruct (MCPClient.on_exception tool b (Z.of_nat k) e (MCPClient.sent c))
      as [f2 c2] eqn:H2.
    apply on_exception_spec in H2 as (P2 & I2 & R2 & M2 & T2 & F2).
    simplify_eq. simpl in *.
    destruct f as [r| |e']; [done|..]; split_and!; eauto; naive_solver.
Qed.

(** The whole loop, entered with at least one iteration to go and with
    [k + n = b + 1] as [range(retry_attempts + 1)] has it. *)
Lemma attempts_spec n k last c r c' :
  MCPClient.attempts server tool b n k last c = (r, c') →
  (0 < n)%nat → Z.of_nat k + Z.of_nat n = b + 1 →
  ∃ ws,
    MCPClient.sleeps c' = MCPClient.sleeps c ++ ws
    ∧ MCPClient.posts c' = (MCPClient.posts c + length ws + 1)%nat
    ∧ (length ws < n)%nat
    ∧ Forall (λ w, 1 ≤ w ≤ 60) ws
    ∧ (∀ j, (j < length ws)%nat → retried (server (k + j)%nat) = true)
    ∧ MCPClient.initialized c' = MCPClient.initialized c
    ∧ MCPClient.retry_count c' = MCPClient.retry_count c
    ∧ metrics_le (MCPClient.metrics c) (MCPClient.metrics c')
    ∧ total_requests (MCPClient.metrics c') = total_requests (MCPClient.metrics c)
    ∧ match r with
      | Ok resp =>
          ∃ h, server (k + length ws)%nat = Ok h ∧ settles h = true
               ∧ answers tool (k + length ws) h resp
      | Raise e =>
          S (length ws) = n
          ∧ retried (server (k + length ws)%nat) = true
          ∧ call_tool_raises e = true
      end.
Proof.
  revert k last c. induction n as [|n IH]; intros k last c H Hn Hk; [lia|].
  simpl in H.
  destruct (MCPClient.attempt_body server tool b k (Z.of_nat k) last c)
    as [[f last'] c1] eqn:Hb.
  apply attempt_body_spec in Hb as (P1 & I1 & R1 & M1 & T1 & F1).
  destruct f as [resp| |e].
  - simplify_eq. destruct F1 as (S1 & h & Hs & Hset & Hans).
    exists []. simpl. rewrite app_nil_r, !Nat.add_0_r.
    split_and!; eauto; try lia.
  - destruct F1 as (Hlt & Hret & w & S1 & Hw).
    destruct n as [|n']; [lia|].
    destruct (IH (S k) last' c1 H ltac:(lia) ltac:(lia))
      as (ws & S2 & P2 & L2 & B2 & Rt & I2 & R2 & M2 & T2 & F2).
    exists (w :: ws). simpl.
    replace (k + S (length ws))%nat with (S k + length ws)%nat by lia.
    split_and!; eauto; try lia; try congruence.
    + rewrite S2, S1, <- app_assoc. done.
    + intros [|j] Hj; [by rewrite Nat.add_0_r|].
      replace (k + S j)%nat with (S k + j)%nat by lia. apply Rt. lia.
    + eapply metrics_le_trans; eauto.
    + destruct r; [done|]. destruct F2 as (? & ? & ?). split_and!; eauto.
  - simplify_eq. destruct F1 as (S1 & Hge & Hret & Hcls).
    exists []. simpl. rewrite app_nil_r, !Nat.add_0_r.
    split_and!; eauto; try lia.
Qed.
End attempts.

(** The loop with nothing to iterate over: a negative budget. *)
Lemma call_tool_unfold server c tool retries :
  MCPClient.initialized c = true →
  MCPClient.call_tool server c tool retries =
  MCPClient.attempts server tool (budget c retries)
    (Z.to_nat (budget c retries + 1)) 0 None
    (MCPClient.with_metrics MCPClient.incr_total c).
Proof. intros Hi. unfold MCPClient.call_tool, budget. by rewrite Hi. Qed.









(** X5: a call never lowers a counter of the client's metrics, never
    changes [retry_requests] (its increment sits behind a [raise] and a
    [return]), counts one request in [total_requests] exactly when the
    client is initialized, and leaves [initialized] and the client's
    own [retry_count] alone. *)
Theorem call_tool_metrics server c tool retries :
  let c' := (MCPClient.call_tool server c tool retries).2 in
  metrics_le (MCPClient.metrics c) (MCPClient.metrics c')
  ∧ total_requests (MCPClient.metrics c')
    = total_requests (MCPClient.metrics c)
      + (if MCPClient.initialized c then 1 else 0)
  ∧ MCPClient.initialized c' = MCPClient.initialized c
  ∧ MCPClient.retry_count c' = MCPClient.retry_count c.
Proof.
  simpl. destruct (MCPClient.initialized c) eqn:Hi.
  - rewrite call_tool_unfold by done.
    destruct (Z.to_nat (budget c retries + 1)) as [|n] eqn:Hn.
    + simpl. destruct c as [i rc [] sl ps]; simpl in *.
      unfold metrics_le; simpl. split_and!; auto; lia.
    + destruct (MCPClient.attempts _ _ _ _ _ _ _) as [r c'] eqn:H.
      apply attempts_spec in H as (ws & _ & _ & _ & _ & _ & I1 & R1 & M1 & T1 & _);
        [| lia..].
      simpl in *. split_and!; auto; try lia; try congruence.
      eapply metrics_le_trans; [|exact M1].
      unfold metrics_le; simpl. lia.
  - unfold MCPClient.call_tool. rewrite Hi. simpl.
    split_and!; auto using metrics_le_refl. lia.
Qed.

Lemma call_tool_success server c tool retries resp c' :
  MCPClient.call_tool server c tool retries = (Ok resp, c') →
  MCPClient.initialized c = true
  ∧ ∃ k h, Z.of_nat k ≤ budget c retries ∧ server k = Ok h
          ∧ settles h = true ∧ answers tool k h resp
          ∧ MCPClient.posts c' = (MCPClient.posts c + k + 1)%nat.
Proof.
  intros H. destruct (MCPClient.initialized c) eqn:Hi.
  - split; [done|]. rewrite call_tool_unfold in H by done.
    destruct (Z.to_nat (budget c retries + 1)) as [|n] eqn:Hn.
    + simpl in H. done.
    + apply attempts_spec in H as (ws & _ & P1 & L1 & _ & _ & _ & _ & _ & _ & F);
        [| lia..].
      destruct F as (h & Hs & Hset & Hans). simpl in *.
      exists (length ws), h. split_and!; auto. lia.
  - unfold MCPClient.call_tool in H. rewrite Hi in H. done.
Qed.

Lemma answers_success tool k h resp :
  answers tool k h resp →
  resp_tool_name resp = Some tool
  ∧ (success resp = true →
     MCPClient.status_code h = 200 ∧ MCPClient.rpc_error h = None
     ∧ data resp = MCPClient.rpc_result h).
Proof.
  intros (Hn & _ & H). split; [done|]. intros Hs.
  case_bool_decide as Hd.
  - destruct Hd, H as (_ & ? & _). done.
  - destruct H as (? & _). congruence.
Qed.

Lemma guarded_call_spec server c tool prefix r c' :
  match MCPClient.call_tool server c tool None with
  | (Ok r, c') => (r, c')
  | (Raise e, c') => (MCPClient.failure tool (prefix +:+ str e) 0, c')
  end = (r, c') →
  resp_tool_name r = Some tool
  ∧ (success r = true →
     MCPClient.initialized c = true
     ∧ ∃ k h, Z.of_nat k ≤ MCPClient.retry_count c ∧ server k = Ok h
             ∧ MCPClient.status_code h = 200 ∧ MCPClient.rpc_error h = None
             ∧ data r = MCPClient.rpc_result h)
  ∧ (MCPClient.initialized c = false →
     c' = c
     ∧ resp_error r
       = Some (prefix +:+ "MCP client not initialized. Use async context manager.")).
Proof.
  destruct (MCPClient.call_tool server c tool None) as [[r0|e] c0] eqn:H;
    intros ?; simplify_eq.
  - apply call_tool_success in H as (Hi & k & h & Hk & Hs & _ & Ha & _).
    apply answers_success in Ha as [Hn Hok].
    split_and!; [done| |congruence].
    intros Hs'. destruct (Hok Hs') as (? & ? & ?).
    split; [done|]. by exists k, h.
  - simpl. split_and!; [done|done|].
    intros Hi. unfold MCPClient.call_tool in H. rewrite Hi in H.
    simpl in H. by simplify_eq.
Qed.

(** X6: [health_check] and [list_available_tools] never raise: they
    answer with a response named after their tool.  The response says
    success only when the client is initialized and some reply within
    the budget had status 200 and no "error" member; on a client that
    is not initialized they leave the client as it is and report the
    client's own message behind their prefix. *)
Theorem probes_report_failures server c :
  let '(r, c') := MCPClient.health_check server c in
  let '(r2, c2) := MCPClient.list_available_tools server c in
  resp_tool_name r = Some "health"
  ∧ resp_tool_name r2 = Some "list_tools"
  ∧ (success r = true ∨ success r2 = true →
     MCPClient.initialized c = true
     ∧ ∃ k h, Z.of_nat k ≤ MCPClient.retry_count c ∧ server k = Ok h
             ∧ MCPClient.status_code h = 200 ∧ MCPClient.rpc_error h = None)
  ∧ (MCPClient.initialized c = false →
     c' = c ∧ c2 = c
     ∧ resp_error r = Some "Health check failed: MCP client not initialized. Use async context manager."
     ∧ resp_error r2 = Some "Failed to list tools: MCP client not initialized. Use async context manager.").
Proof.
  destruct (MCPClient.health_check server c) as [r c'] eqn:H1.
  destruct (MCPClient.list_available_tools server c) as [r2 c2] eqn:H2.
  apply guarded_call_spec in H1 as (N1 & S1 & U1).
  apply guarded_call_spec in H2 as (N2 & S2 & U2).
  split_and!; [done|done| |].
  - intros [Hs|Hs].
    + destruct (S1 Hs) as (? & k & h & ? & ? & ? & ? & _). split; [done|].
      by exists k, h.
    + destruct (S2 Hs) as (? & k & h & ? & ? & ? & ? & _). split; [done|].
      by exists k, h.
  - intros Hi. destruct (U1 Hi), (U2 Hi). done.
Qed.

(** ** The book-keeping of a run *)

Lemma started_app tr more : started (tr ++ more) = started tr ++ started more.
Proof. unfold started. by rewrite bind_app. Qed.

Lemma elem_of_started sid tr : sid ∈ started tr ↔ Started sid ∈ tr.
Proof.
  unfold started. rewrite list_elem_of_bind. split.
  - intros (ev & Hev & Hin). destruct ev; try by apply elem_of_nil in Hev.
    apply list_elem_of_singleton in Hev as ->. done.
  - intros Hin. exists (Started sid). split; [left|done].
Qed.

Lemma started_retry_events sid more :
  Forall (retry_event sid) more → started more = [].
Proof.
  induction 1 as [|ev more Hev _ IH]; [done|].
  unfold started in *. cbn. rewrite IH. by destruct ev.
Qed.

Lemma dependencies_first_snoc deps tr ev :
  dependencies_first deps tr →
  (∀ sid ds d, ev = Started sid → deps sid = Some ds → d ∈ ds →
     ∃ tool attempt, Call d tool attempt ∈ tr) →
  dependencies_first deps (tr ++ [ev]).
Proof.
  intros H Hev tr1 tr2 sid ds d Heq Hds Hd.
  destruct tr2 as [|x tr2 _] using rev_ind.
  - apply app_inj_tail in Heq as [-> ->]. by eapply Hev.
  - change (Started sid :: tr2 ++ [x]) with ((Started sid :: tr2) ++ [x]) in Heq.
    rewrite app_assoc in Heq. apply app_inj_tail in Heq as [-> ->].
    by eapply H.
Qed.

Lemma dependencies_first_app deps tr sid more :
  dependencies_first deps tr →
  Forall (retry_event sid) more →
  dependencies_first deps (tr ++ more).
Proof.
  intros H Hmore. induction more as [|x more IH] using rev_ind.
  - by rewrite app_nil_r.
  - apply Forall_app in Hmore as [Hmore Hx]. rewrite app_assoc.
    apply dependencies_first_snoc; [by apply IH|].
    intros s ds d ->. rewrite Forall_singleton in Hx. done.
Qed.

Section audit.
Variable env : Env.

(** The retry loop with at least one attempt to make. *)
Lemma attempts_outcome n : ∀ attempt e step tr r e' step' tr',
  (0 < n)%nat →
  n = Z.to_nat (max_retries step + 1 - Z.of_nat attempt) →
  attempts env n attempt e step tr = (r, e', step', tr') →
  ∃ more,
    tr' = tr ++ more
    ∧ Forall (retry_event (step_id step)) more
    ∧ step_outcome (step_id step) r e e' more
    ∧ step_id step' = step_id step ∧ depends_on step' = depends_on step
    ∧ max_retries step' = max_retries step ∧ tool_name step' = tool_name step
    ∧ ((∀ a, ∃ resp, invoke env (step_id step) a (tool_name step) (parameters step)
                     = Ok resp) → r = Ok tt).
Proof.
  induction n as [|n IH]; intros attempt e step tr r e' step' tr' Hn Hfuel H;
    [lia|]. cbn [attempts] in H.
  set (e0 := if cancel_during env (step_id step) attempt
             then cancel_execution e else e) in H.
  assert (He0 : completed_steps e0 = completed_steps e
                ∧ failed_steps e0 = failed_steps e ∧ errors e0 = errors e
                ∧ results e0 = results e)
    by (subst e0; by destruct (cancel_during env _ _)).
  destruct He0 as (Hc0 & Hf0 & He0 & Hr0).
  destruct (_call_mcp_tool env _ _ _ _) as [resp|err] eqn:Hcall.
  - simplify_eq. eexists [_]. split; [done|]. split; [by repeat constructor|].
    split; [|done]. left. cbn. rewrite Hc0, Hf0, He0, Hr0.
    split_and!; eauto. eexists _, _. left.
  - case_bool_decide as Hlt.
    + cbn [max_retries step_errored] in Hlt.
      apply IH in H as (more & -> & Hmore & Hout & Hid & Hdep & Hmax & Htool & Hok);
        [| lia | cbn [max_retries step_errored]; lia].
      cbn [step_id step_errored] in *.
      exists ([Call (step_id step) (tool_name step) attempt;
               Sleep (2 ^ Z.of_nat attempt)] ++ more).
      split; [by rewrite <- !app_assoc|].
      split; [apply Forall_app; split; [by repeat constructor|done]|].
      split.
      { destruct Hout as [(-> & [d Hres] & Hc & Hf & He & tool & a & Hin)
                         |(msg & -> & He & Hc & Hres & Hf)].
        - left. rewrite <- Hc0, <- Hf0, <- He0, <- Hr0. split_and!; eauto.
          exists tool, a. apply elem_of_app. by right.
        - right. exists msg. rewrite <- Hc0, <- Hf0, <- He0, <- Hr0. done. }
      split_and!; done.
    + simplify_eq. eexists [_]. split; [done|]. split; [by repeat constructor|].
      split.
      { right. exists (str err). cbn. rewrite Hc0, Hf0, He0, Hr0. done. }
      split_and!; try done.
      intros Hall. destruct (Hall attempt) as [resp Hresp].
      unfold _call_mcp_tool in Hcall. by rewrite Hresp in Hcall.
Qed.

(** [run_attempts]: nothing at all with a negative budget, one of the two
    outcomes otherwise. *)
Lemma run_attempts_outcome e step tr r e' step' tr' :
  run_attempts env e step tr = (r, e', step', tr') →
  (max_retries step < 0 ∧ r = Ok tt ∧ e' = e ∧ step' = step ∧ tr' = tr)
  ∨ (0 ≤ max_retries step
     ∧ ∃ more,
         tr' = tr ++ more
         ∧ Forall (retry_event (step_id step)) more
         ∧ step_outcome (step_id step) r e e' more
         ∧ step_id step' = step_id step ∧ depends_on step' = depends_on step
         ∧ max_retries step' = max_retries step
         ∧ tool_name step' = tool_name step
         ∧ ((∀ a, ∃ resp,
               invoke env (step_id step) a (tool_name step) (parameters step)
               = Ok resp) → r = Ok tt)).
Proof.
  unfold run_attempts. intros H.
  destruct (decide (max_retries step < 0)) as [Hneg|Hpos].
  - left. replace (Z.to_nat (max_retries step + 1)) with 0%nat in H by lia.
    cbn in H. by simplify_eq.
  - right. split; [lia|]. eapply attempts_outcome; [| |exact H]; lia.
Qed.
End audit.

Lemma faithful_elem env (s : gset string) x :
  faithful_set_order env → x ∈ set_iter env s → x ∈ s.
Proof. intros Hf Hx. rewrite (Hf s) in Hx. by apply elem_of_elements in Hx. Qed.

Lemma faithful_elem_2 env (s : gset string) x :
  faithful_set_order env → x ∈ s → x ∈ set_iter env s.
Proof. intros Hf Hx. rewrite (Hf s). by apply elem_of_elements. Qed.

Lemma faithful_NoDup env (s : gset string) :
  faithful_set_order env → NoDup (set_iter env s).
Proof. intros Hf. rewrite (Hf s). apply NoDup_elements. Qed.

Section audit_steps.
Variable ids : gset string.
Variable deps : string → option (list string).

Lemma audit_same_lists e e' tr :
  completed_steps e' = completed_steps e → failed_steps e' = failed_steps e →
  results e' = results e → errors e' = errors e →
  audit ids deps e tr → audit ids deps e' tr.
Proof.
  intros Hc Hf Hr He [A1 A2 A3 A4 A5 A6 A7 A8 A9 A10].
  split; rewrite ?Hc, ?Hf, ?Hr, ?He; done.
Qed.

(** A started step in neither list runs its retry loop. *)
Lemma audit_after_step sid r e e' tr more :
  audit ids deps e tr →
  Started sid ∈ tr →
  sid ∉ completed_steps e → sid ∉ failed_steps e →
  step_outcome sid r e e' more →
  Forall (retry_event sid) more →
  audit ids deps e' (tr ++ more).
Proof.
  intros [A1 A2 A3 A4 A5 A6 A7 A8 A9 A10] Hst Hnc Hnf Hout Hmore.
  assert (Hsid : sid ∈ ids) by by apply A8.
  assert (Hstarted : started (tr ++ more) = started tr).
  { rewrite started_app, (started_retry_events sid more) by done.
    apply app_nil_r. }
  assert (Hold : ∀ x, Started x ∈ tr ++ more → Started x ∈ tr).
  { intros x Hx. apply elem_of_started. rewrite <- Hstarted.
    by apply elem_of_started. }
  destruct Hout as [(-> & [d Hres] & Hc & Hf & He & tool & a & Hin)
                   |(msg & -> & He & Hc & Hres & Hf)].
  - split; rewrite ?Hc, ?Hf, ?He, ?Hres, ?Hstarted; try done.
    + apply NoDup_app. split; [done|]. split; [|apply NoDup_singleton].
      intros x Hx Hx'. apply list_elem_of_singleton in Hx'. by subst x.
    + intros x Hx. apply elem_of_app in Hx as [Hx|Hx]; [by apply A3|].
      apply list_elem_of_singleton in Hx. by subst x.
    + rewrite dom_insert_L, list_to_set_app_L, A5. set_solver.
    + intros x Hx. apply A8. by apply Hold.
    + intros x Hx. apply elem_of_app in Hx as [Hx|Hx].
      * destruct (A9 x Hx) as (t & k & Hcall). exists t, k.
        apply elem_of_app. by left.
      * apply list_elem_of_singleton in Hx as ->. exists tool, a.
        apply elem_of_app. by right.
    + by eapply dependencies_first_app.
  - split; rewrite ?Hc, ?Hf, ?He, ?Hres, ?Hstarted; try done.
    + apply NoDup_app. split; [done|]. split; [|apply NoDup_singleton].
      intros x Hx Hx'. apply list_elem_of_singleton in Hx'. by subst x.
    + intros x Hx. apply elem_of_app in Hx as [Hx|Hx]; [by apply A4|].
      apply list_elem_of_singleton in Hx. by subst x.
    + rewrite dom_insert_L, list_to_set_app_L. set_solver.
    + intros x Hx. apply A8. by apply Hold.
    + intros x Hx. destruct (A9 x Hx) as (t & k & Hcall). exists t, k.
      apply elem_of_app. by left.
    + by eapply dependencies_first_app.
Qed.

(** Entering a step that was not started before and whose dependencies
    are completed. *)
Lemma audit_enter sid ds e tr :
  audit ids deps e tr →
  Started sid ∉ tr → sid ∈ ids →
  deps sid = Some ds →
  (∀ d, d ∈ ds → d ∈ completed_steps e) →
  audit ids deps (set_current_step sid e) (tr ++ [Started sid]).
Proof.
  intros [A1 A2 A3 A4 A5 A6 A7 A8 A9 A10] Hfresh Hsid Hds Hready.
  split; cbn; try done.
  - rewrite started_app. cbn. apply NoDup_app. split; [done|].
    split; [|apply NoDup_singleton].
    intros x Hx Hx'. apply list_elem_of_singleton in Hx'. subst x.
    by apply elem_of_started in Hx.
  - intros x Hx. apply elem_of_app in Hx as [Hx|Hx]; [by apply A8|].
    apply list_elem_of_singleton in Hx. by simplify_eq.
  - intros x Hx. destruct (A9 x Hx) as (t & k & Hcall). exists t, k.
    apply elem_of_app. by left.
  - apply dependencies_first_snoc; [done|].
    intros s ds' d [= <-] Hds' Hd. simplify_eq. by apply A9, Hready.
Qed.

(** The cascade marks a step that is in neither list. *)
Lemma audit_append_failed sid e tr :
  audit ids deps e tr → sid ∈ ids → sid ∉ failed_steps e →
  audit ids deps (append_failed sid e) tr.
Proof.
  intros [A1 A2 A3 A4 A5 A6 A7 A8 A9 A10] Hsid Hnf. split; cbn; try done.
  - apply NoDup_app. split; [done|]. split; [|apply NoDup_singleton].
    intros x Hx Hx'. apply list_elem_of_singleton in Hx'. by subst x.
  - intros x Hx. apply elem_of_app in Hx as [Hx|Hx]; [by apply A4|].
    apply list_elem_of_singleton in Hx. by subst x.
  - rewrite list_to_set_app_L. set_solver.
Qed.
End audit_steps.

Lemma ready_steps_sublist e smap l : ∀ ready,
  (∀ k s, smap !! k = Some s → step_id s = k) →
  ready_steps e smap l = Ok ready →
  sublist (step_id <$> ready) l.
Proof.
  induction l as [|sid l IH]; intros ready Hids H; cbn [ready_steps] in H.
  - by simplify_eq.
  - destruct (smap !! sid) as [s|] eqn:Hs; [|done].
    destruct (ready_steps e smap l) as [ready'|]; [|done]. simplify_eq.
    specialize (IH ready' Hids eq_refl).
    destruct (is_ready e s).
    + cbn. rewrite (Hids _ _ Hs). by apply sublist_skip.
    + by apply sublist_cons.
Qed.

Section audit_loops.
Variable env : Env.
Variable ids : gset string.
Variable deps : string → option (list string).
Hypothesis faithful : faithful_set_order env.

Lemma skip_failed_audit l : ∀ st r st',
  audit_inv ids deps st →
  NoDup l → (∀ x, x ∈ l → x ∈ remaining_steps st) →
  skip_failed l st = (r, st') →
  r = Ok tt ∧ audit_inv ids deps st'.
Proof.
  induction l as [|sid l IH]; intros st r st' Hinv Hnd Hl H.
  { cbn in H. by simplify_eq. }
  apply NoDup_cons in Hnd as [Hnotin Hnd].
  assert (Hin : sid ∈ remaining_steps st) by (apply Hl; left).
  destruct Hinv as [Hloop Haudit Hrem Hfresh].
  destruct (li_remaining _ _ Hloop sid Hin) as (Hnc & Hnf & _).
  pose proof (skip_failed_inv env deps (λ s x, faithful_elem env s x faithful)
                [sid] st) as Hone.
  cbn [skip_failed] in H, Hone. unfold remove_remaining in H, Hone.
  cbn [remaining_steps] in H, Hone.
  rewrite bool_decide_eq_true_2 in H, Hone by done.
  cbn in H, Hone.
  match type of H with
  | skip_failed _ ?s = _ =>
      destruct (Hone (Ok tt) s Hloop) as [_ Hloop1]; [|reflexivity|]
  end.
  { intros x Hx. apply list_elem_of_singleton in Hx. by subst x. }
  apply IH in H; [done| |done|].
  - split; cbn.
    + by apply Hloop1.
    + apply audit_append_failed; [done|set_solver|done].
    + set_solver.
    + intros x Hx. apply Hfresh. set_solver.
  - cbn. intros x Hx. apply elem_of_difference. split; [apply Hl; by right|].
    intros Hx'. apply elem_of_singleton in Hx'. by subst x.
Qed.

Lemma seq_body_audit st r st' :
  audit_inv ids deps st →
  seq_body env st = (r, st') →
  audit ids deps (execution st') (trace st')
  ∧ (r = Ok tt → audit_inv ids deps st').
Proof.
  intros Hinv H.
  pose proof (seq_body_inv env deps (λ s x, faithful_elem env s x faithful)
                st r st' (ai_loop _ _ _ Hinv) H) as [Hsafe' Hloop'].
  unfold seq_body in H.
  destruct (ready_steps _ _ _) as [[|step l]|err] eqn:Hready.
  - destruct (failed_deps _ _ _) as [fd|err] eqn:Hfd.
    2:{ simplify_eq. split; [apply Hinv|done]. }
    case_bool_decide; [simplify_eq; split; [apply Hinv|done]|].
    apply skip_failed_audit in H as [-> Hinv']; [split; [apply Hinv'|done]|done| |].
    + by apply faithful_NoDup.
    + intros x Hx. apply (faithful_elem env) in Hx; [|done].
      eapply failed_deps_subset in Hx; [|exact Hfd].
      by apply (faithful_elem env) in Hx.
  - destruct (ready_steps_elem _ _ _ _ step Hready) as (sid & Hsid & Hstep & Hr);
      [left|].
    apply (faithful_elem env) in Hsid; [|done].
    destruct Hinv as [Hloop Haudit Hrem Hfresh].
    pose proof (li_ids _ _ Hloop _ _ Hstep) as Hsid_eq.
    pose proof (li_shape _ _ Hloop sid) as Hdeps. rewrite Hstep in Hdeps.
    cbn in Hdeps.
    destruct (li_remaining _ _ Hloop sid Hsid) as (Hnc & Hnf & Hnone).
    unfold _execute_step, enter_step in H. rewrite Hsid_eq in H.
    destruct (run_attempts env _ _ _) as [[[r1 e1] step1] tr1] eqn:Hat.
    assert (Ha0 : audit ids deps (set_current_step sid (execution st))
                       (trace st ++ [Started sid])).
    { apply (audit_enter ids deps sid (depends_on step)); [done| | |done|].
      - by apply Hfresh.
      - by apply Hrem.
      - intros d. by apply is_ready_true. }
    assert (Ha1 : audit ids deps e1 tr1
                  ∧ ∀ x, Started x ∈ tr1 → Started x ∈ trace st ∨ x = sid).
    { apply run_attempts_outcome in Hat
        as [(_ & _ & -> & _ & ->)|(_ & more & -> & Hmore & Hout & _)].
      - split; [done|]. intros x Hx. apply elem_of_app in Hx as [Hx|Hx]; [by left|].
        apply list_elem_of_singleton in Hx. right. by simplify_eq.
      - cbn [step_id step_running] in Hmore, Hout. rewrite Hsid_eq in Hmore, Hout.
        split.
        + eapply audit_after_step; [exact Ha0| | | |exact Hout|exact Hmore].
          * apply elem_of_app. right. left.
          * done.
          * done.
        + intros x Hx. apply elem_of_app in Hx as [Hx|Hx].
          * apply elem_of_app in Hx as [Hx|Hx]; [by left|].
            apply list_elem_of_singleton in Hx. right. by simplify_eq.
          * by apply (retry_event_not_started _ _ _ Hmore) in Hx. }
    destruct Ha1 as [Ha1 Hnew].
    destruct r1 as [[]|err]; [|simplify_eq; by split].
    unfold remove_remaining in H. cbn [remaining_steps after_step] in H.
    rewrite bool_decide_eq_true_2 in H by done. injection H as <- <-.
    split; [done|]. intros _. split; cbn.
    + by apply Hloop'.
    + done.
    + set_solver.
    + intros x Hx Hst. apply elem_of_difference in Hx as [Hx Hne].
      destruct (Hnew x Hst) as [Hold| ->]; [by apply (Hfresh x)|set_solver].
  - simplify_eq. split; [apply Hinv|done].
Qed.

Lemma sequential_loop_audit fuel : ∀ st,
  audit_inv ids deps st →
  audit ids deps (execution (sequential_loop env fuel st).2)
        (trace (sequential_loop env fuel st).2).
Proof.
  induction fuel as [|fuel IH]; intros st Hinv; cbn [sequential_loop];
    case_bool_decide; try apply Hinv.
  destruct (seq_body env st) as [[[]|err] st1] eqn:Hb;
    apply seq_body_audit in Hb as [Hs Hl]; try done.
  apply IH. by apply Hl.
Qed.

Lemma start_tasks_audit ready : ∀ st r st',
  audit_inv ids deps st →
  NoDup (step_id <$> ready) →
  (∀ step, step ∈ ready →
     step_id step ∈ remaining_steps st
     ∧ deps (step_id step) = Some (depends_on step)
     ∧ ∀ d, d ∈ depends_on step → d ∈ completed_steps (execution st)) →
  start_tasks ready st = (r, st') →
  r = Ok tt ∧ audit_inv ids deps st'.
Proof.
  induction ready as [|step ready IH]; intros st r st' Hinv Hnd Hready H.
  { cbn in H. by simplify_eq. }
  cbn [fmap list_fmap] in Hnd. apply NoDup_cons in Hnd as [Hnotin Hnd].
  destruct (Hready step) as (Hin & Hdeps & Hcompl); [left|].
  destruct Hinv as [Hloop Haudit Hrem Hfresh].
  pose proof (start_tasks_inv env deps (λ s x, faithful_elem env s x faithful)
                [step] st) as Hone.
  cbn [start_tasks] in H, Hone. unfold enter_step in H, Hone.
  unfold remove_remaining in H, Hone. cbn [remaining_steps] in H, Hone.
  rewrite bool_decide_eq_true_2 in H, Hone by done.
  cbn in H, Hone.
  match type of H with
  | start_tasks _ ?s = _ =>
      destruct (Hone (Ok tt) s Hloop) as [_ Hloop1]; [|reflexivity|]
  end.
  { intros s Hs. apply list_elem_of_singleton in Hs. by subst s. }
  apply IH in H; [done| |done|].
  - split; cbn.
    + by apply Hloop1.
    + eapply audit_enter; [done| | |exact Hdeps|exact Hcompl].
      * by apply Hfresh.
      * by apply Hrem.
    + set_solver.
    + intros x Hx Hst. apply elem_of_difference in Hx as [Hx Hne].
      apply elem_of_app in Hst as [Hst|Hst]; [by apply (Hfresh x)|].
      apply list_elem_of_singleton in Hst. simplify_eq. set_solver.
  - cbn. intros s Hs. destruct (Hready s) as (? & ? & ?); [by right|].
    split; [|done]. apply elem_of_difference. split; [done|].
    intros Hx. apply elem_of_singleton in Hx. apply Hnotin.
    rewrite <- Hx. apply list_elem_of_fmap. by exists s.
Qed.

Lemma finish_task_audit st sid :
  audit_inv ids deps st → audit_inv ids deps (finish_task env st sid).
Proof.
  intros Hinv.
  pose proof (finish_task_inv env deps (λ s x, faithful_elem env s x faithful)
                st sid (ai_loop _ _ _ Hinv)) as Hloop'.
  unfold finish_task in *.
  destruct (running_tasks st !! sid) as [[step|]|] eqn:Htask; try done.
  destruct Hinv as [Hloop Haudit Hrem Hfresh].
  destruct (li_running _ _ Hloop sid step Htask) as (Hsid & Hdeps & Hst & Hnc & Hnf).
  destruct (run_attempts env _ _ _) as [[[r1 e1] step1] tr1] eqn:Hat.
  apply run_attempts_outcome in Hat
    as [(_ & _ & -> & -> & ->)|(_ & more & -> & Hmore & Hout & _)].
  - split; cbn; done.
  - rewrite Hsid in Hmore, Hout. split; cbn; try done.
    + by eapply audit_after_step.
    + intros x Hx Hstx. apply elem_of_app in Hstx as [Hstx|Hstx].
      * by apply (Hfresh x).
      * by apply (retry_event_not_started _ _ _ Hmore) in Hstx.
Qed.

Lemma finish_tasks_audit l : ∀ st,
  audit_inv ids deps st → audit_inv ids deps (foldl (finish_task env) st l).
Proof.
  induction l as [|sid l IH]; intros st Hinv; cbn [foldl]; [done|].
  apply IH. by apply finish_task_audit.
Qed.

Lemma par_body_audit st r st' :
  audit_inv ids deps st →
  par_body env st = (r, st') →
  audit ids deps (execution st') (trace st')
  ∧ (r = Ok tt → audit_inv ids deps st').
Proof.
  intros Hinv H.
  pose proof (par_body_inv env deps (λ s x, faithful_elem env s x faithful)
                st r st' (ai_loop _ _ _ Hinv) H) as [Hsafe' Hloop'].
  unfold par_body in H.
  destruct (ready_steps _ _ _) as [ready|err] eqn:Hready.
  2:{ simplify_eq. split; [apply Hinv|done]. }
  destruct (start_tasks ready st) as [r1 st1] eqn:Hstart.
  destruct (start_tasks_audit ready st r1 st1 Hinv) as [-> Hinv1]; [| |exact Hstart|].
  { apply (sublist_NoDup _ (set_iter env (remaining_steps st)));
      [by apply faithful_NoDup|].
    eapply ready_steps_sublist; [|exact Hready].
    apply (li_ids _ _ (ai_loop _ _ _ Hinv)). }
  { intros step Hstep.
    destruct (ready_steps_elem _ _ _ _ step Hready Hstep) as (sid & Hsid & Hm & Hr).
    pose proof (li_ids _ _ (ai_loop _ _ _ Hinv) _ _ Hm) as Hsid_eq.
    pose proof (li_shape _ _ (ai_loop _ _ _ Hinv) sid) as Hd.
    rewrite Hm in Hd. cbn in Hd.
    apply (faithful_elem env) in Hsid; [|done].
    rewrite Hsid_eq. split; [done|]. split; [done|].
    intros d. by apply is_ready_true. }
  case_bool_decide; [simplify_eq; split; [apply Hinv1|done]|].
  pose proof (finish_tasks_audit (wait env st1) st1 Hinv1) as Hinv2.
  injection H as <- <-. cbn.
  destruct Hinv2 as [Hloop Haudit Hrem Hfresh].
  split; [done|]. intros _. split; cbn; try done. by apply Hloop'.
Qed.

Lemma parallel_loop_audit fuel : ∀ st,
  audit_inv ids deps st →
  audit ids deps (execution (parallel_loop env fuel st).2)
        (trace (parallel_loop env fuel st).2).
Proof.
  induction fuel as [|fuel IH]; intros st Hinv; cbn [parallel_loop];
    destruct (_ && _); try apply Hinv.
  destruct (par_body env st) as [[[]|err] st1] eqn:Hb;
    apply par_body_audit in Hb as [Hs Hl]; try done.
  apply IH. by apply Hl.
Qed.
End audit_loops.

Lemma safe_ext deps deps' e tr :
  (∀ k, deps k = deps' k) → safe deps e tr → safe deps' e tr.
Proof.
  intros Hext [S1 S2 S3 S4 S5]. split; try done.
  intros sid ds d Hst Hds. rewrite <- Hext in Hds. by eapply S1.
Qed.

Lemma audit_ext ids deps deps' e tr :
  (∀ k, deps k = deps' k) → audit ids deps e tr → audit ids deps' e tr.
Proof.
  intros Hext [A1 A2 A3 A4 A5 A6 A7 A8 A9 A10]. split; try done.
  intros tr1 tr2 sid ds d Heq Hds. rewrite <- Hext in Hds. by eapply A10.
Qed.

Lemma step_ids_of_apply_runtime_parameters sts runtime :
  step_ids_of (_apply_runtime_parameters sts runtime) = step_ids_of sts.
Proof.
  unfold step_ids_of. fold (ids_of (_apply_runtime_parameters sts runtime)).
  by rewrite apply_runtime_parameters_ids.
Qed.

Lemma initial_state_audit e sts :
  completed_steps e = [] → failed_steps e = [] →
  results e = ∅ → errors e = ∅ →
  audit_inv (step_ids_of sts) (deps_of sts) (initial_state e sts []).
Proof.
  intros Hc Hf Hr He. split; cbn.
  - by apply initial_state_inv.
  - split; rewrite ?Hc, ?Hf, ?Hr, ?He; cbn.
    + apply NoDup_nil_2.
    + apply NoDup_nil_2.
    + intros ? H. by apply elem_of_nil in H.
    + intros ? H. by apply elem_of_nil in H.
    + by rewrite dom_empty_L.
    + by rewrite dom_empty_L.
    + apply NoDup_nil_2.
    + intros ? H. by apply elem_of_nil in H.
    + intros ? H. by apply elem_of_nil in H.
    + intros tr1 tr2 sid ds d Heq. by destruct tr1.
  - done.
  - intros sid _ H. by apply elem_of_nil in H.
Qed.

(** Whatever [execute_workflow] has done after [fuel] iterations, the
    record it has registered and the events so far are safe and keep
    their books. *)
Lemma execute_workflow_audit env fuel wm wid eid params def o wm' tr :
  faithful_set_order env →
  workflow_definitions wm !! wid = Some def →
  execute_workflow env fuel wm wid eid params = (o, wm', tr) →
  ∃ e,
    stored wm' (execution_id_of env eid) = Some e
    ∧ (∀ e0, o = Returned e0 → e0 = e)
    ∧ safe (deps_of (steps def)) e tr
    ∧ audit (step_ids_of (steps def)) (deps_of (steps def)) e tr.
Proof.
  intros Hfaith Hdef H. unfold execute_workflow in H. rewrite Hdef in H.
  fold (execution_id_of env eid) in H.
  set (e0 := set_status WorkflowStatus.IN_PROGRESS _) in H.
  set (sts := _apply_runtime_parameters _ _) in H.
  pose proof (λ s x, faithful_elem env s x Hfaith) as Hiter.
  assert (Hinit : audit_inv (step_ids_of sts) (deps_of sts)
                    (initial_state e0 sts []))
    by (by apply initial_state_audit).
  destruct (if parallel_execution def then _ else _) as [p st] eqn:Hloop.
  assert (Hsafe : safe (deps_of sts) (execution st) (trace st)).
  { destruct (parallel_execution def).
    - pose proof (parallel_loop_safe env _ Hiter fuel _ (ai_loop _ _ _ Hinit)) as Hs.
      unfold _execute_parallel_workflow in Hloop. by rewrite Hloop in Hs.
    - pose proof (sequential_loop_safe env _ Hiter fuel _ (ai_loop _ _ _ Hinit)) as Hs.
      unfold _execute_sequential_workflow in Hloop. by rewrite Hloop in Hs. }
  assert (Haudit : audit (step_ids_of sts) (deps_of sts) (execution st) (trace st)).
  { destruct (parallel_execution def).
    - pose proof (parallel_loop_audit env _ _ Hfaith fuel _ Hinit) as Hs.
      unfold _execute_parallel_workflow in Hloop. by rewrite Hloop in Hs.
    - pose proof (sequential_loop_audit env _ _ Hfaith fuel _ Hinit) as Hs.
      unfold _execute_sequential_workflow in Hloop. by rewrite Hloop in Hs. }
  assert (Heid : execution_id (execution st) = execution_id_of env eid).
  { destruct (parallel_execution def).
    - unfold _execute_parallel_workflow in Hloop.
      pose proof (parallel_loop_execution_id env fuel (initial_state e0 sts []))
        as Hid. by rewrite Hloop in Hid.
    - unfold _execute_sequential_workflow in Hloop.
      pose proof (sequential_loop_execution_id env fuel (initial_state e0 sts []))
        as Hid. by rewrite Hloop in Hid. }
  apply (safe_ext _ (deps_of (steps def))) in Hsafe;
    [|apply step_map_of_apply_runtime_parameters].
  apply (audit_ext _ _ (deps_of (steps def))) in Haudit;
    [|apply step_map_of_apply_runtime_parameters].
  unfold sts in Haudit at 1. rewrite step_ids_of_apply_runtime_parameters in Haudit.
  assert (Hfinal : ∀ e1 o1,
            (∀ e2, o1 = Returned e2 → e2 = e1) →
            (∃ s, e1 = set_status s (execution st)) ∨ e1 = execution st →
            (o1, registered wm e1, trace st) = (o, wm', tr) →
            ∃ e,
              stored wm' (execution_id_of env eid) = Some e
              ∧ (∀ e0, o = Returned e0 → e0 = e)
              ∧ safe (deps_of (steps def)) e tr
              ∧ audit (step_ids_of (steps def)) (deps_of (steps def)) e tr).
  { intros e1 o1 Ho He1 Heq. injection Heq as <- <- <-. exists e1.
    assert (Hid1 : execution_id e1 = execution_id_of env eid)
      by (destruct He1 as [[s ->] | ->]; exact Heid).
    split; [unfold stored, registered; cbn; by rewrite Hid1, lookup_insert_eq|].
    split; [done|].
    destruct He1 as [[s ->] | ->]; [|done]. split.
    - by apply (safe_same_lists _ (execution st)).
    - by apply (audit_same_lists _ _ (execution st)). }
  destruct p as [|[[]|err]].
  - eapply Hfinal; [|by right|exact H]. done.
  - eapply Hfinal; [|left; eauto|exact H]. by intros ? [= <-].
  - destruct err; (eapply Hfinal; [|left; eauto|exact H]; done).
Qed.

Lemma NoDup_length_le_size (l : list string) (X : gset string) :
  NoDup l → (∀ x, x ∈ l → x ∈ X) → (length l ≤ size X)%nat.
Proof.
  intros Hnd Hsub. unfold size, set_size. cbn.
  apply submseteq_length, NoDup_submseteq; [done|].
  intros x Hx. apply elem_of_elements. by apply Hsub.
Qed.

(** X7: however a run of a registered definition ends, in either mode,
    the execution it leaves in the registry (the one it returns, when
    it returns) keeps consistent books: no step id occurs twice in
    [completed_steps] and [failed_steps] together, every one of them is
    a step id of the definition, [results] has exactly the completed
    steps as keys, [errors] only failed ones, and the two lists are
    together no longer than the definition. *)
Theorem execution_record_is_consistent env fuel wm wid eid params def o wm' tr :
  faithful_set_order env →
  workflow_definitions wm !! wid = Some def →
  execute_workflow env fuel wm wid eid params = (o, wm', tr) →
  ∃ e,
    stored wm' (execution_id_of env eid) = Some e
    ∧ (∀ e0, o = Returned e0 → e0 = e)
    ∧ NoDup (completed_steps e ++ failed_steps e)
    ∧ (∀ sid, sid ∈ completed_steps e ++ failed_steps e → sid ∈ ids_of (steps def))
    ∧ dom (results e) = (list_to_set (completed_steps e) : gset string)
    ∧ dom (errors e) ⊆ (list_to_set (failed_steps e) : gset string)
    ∧ (length (completed_steps e) + length (failed_steps e)
       ≤ length (steps def))%nat.
Proof.
  intros Hfaith Hdef H.
  destruct (execute_workflow_audit _ _ _ _ _ _ _ _ _ _ Hfaith Hdef H)
    as (e & Hst & Hret & Hsafe & [A1 A2 A3 A4 A5 A6 A7 A8 A9 A10]).
  exists e. split; [done|]. split; [done|].
  assert (Hnd : NoDup (completed_steps e ++ failed_steps e)).
  { apply NoDup_app. split; [done|]. split; [|done].
    intros x Hx. by apply (safe_disjoint _ _ _ Hsafe). }
  assert (Hin : ∀ sid, sid ∈ completed_steps e ++ failed_steps e →
                       sid ∈ step_ids_of (steps def)).
  { intros sid Hsid. apply elem_of_app in Hsid as [?|?]; [by apply A3|by apply A4]. }
  split; [done|]. split; [intros sid Hsid; by apply elem_of_step_ids_of, Hin|].
  split; [done|]. split; [done|].
  rewrite <- length_app.
  etrans; [by apply (NoDup_length_le_size _ (step_ids_of (steps def)))|].
  unfold step_ids_of. rewrite <- (length_fmap step_id (steps def)).
  apply size_list_to_set_le.
Qed.

Lemma execution_record_is_consistent_witness :
  let env := mock_env ["tool_a"] in
  let wm := manager_with blocked_pair 30 true in
  faithful_set_order env
  ∧ ∃ def o wm' tr,
      workflow_definitions wm !! "w" = Some def
      ∧ execute_workflow env 3 wm "w" (Some "run") None = (o, wm', tr)
      ∧ ∃ e,
          stored wm' (execution_id_of env (Some "run")) = Some e
          ∧ (∀ e0, o = Returned e0 → e0 = e)
          ∧ NoDup (completed_steps e ++ failed_steps e)
          ∧ (∀ sid, sid ∈ completed_steps e ++ failed_steps e →
                    sid ∈ ids_of (steps def))
          ∧ dom (results e) = (list_to_set (completed_steps e) : gset string)
          ∧ dom (errors e) ⊆ (list_to_set (failed_steps e) : gset string)
          ∧ (length (completed_steps e) + length (failed_steps e)
             ≤ length (steps def))%nat.
Proof.
  intros env wm.
  assert (Hfaith : faithful_set_order env) by (intros s; reflexivity).
  split; [exact Hfaith|].
  eexists _, _, _, _.
  split; [vm_compute; reflexivity|].
  split; [vm_compute; reflexivity|].
  eapply (execution_record_is_consistent env 3 wm "w" (Some "run") None);
    [exact Hfaith | vm_compute; reflexivity | vm_compute; reflexivity].
Defined.

(** X8: in a run of a registered definition, in either mode and with
    any number of retries, [_execute_step] is entered at most once for
    each step id, only for step ids of the definition, and a tool is
    called only for a step that was entered. *)
Theorem no_step_is_started_twice env fuel wm wid eid params def o wm' tr :
  faithful_set_order env →
  workflow_definitions wm !! wid = Some def →
  execute_workflow env fuel wm wid eid params = (o, wm', tr) →
  NoDup (started tr)
  ∧ (∀ sid, sid ∈ started tr → sid ∈ ids_of (steps def))
  ∧ (∀ sid tool attempt, Call sid tool attempt ∈ tr → sid ∈ started tr).
Proof.
  intros Hfaith Hdef H.
  destruct (execute_workflow_audit _ _ _ _ _ _ _ _ _ _ Hfaith Hdef H)
    as (e & Hst & Hret & Hsafe & [A1 A2 A3 A4 A5 A6 A7 A8 A9 A10]).
  split; [done|]. split.
  - intros sid Hsid. apply elem_of_step_ids_of, A8. by apply elem_of_started.
  - intros sid tool attempt Hc. apply elem_of_started.
    by apply (safe_call _ _ _ Hsafe sid tool attempt).
Qed.

Lemma no_step_is_started_twice_witness :
  let env := flaky_env in
  let wm := manager_with patient_step 30 false in
  faithful_set_order env
  ∧ ∃ def o wm' tr,
      workflow_definitions wm !! "w" = Some def
      ∧ execute_workflow env 1 wm "w" (Some "run") None = (o, wm', tr)
      ∧ NoDup (started tr)
      ∧ (∀ sid, sid ∈ started tr → sid ∈ ids_of (steps def))
      ∧ (∀ sid tool attempt, Call sid tool attempt ∈ tr → sid ∈ started tr).
Proof.
  intros env wm.
  assert (Hfaith : faithful_set_order env) by (intros s; reflexivity).
  split; [exact Hfaith|].
  eexists _, _, _, _.
  split; [vm_compute; reflexivity|].
  split; [vm_compute; reflexivity|].
  eapply (no_step_is_started_twice env 1 wm "w" (Some "run") None);
    [exact Hfaith | vm_compute; reflexivity | vm_compute; reflexivity].
Defined.

(** X9: in a run of a registered definition, in either mode, every
    dependency of a step that was started, and of a step that
    completed, is itself in [completed_steps] of the execution the run
    leaves in the registry; and in the record of events the tool of
    each dependency is called before the step starts. *)
Theorem steps_start_after_their_dependencies env fuel wm wid eid params def o wm' tr :
  faithful_set_order env →
  workflow_definitions wm !! wid = Some def →
  execute_workflow env fuel wm wid eid params = (o, wm', tr) →
  ∃ e,
    stored wm' (execution_id_of env eid) = Some e
    ∧ (∀ sid ds d,
         Started sid ∈ tr → deps_of (steps def) sid = Some ds → d ∈ ds →
         d ∈ completed_steps e)
    ∧ (∀ sid ds d,
         sid ∈ completed_steps e → deps_of (steps def) sid = Some ds → d ∈ ds →
         d ∈ completed_steps e)
    ∧ dependencies_first (deps_of (steps def)) tr.
Proof.
  intros Hfaith Hdef H.
  destruct (execute_workflow_audit _ _ _ _ _ _ _ _ _ _ Hfaith Hdef H)
    as (e & Hst & Hret & Hsafe & [A1 A2 A3 A4 A5 A6 A7 A8 A9 A10]).
  exists e. split; [done|]. split; [apply (safe_ready _ _ _ Hsafe)|].
  split; [|done]. intros sid ds d Hsid. apply (safe_ready _ _ _ Hsafe).
  by apply (safe_completed _ _ _ Hsafe).
Qed.

Lemma steps_start_after_their_dependencies_witness :
  let env := mock_env [] in
  let wm := manager_with chain_of_two 30 true in
  faithful_set_order env
  ∧ ∃ def o wm' tr,
      workflow_definitions wm !! "w" = Some def
      ∧ execute_workflow env 2 wm "w" (Some "run") None = (o, wm', tr)
      ∧ ∃ e,
          stored wm' (execution_id_of env (Some "run")) = Some e
          ∧ (∀ sid ds d,
               Started sid ∈ tr → deps_of (steps def) sid = Some ds → d ∈ ds →
               d ∈ completed_steps e)
          ∧ (∀ sid ds d,
               sid ∈ completed_steps e → deps_of (steps def) sid = Some ds →
               d ∈ ds → d ∈ completed_steps e)
          ∧ dependencies_first (deps_of (steps def)) tr.
Proof.
  intros env wm.
  assert (Hfaith : faithful_set_order env) by (intros s; reflexivity).
  split; [exact Hfaith|].
  eexists _, _, _, _.
  split; [vm_compute; reflexivity|].
  split; [vm_compute; reflexivity|].
  eapply (steps_start_after_their_dependencies env 2 wm "w" (Some "run") None);
    [exact Hfaith | vm_compute; reflexivity | vm_compute; reflexivity].
Defined.

(** ** Sequential runs of validated definitions *)

Lemma tc_last_edge {A} (R : relation A) x y : tc R x y → ∃ z, R z y.
Proof.
  induction 1 as [x y Hxy|x y z _ _ IH]; [by exists x|exact IH].
Qed.

(** In a finite acyclic graph, a non-empty set of nodes whose edges lead
    into the set or into [C] has a node all of whose edges lead into
    [C]. *)
Lemma some_step_is_ready (smap : gmap string WorkflowStep) (R : gset string)
    (C : list string) :
  (∀ x, ¬ tc (map_edge smap) x x) →
  (∀ k, k ∈ R → is_Some (smap !! k)) →
  (∀ k s d, smap !! k = Some s → d ∈ depends_on s → d ∈ R ∨ d ∈ C) →
  R ≠ ∅ →
  ∃ k s, k ∈ R ∧ smap !! k = Some s ∧ ∀ d, d ∈ depends_on s → d ∈ C.
Proof.
  intros Hacyc Hdom Hedges Hne.
  apply set_choose_L in Hne as [x Hx].
  assert (Hsn : sn (map_edge smap) x).
  { apply tc_finite_sn; [exact Hacyc|].
    exists ((map_to_list smap) ≫= λ p, depends_on p.2).
    intros y Hy. apply tc_last_edge in Hy as (z & s & Hz & Hd).
    apply list_elem_of_bind. exists (z, s). split; [done|].
    by apply elem_of_map_to_list. }
  induction Hsn as [x _ IH].
  destruct (Hdom x Hx) as [s Hs].
  destruct (decide (Forall (λ d, d ∈ C) (depends_on s))) as [Hall|Hnot].
  - exists x, s. split; [done|]. split; [done|]. by apply Forall_forall.
  - apply not_Forall_Exists in Hnot; [|apply _].
    apply Exists_exists in Hnot as (d & Hd & HdC). cbn in HdC.
    destruct (Hedges x s d Hs Hd) as [HdR|?]; [|done].
    apply (IH d); [|done]. by exists s.
Qed.

Lemma ready_steps_complete e smap ids : ∀ l k s,
  ready_steps e smap ids = Ok l →
  k ∈ ids → smap !! k = Some s → is_ready e s = true → s ∈ l.
Proof.
  induction ids as [|sid ids IH]; intros l k s H Hk Hs Hr; cbn [ready_steps] in H.
  - by apply elem_of_nil in Hk.
  - destruct (smap !! sid) as [s0|] eqn:Hs0; [|done].
    destruct (ready_steps e smap ids) as [l'|]; [|done]. simplify_eq.
    apply elem_of_cons in Hk as [->|Hk].
    + simplify_eq. rewrite Hr. left.
    + specialize (IH l' k s eq_refl Hk Hs Hr).
      destruct (is_ready e s0); [by right|done].
Qed.

Lemma is_ready_intro e step :
  (∀ d, d ∈ depends_on step → d ∈ completed_steps e) → is_ready e step = true.
Proof.
  intros H. unfold is_ready. apply forallb_forall. intros d Hd.
  apply bool_decide_eq_true_2, H. by apply list_elem_of_In.
Qed.

Section sequential_completeness.
Variable env : Env.
Variable sts : list WorkflowStep.
Hypothesis faithful : faithful_set_order env.
Hypothesis Hrun : runnable sts.

Lemma seq_inv_acyclic st :
  seq_inv sts st → ∀ x, ¬ tc (map_edge (step_map st)) x x.
Proof.
  intros Hinv x Hx. apply (run_acyclic _ Hrun x).
  eapply tc_weaken; [|exact Hx]. intros a b (s & Ha & Hb).
  pose proof (li_shape _ _ (ai_loop _ _ _ (sq_audit _ _ Hinv)) a) as Hd.
  rewrite Ha in Hd. cbn in Hd. unfold deps_of in Hd.
  destruct (step_map_of sts !! a) as [s0|] eqn:Hs0; [|done].
  exists s0. split; [done|]. cbn in Hd. simplify_eq. congruence.
Qed.

Lemma seq_inv_edges st k s d :
  seq_inv sts st →
  step_map st !! k = Some s → d ∈ depends_on s →
  d ∈ remaining_steps st ∨ d ∈ completed_steps (execution st).
Proof.
  intros Hinv Hs Hd. apply (sq_all _ _ Hinv).
  pose proof (li_shape _ _ (ai_loop _ _ _ (sq_audit _ _ Hinv)) k) as Hshape.
  rewrite Hs in Hshape. cbn in Hshape. unfold deps_of in Hshape.
  destruct (step_map_of sts !! k) as [s0|] eqn:Hs0; [|done].
  cbn in Hshape. simplify_eq.
  apply (run_deps _ Hrun k s0 d Hs0). congruence.
Qed.

(** One turn of the sequential loop while nothing has failed: it runs a
    step, which completes or fails. *)
Lemma seq_body_complete st r st' :
  seq_inv sts st → remaining_steps st ≠ ∅ →
  seq_body env st = (r, st') →
  ((r = Ok tt ∧ seq_inv sts st' ∧ remaining_steps st' ⊂ remaining_steps st)
   ∨ (∃ sid msg,
        r = Raise (WorkflowStepError ("Step " +:+ sid +:+ " failed: " +:+ msg))
        ∧ failed_steps (execution st') = [sid]
        ∧ errors (execution st') !! sid = Some msg))
  ∧ (always_answers env → r = Ok tt).
Proof.
  intros Hinv Hne H.
  pose proof (seq_body_audit env _ _ faithful st r st' (sq_audit _ _ Hinv) H)
    as [_ Haudit'].
  assert (Hprog : r = Ok tt → remaining_steps st' ⊂ remaining_steps st).
  { intros ->. by apply (seq_body_progress env faithful). }
  destruct Hinv as [Haud Hfailed Hretries Hdom Hall].
  pose proof Haud as [Hloop Haudit Hrem Hfresh].
  destruct (ready_steps_total (execution st) (step_map st)
              (set_iter env (remaining_steps st))) as [l Hl].
  { intros x Hx. apply Hdom, Hrem. by apply (faithful_elem env). }
  destruct (some_step_is_ready (step_map st) (remaining_steps st)
              (completed_steps (execution st)))
    as (k & s & Hk & Hs & Hready); [| | |done|].
  { by apply seq_inv_acyclic. }
  { intros x Hx. apply Hdom, Hrem, Hx. }
  { intros x sx d. by apply seq_inv_edges. }
  assert (Hin : s ∈ l).
  { eapply ready_steps_complete; [exact Hl| |exact Hs|by apply is_ready_intro].
    by apply faithful_elem_2. }
  unfold seq_body in H. rewrite Hl in H.
  destruct l as [|step l]; [by apply elem_of_nil in Hin|].
  destruct (ready_steps_elem _ _ _ _ step Hl) as (sid & Hsid & Hstep & Hr);
    [left|].
  apply (faithful_elem env) in Hsid; [|done].
  pose proof (li_ids _ _ Hloop _ _ Hstep) as Hsid_eq.
  unfold _execute_step, enter_step in H. rewrite Hsid_eq in H.
  destruct (run_attempts env _ _ _) as [[[r1 e1] step1] tr1] eqn:Hat.
  apply run_attempts_outcome in Hat
    as [(Hneg & _)|(_ & more & -> & Hmore & Hout & Hid1 & _ & Hmax1 & _ & Hans)].
  { cbn in Hneg. pose proof (Hretries _ _ Hstep). lia. }
  cbn [step_id step_running max_retries tool_name parameters] in *.
  rewrite Hsid_eq in Hout, Hid1.
  destruct Hout as [(-> & [d Hres] & Hc & Hf & He & _)
                   |(msg & -> & He & Hc & Hres & Hf)].
  - unfold remove_remaining in H. cbn [remaining_steps after_step] in H.
    rewrite bool_decide_eq_true_2 in H by done. injection H as <- <-.
    split; [|done]. left. split; [done|]. split; [|by apply Hprog].
    split; cbn.
    + by apply Haudit'.
    + by rewrite Hf.
    + intros x sx. rewrite Hid1, lookup_insert. case_decide.
      * intros [= <-]. rewrite Hmax1. by eapply Hretries.
      * apply Hretries.
    + intros x Hx. rewrite Hid1, lookup_insert. case_decide; [by eexists|].
      by apply Hdom.
    + intros x Hx. rewrite Hc. cbn.
      destruct (decide (x = sid)) as [->|Hne'].
      * right. apply elem_of_app. right. left.
      * destruct (Hall x Hx) as [?|?]; [left; set_solver|].
        right. apply elem_of_app. by left.
  - injection H as <- <-. split.
    + right. exists sid, msg. split; [done|]. cbn.
      rewrite Hf, He. cbn. rewrite Hfailed. split; [done|].
      by rewrite lookup_insert_eq.
    + intros Hall'. apply Hans. intros a. apply Hall'.
Qed.

Lemma sequential_loop_complete fuel : ∀ st,
  seq_inv sts st →
  (size (remaining_steps st) ≤ fuel)%nat →
  ∃ r st',
    sequential_loop env fuel st = (Finished r, st')
    ∧ ((r = Ok tt ∧ seq_inv sts st' ∧ remaining_steps st' = ∅)
       ∨ (∃ sid msg,
            r = Raise (WorkflowStepError ("Step " +:+ sid +:+ " failed: " +:+ msg))
            ∧ failed_steps (execution st') = [sid]
            ∧ errors (execution st') !! sid = Some msg))
    ∧ (always_answers env → r = Ok tt).
Proof.
  induction fuel as [|fuel IH]; intros st Hinv Hsize; cbn [sequential_loop];
    case_bool_decide as Hrem.
  - exists (Ok tt), st. split; [done|]. split; [|done]. left. done.
  - exfalso. apply Hrem. apply leibniz_equiv. apply size_empty_iff. lia.
  - exists (Ok tt), st. split; [done|]. split; [|done]. left. done.
  - destruct (seq_body env st) as [r st1] eqn:Hb.
    destruct (seq_body_complete st r st1 Hinv Hrem Hb) as [Hcase Hans].
    destruct Hcase as [(-> & Hinv1 & Hsub)|(sid & msg & -> & Hf & He)].
    + apply IH; [done|]. apply subset_size in Hsub. lia.
    + exists (Raise (WorkflowStepError ("Step " +:+ sid +:+ " failed: " +:+ msg))), st1.
      split; [done|]. split; [|done]. right. by exists sid, msg.
Qed.

Lemma initial_state_seq_inv e :
  completed_steps e = [] → failed_steps e = [] →
  results e = ∅ → errors e = ∅ →
  seq_inv sts (initial_state e sts []).
Proof.
  intros Hc Hf Hr He. split; cbn.
  - by apply initial_state_audit.
  - done.
  - apply (run_retries _ Hrun).
  - intros k Hk. rewrite <- dom_step_map_of in Hk. by apply elem_of_dom in Hk.
  - intros k Hk. by left.
Qed.
End sequential_completeness.

Lemma apply_runtime_parameters_elem sts runtime s' :
  s' ∈ _apply_runtime_parameters sts runtime →
  ∃ s, s ∈ sts ∧ step_id s' = step_id s ∧ depends_on s' = depends_on s
       ∧ max_retries s' = max_retries s.
Proof.
  unfold _apply_runtime_parameters. intros Hs'.
  apply list_elem_of_fmap in Hs' as (s & -> & Hs). by exists s.
Qed.

Lemma map_edge_apply_runtime_parameters sts runtime a b :
  map_edge (step_map_of (_apply_runtime_parameters sts runtime)) a b →
  map_edge (step_map_of sts) a b.
Proof.
  intros (s & Ha & Hb).
  pose proof (step_map_of_apply_runtime_parameters sts runtime a) as Hd.
  unfold deps_of in Hd. rewrite Ha in Hd. cbn in Hd.
  destruct (step_map_of sts !! a) as [s0|] eqn:Hs0; [|done].
  exists s0. split; [done|]. cbn in Hd. simplify_eq. congruence.
Qed.

(** A definition without the three defects, with retry budgets that are
    not negative, is runnable, whatever the runtime parameters. *)
Lemma runnable_apply_runtime_parameters sts runtime :
  ¬ has_duplicate_ids sts → ¬ has_dangling_dependency sts → ¬ has_cycle sts →
  (∀ s, s ∈ sts → 0 ≤ max_retries s) →
  runnable (_apply_runtime_parameters sts runtime).
Proof.
  intros Hdup Hdang Hcyc Hret.
  assert (Hnd : NoDup (ids_of sts)) by (by apply dec_stable).
  split.
  - by rewrite apply_runtime_parameters_ids.
  - intros k s' d Hs' Hd. apply step_map_of_lookup_Some in Hs' as [Hs' _].
    apply apply_runtime_parameters_elem in Hs' as (s & Hs & _ & Hdeps & _).
    rewrite step_ids_of_apply_runtime_parameters. apply elem_of_step_ids_of.
    destruct (decide (d ∈ ids_of sts)) as [?|Hnot]; [done|].
    exfalso. apply Hdang. exists s, d. split; [done|]. split; [congruence|done].
  - intros x Hx. apply Hcyc. apply has_cycle_map; [done|]. exists x.
    eapply tc_weaken; [|exact Hx]. apply map_edge_apply_runtime_parameters.
  - intros k s' Hs'. apply step_map_of_lookup_Some in Hs' as [Hs' _].
    apply apply_runtime_parameters_elem in Hs' as (s & Hs & _ & _ & ->).
    by apply Hret.
Qed.

Lemma seq_inv_all_completed sts st :
  seq_inv sts st → remaining_steps st = ∅ →
  NoDup (ids_of sts) →
  completed_steps (execution st) ≡ₚ ids_of sts
  ∧ started (trace st) ≡ₚ ids_of sts.
Proof.
  intros [[Hloop [A1 A2 A3 A4 A5 A6 A7 A8 A9 A10] Hrem Hfresh] Hf Hret Hdom Hall]
    Hempty Hnd.
  assert (Hdone : ∀ k, k ∈ ids_of sts → k ∈ completed_steps (execution st)).
  { intros k Hk. apply elem_of_step_ids_of in Hk.
    destruct (Hall k Hk) as [Hk'|?]; [|done]. rewrite Hempty in Hk'. set_solver. }
  split; apply NoDup_Permutation; try done.
  - intros x. split; [|apply Hdone]. intros Hx. by apply elem_of_step_ids_of, A3.
  - intros x. rewrite elem_of_started. split.
    + intros Hx. by apply elem_of_step_ids_of, A8.
    + intros Hx. apply (safe_completed _ _ _ (li_safe _ _ Hloop)). by apply Hdone.
Qed.

(** A sequential run of a validated definition whose steps all make at
    least one attempt: either every step completes, or the run stops at
    the first step that fails. *)
Lemma sequential_run_outcome env frames fuel wm wid eid params def o wm' tr :
  faithful_set_order env →
  workflow_definitions wm !! wid = Some def →
  parallel_execution def = false →
  _validate_workflow_definition frames (steps def) = Ok tt →
  Forall (λ s, 0 ≤ max_retries s) (steps def) →
  (length (steps def) ≤ fuel)%nat →
  execute_workflow env fuel wm wid eid params = (o, wm', tr) →
  ((∃ e, o = Returned e
         ∧ ex_status e = WorkflowStatus.COMPLETED
         ∧ failed_steps e = []
         ∧ completed_steps e ≡ₚ ids_of (steps def)
         ∧ started tr ≡ₚ ids_of (steps def))
   ∨ (∃ sid msg e,
        o = Raised (WorkflowError ("Workflow execution failed: Step " +:+ sid
                                   +:+ " failed: " +:+ msg))
        ∧ stored wm' (execution_id_of env eid) = Some e
        ∧ ex_status e = WorkflowStatus.FAILED
        ∧ failed_steps e = [sid]
        ∧ errors e !! sid = Some msg))
  ∧ (always_answers env → ∃ e, o = Returned e).
Proof.
  intros Hfaith Hdef Hpar Hvalid Hret Hfuel H.
  pose proof (validate_workflow_definition_spec frames (steps def)) as Hspec.
  rewrite Hvalid in Hspec. destruct Hspec as (Hdup & Hdang & Hcyc).
  rewrite Forall_forall in Hret.
  unfold execute_workflow in H. rewrite Hdef, Hpar in H.
  fold (execution_id_of env eid) in H.
  set (e0 := set_status WorkflowStatus.IN_PROGRESS _) in H.
  set (sts := _apply_runtime_parameters _ _) in H.
  assert (Hrun : runnable sts) by (by apply runnable_apply_runtime_parameters).
  assert (Hids : ids_of sts = ids_of (steps def))
    by apply apply_runtime_parameters_ids.
  unfold _execute_sequential_workflow in H.
  destruct (sequential_loop_complete env sts Hfaith Hrun fuel
              (initial_state e0 sts []))
    as (r & st & Hloop & Hcase & Hans).
  { by apply initial_state_seq_inv. }
  { cbn. pose proof (size_list_to_set_le (ids_of sts)) as [Hle _].
    unfold step_ids_of. unfold ids_of in Hle, Hids. rewrite Hids in Hle at 2.
    rewrite length_fmap in Hle. lia. }
  rewrite Hloop in H.
  pose proof (sequential_loop_execution_id env fuel (initial_state e0 sts []))
    as Heid. rewrite Hloop in Heid. cbn in Heid.
  destruct Hcase as [(-> & Hinv & Hempty)|(sid & msg & -> & Hf & He)].
  - injection H as <- <- <-. split; [|by eauto]. left. eexists. split; [done|].
    destruct (seq_inv_all_completed sts st Hinv Hempty (run_ids _ Hrun))
      as [Hc Hs].
    cbn. split_and!.
    + apply final_status_precedence. intros k Hk. by rewrite Hc.
    + apply (sq_failed _ _ Hinv).
    + by rewrite <- Hids.
    + by rewrite <- Hids.
  - injection H as <- <- <-. split.
    + right. eexists sid, msg, _. split; [done|].
      split; [unfold stored, registered; cbn; by rewrite Heid, lookup_insert_eq|].
      done.
    + intros Hall. by specialize (Hans Hall).
Qed.

(** X10: in sequential mode, a run of a definition that passed
    validation and whose steps all have a retry budget of zero or more
    ends, within as many iterations as there are steps, in one of two
    ways: it returns with status completed, every step completed and
    started exactly once and none failed; or it raises the workflow
    error that wraps the failure of one step, which is then the only
    failed step, with its message in the error map and status failed.
    The loop's own errors (a missing key, "No ready steps found") do
    not occur. *)
Theorem sequential_run_completes_or_stops_at_first_failure
    env frames fuel wm wid eid params def o wm' tr :
  faithful_set_order env →
  workflow_definitions wm !! wid = Some def →
  parallel_execution def = false →
  _validate_workflow_definition frames (steps def) = Ok tt →
  Forall (λ s, 0 ≤ max_retries s) (steps def) →
  (length (steps def) ≤ fuel)%nat →
  execute_workflow env fuel wm wid eid params = (o, wm', tr) →
  (∃ e, o = Returned e
        ∧ ex_status e = WorkflowStatus.COMPLETED
        ∧ failed_steps e = []
        ∧ completed_steps e ≡ₚ ids_of (steps def)
        ∧ started tr ≡ₚ ids_of (steps def))
  ∨ (∃ sid msg e,
       o = Raised (WorkflowError ("Workflow execution failed: Step " +:+ sid
                                  +:+ " failed: " +:+ msg))
       ∧ stored wm' (execution_id_of env eid) = Some e
       ∧ ex_status e = WorkflowStatus.FAILED
       ∧ failed_steps e = [sid]
       ∧ errors e !! sid = Some msg).
Proof.
  intros Hfaith Hdef Hpar Hvalid Hret Hfuel H.
  by destruct (sequential_run_outcome _ _ _ _ _ _ _ _ _ _ _
                 Hfaith Hdef Hpar Hvalid Hret Hfuel H) as [? _].
Qed.

Lemma sequential_run_completes_or_stops_at_first_failure_witness :
  let env := mock_env ["tool_b"] in
  let wm := manager_with chain_of_two 30 false in
  faithful_set_order env
  ∧ ∃ def o wm' tr,
      workflow_definitions wm !! "w" = Some def
      ∧ execute_workflow env 2 wm "w" (Some "run") None = (o, wm', tr)
      ∧ ((∃ e, o = Returned e
               ∧ ex_status e = WorkflowStatus.COMPLETED
               ∧ failed_steps e = []
               ∧ completed_steps e ≡ₚ ids_of (steps def)
               ∧ started tr ≡ₚ ids_of (steps def))
         ∨ (∃ sid msg e,
              o = Raised (WorkflowError ("Workflow execution failed: Step " +:+ sid
                                         +:+ " failed: " +:+ msg))
              ∧ stored wm' (execution_id_of env (Some "run")) = Some e
              ∧ ex_status e = WorkflowStatus.FAILED
              ∧ failed_steps e = [sid]
              ∧ errors e !! sid = Some msg)).
Proof.
  intros env wm.
  assert (Hfaith : faithful_set_order env) by (intros s; reflexivity).
  split; [exact Hfaith|].
  eexists _, _, _, _.
  split; [vm_compute; reflexivity|].
  split; [vm_compute; reflexivity|].
  eapply (sequential_run_completes_or_stops_at_first_failure env 3 2 wm "w"
            (Some "run") None).
  - exact Hfaith.
  - vm_compute; reflexivity.
  - reflexivity.
  - vm_compute; reflexivity.
  - apply (bool_decide_unpack _). vm_compute. exact I.
  - simpl. lia.
  - vm_compute; reflexivity.
Defined.

(** X11: in sequential mode, when every call of a tool comes back with
    a response - whether the response says success or not - a run of a
    validated definition whose steps all have a retry budget of zero or
    more returns with status completed, every step completed and
    started exactly once, and no step failed. *)
Theorem sequential_run_completes_when_every_call_answers
    env frames fuel wm wid eid params def o wm' tr :
  faithful_set_order env →
  always_answers env →
  workflow_definitions wm !! wid = Some def →
  parallel_execution def = false →
  _validate_workflow_definition frames (steps def) = Ok tt →
  Forall (λ s, 0 ≤ max_retries s) (steps def) →
  (length (steps def) ≤ fuel)%nat →
  execute_workflow env fuel wm wid eid params = (o, wm', tr) →
  ∃ e, o = Returned e
       ∧ ex_status e = WorkflowStatus.COMPLETED
       ∧ failed_steps e = []
       ∧ completed_steps e ≡ₚ ids_of (steps def)
       ∧ started tr ≡ₚ ids_of (steps def).
Proof.
  intros Hfaith Hans Hdef Hpar Hvalid Hret Hfuel H.
  destruct (sequential_run_outcome _ _ _ _ _ _ _ _ _ _ _
              Hfaith Hdef Hpar Hvalid Hret Hfuel H)
    as [[Hdone|(sid & msg & e & -> & _)] Hreturns]; [done|].
  destruct (Hreturns Hans) as [e' He']. discriminate He'.
Qed.

Lemma sequential_run_completes_when_every_call_answers_witness :
  let env := refusing_env in
  let wm := manager_with chain_of_two 30 false in
  faithful_set_order env
  ∧ always_answers env
  ∧ ∃ def o wm' tr,
      workflow_definitions wm !! "w" = Some def
      ∧ execute_workflow env 2 wm "w" (Some "run") None = (o, wm', tr)
      ∧ ∃ e, o = Returned e
             ∧ ex_status e = WorkflowStatus.COMPLETED
             ∧ failed_steps e = []
             ∧ completed_steps e ≡ₚ ids_of (steps def)
             ∧ started tr ≡ₚ ids_of (steps def).
Proof.
  intros env wm.
  assert (Hfaith : faithful_set_order env) by (intros s; reflexivity).
  assert (Hans : always_answers env).
  { intros sid attempt tool params. eexists. cbn.
    unfold MCPClient.call_tool. cbn. reflexivity. }
  split; [exact Hfaith|]. split; [exact Hans|].
  eexists _, _, _, _.
  split; [vm_compute; reflexivity|].
  split; [vm_compute; reflexivity|].
  eapply (sequential_run_completes_when_every_call_answers env 3 2 wm "w"
            (Some "run") None).
  - exact Hfaith.
  - exact Hans.
  - vm_compute; reflexivity.
  - reflexivity.
  - vm_compute; reflexivity.
  - apply (bool_decide_unpack _). vm_compute. exact I.
  - simpl. lia.
  - vm_compute; reflexivity.
Defined.
